(** * DIMY proximity tracing: bloom filters, backend matcher, block-wise
      Shamir sharing, Ed25519 point compression and the node's share table.

    The development is a shallow embedding of the Python sources
    ([bloom.py], [backend.py], [sss.py], [Ed25519.py], [client.py],
    [timekeeper.py], [Attacker.py]).  Python integers are [Z]; [bytes] values are lists of
    [Byte.byte]; exceptions are an explicit result type; loops that may not
    terminate take fuel; dictionaries are [gmap]s. *)

From Stdlib Require Import ZArith List Lia Bool String Ascii Strings.Byte DecimalString.
From Stdlib Require Import QArith Qround Qabs Lqa.
From Stdlib Require Import Zmod.Zmod Znumtheory Zpow_facts.
From Stdlib Require DecimalZ DecimalPos.
From stdpp Require Import gmap.
Import ListNotations.

Local Open Scope Z_scope.

(* ===================================================================== *)
(** * Part I. The embedding                                               *)
(* ===================================================================== *)

(** ** Python values, exceptions and byte strings *)

Module Py.

(** The built-in exceptions the modelled code can raise. *)
Inductive exn : Type :=
  | ValueError
  | TypeError
  | OverflowError
  | ZeroDivisionError
  | NotImplementedError
  | UnicodeDecodeError
  | IndexError
  | StopIteration
  | StructError.

(** A computation either returns a value or raises. *)
Inductive res (A : Type) : Type :=
  | Ok (a : A)
  | Raise (e : exn).
Arguments Ok {A} a.
Arguments Raise {A} e.

Definition bind {A B : Type} (m : res A) (k : A -> res B) : res B :=
  match m with
  | Ok a => k a
  | Raise e => Raise e
  end.

Abbreviation bytes := (list byte).

#[global] Instance byte_eq_dec : EqDecision byte := Byte.byte_eq_dec.

Lemma byte_of_to_N_default (x : byte) : default x00 (Byte.of_N (Byte.to_N x)) = x.
Proof. rewrite Byte.of_to_N. reflexivity. Qed.

#[global] Instance byte_countable : Countable byte :=
  inj_countable' Byte.to_N (fun n => default x00 (Byte.of_N n)) byte_of_to_N_default.

Definition byte_val (b : byte) : Z := Z.of_N (Byte.to_N b).

Definition byte_of_Z (z : Z) : byte :=
  match Byte.of_N (Z.to_N (z mod 256)) with
  | Some b => b
  | None => x00
  end.

(** [len(b)] *)
Definition len {A : Type} (l : list A) : Z := Z.of_nat (length l).

(** [b[i:j]] for [0 <= i <= j]. *)
Definition slice {A : Type} (l : list A) (i j : Z) : list A :=
  firstn (Z.to_nat (j - i)) (skipn (Z.to_nat i) l).

(** [int.from_bytes(b, "little")] *)
Fixpoint from_bytes_le (b : bytes) : Z :=
  match b with
  | [] => 0
  | x :: rest => byte_val x + 256 * from_bytes_le rest
  end.

Fixpoint le_digits (n : nat) (z : Z) : bytes :=
  match n with
  | O => []
  | S n' => byte_of_Z z :: le_digits n' (z / 256)
  end.

(** [n.to_bytes(length, "little")]: unsigned, raises [OverflowError] on a
    negative integer or one that does not fit. *)
Definition to_bytes_le (n : Z) (length : Z) : res bytes :=
  if n <? 0 then Raise OverflowError
  else if 2 ^ (8 * length) <=? n then Raise OverflowError
  else Ok (le_digits (Z.to_nat length) n).

(** [n.bit_length()]: bits of the absolute value. *)
Definition bit_length (n : Z) : Z :=
  if n =? 0 then 0 else Z.log2 (Z.abs n) + 1.

(** [str(n).encode()]: the decimal digits of [n] as ASCII bytes. *)
Definition str_encode (n : Z) : bytes :=
  list_byte_of_string (NilZero.string_of_int (Z.to_int n)).

(** [range(n)] *)
Definition range (n : Z) : list Z := map Z.of_nat (seq 0 (Z.to_nat n)).

(** [pow(b, e, m)] for [e >= 0]. *)
Definition pow3 (b e m : Z) : Z := Zpow_mod b e m.

End Py.
Export Py.

(** ** [hashlib.blake2b]: BLAKE2b as specified in RFC 7693.

    The hash is a library function of the Python runtime; it is written out
    here so that the bloom-filter indices of concrete keys can be computed. *)

Module Blake2b.

Definition mask64 : Z := Z.ones 64.

Definition add64 (a b : Z) : Z := Z.land (a + b) mask64.

Definition rotr64 (x n : Z) : Z :=
  Z.lor (Z.shiftr x n) (Z.land (Z.shiftl x (64 - n)) mask64).

Definition IV : list Z :=
  [ 0x6a09e667f3bcc908; 0xbb67ae8584caa73b; 0x3c6ef372fe94f82b;
    0xa54ff53a5f1d36f1; 0x510e527fade682d1; 0x9b05688c2b3e6c1f;
    0x1f83d9abfb41bd6b; 0x5be0cd19137e2179 ].

Definition SIGMA : list (list nat) :=
  [ [ 0; 1; 2; 3; 4; 5; 6; 7; 8; 9; 10; 11; 12; 13; 14; 15 ];
    [ 14; 10; 4; 8; 9; 15; 13; 6; 1; 12; 0; 2; 11; 7; 5; 3 ];
    [ 11; 8; 12; 0; 5; 2; 15; 13; 10; 14; 3; 6; 7; 1; 9; 4 ];
    [ 7; 9; 3; 1; 13; 12; 11; 14; 2; 6; 5; 10; 4; 0; 15; 8 ];
    [ 9; 0; 5; 7; 2; 4; 10; 15; 14; 1; 11; 12; 6; 8; 3; 13 ];
    [ 2; 12; 6; 10; 0; 11; 8; 3; 4; 13; 7; 5; 15; 14; 1; 9 ];
    [ 12; 5; 1; 15; 14; 13; 4; 10; 0; 7; 6; 3; 9; 2; 8; 11 ];
    [ 13; 11; 7; 14; 12; 1; 3; 9; 5; 0; 15; 4; 8; 6; 2; 10 ];
    [ 6; 15; 14; 9; 11; 3; 0; 8; 12; 2; 13; 7; 1; 4; 10; 5 ];
    [ 10; 2; 8; 4; 7; 6; 1; 5; 15; 11; 9; 14; 3; 12; 13; 0 ] ]%nat.

Definition word (v : list Z) (i : nat) : Z := nth i v 0.

Definition setw (v : list Z) (i : nat) (x : Z) : list Z :=
  firstn i v ++ x :: skipn (S i) v.

(** The mixing function G. *)
Definition G (v : list Z) (a b c d : nat) (x y : Z) : list Z :=
  let v := setw v a (add64 (add64 (word v a) (word v b)) x) in
  let v := setw v d (rotr64 (Z.lxor (word v d) (word v a)) 32) in
  let v := setw v c (add64 (word v c) (word v d)) in
  let v := setw v b (rotr64 (Z.lxor (word v b) (word v c)) 24) in
  let v := setw v a (add64 (add64 (word v a) (word v b)) y) in
  let v := setw v d (rotr64 (Z.lxor (word v d) (word v a)) 16) in
  let v := setw v c (add64 (word v c) (word v d)) in
  setw v b (rotr64 (Z.lxor (word v b) (word v c)) 63).

Definition round (m : list Z) (v : list Z) (i : nat) : list Z :=
  let s := nth (i mod 10) SIGMA [] in
  let mw (j : nat) := word m (nth j s O) in
  let v := G v 0 4 8 12 (mw 0%nat) (mw 1%nat) in
  let v := G v 1 5 9 13 (mw 2%nat) (mw 3%nat) in
  let v := G v 2 6 10 14 (mw 4%nat) (mw 5%nat) in
  let v := G v 3 7 11 15 (mw 6%nat) (mw 7%nat) in
  let v := G v 0 5 10 15 (mw 8%nat) (mw 9%nat) in
  let v := G v 1 6 11 12 (mw 10%nat) (mw 11%nat) in
  let v := G v 2 7 8 13 (mw 12%nat) (mw 13%nat) in
  G v 3 4 9 14 (mw 14%nat) (mw 15%nat).

(** The compression function F. *)
Definition F (h : list Z) (m : list Z) (t : Z) (last : bool) : list Z :=
  let v := h ++ IV in
  let v := setw v 12 (Z.lxor (word v 12) (Z.land t mask64)) in
  let v := setw v 13 (Z.lxor (word v 13) (Z.shiftr t 64)) in
  let v := if last then setw v 14 (Z.lxor (word v 14) mask64) else v in
  let v := fold_left (round m) (seq 0 12) v in
  map (fun i => Z.lxor (Z.lxor (word h i) (word v i)) (word v (i + 8))) (seq 0 8).

Definition pad_block (b : bytes) : bytes := b ++ repeat x00 (128 - length b).

Fixpoint words_of (n : nat) (b : bytes) : list Z :=
  match n with
  | O => []
  | S n' => from_bytes_le (firstn 8 b) :: words_of n' (skipn 8 b)
  end.

(** Absorb the input 128 bytes at a time; [t] counts the bytes absorbed so
    far and the last (possibly partial, possibly empty) block is final. *)
Fixpoint absorb (fuel : nat) (h : list Z) (t : Z) (d : bytes) : list Z :=
  match fuel with
  | O => h
  | S fuel' =>
      if (length d <=? 128)%nat
      then F h (words_of 16 (pad_block d)) (t + len d) true
      else absorb fuel' (F h (words_of 16 (firstn 128 d)) (t + 128) false)
                  (t + 128) (skipn 128 d)
  end.

Definition digest_bytes (h : list Z) (nn : Z) : bytes :=
  firstn (Z.to_nat nn) (flat_map (le_digits 8) h).

(** [hashlib.blake2b(data, digest_size=nn, key=key).digest()] *)
Definition blake2b (data : bytes) (nn : Z) (key : bytes) : res bytes :=
  if (nn <? 1) || (64 <? nn) then Raise ValueError
  else if 64 <? len key then Raise ValueError
  else
    let kk := len key in
    let h0 := setw IV 0 (Z.lxor (word IV 0)
                (Z.lxor 0x01010000 (Z.lxor (Z.shiftl kk 8) nn))) in
    let d := if kk =? 0 then data else pad_block key ++ data in
    Ok (digest_bytes (absorb (S (length d)) h0 0 d) nn).

End Blake2b.

(** ** [bloom.py]: the bloom filter *)

Module Bloom.

Definition FILTER_SIZE : Z := 100000.
Definition HASH_ROUNDS : Z := 3.

Record BloomFilter : Type := mkBloom {
  byte_size : Z;
  bit_size : Z;
  digest_size : Z;
  hash_rounds : Z;
  filter : Z
}.

Definition set_filter (self : BloomFilter) (f : Z) : BloomFilter :=
  {| byte_size := byte_size self; bit_size := bit_size self;
     digest_size := digest_size self; hash_rounds := hash_rounds self;
     filter := f |}.

(** [math.ceil(n / 8)] for a bit length [n >= 0]. *)
Definition ceil_div8 (n : Z) : Z := (n + 7) / 8.

(** [BloomFilter.__init__] *)
Definition init (byte_size hash_rounds filter : Z) : res BloomFilter :=
  if byte_size * 8 <? bit_length filter then Raise ValueError
  else
    let bit_size := byte_size * 8 in
    Ok {| byte_size := byte_size;
          bit_size := bit_size;
          digest_size := ceil_div8 (bit_length bit_size);
          hash_rounds := hash_rounds;
          filter := filter |}.

(** [BloomFilter()] with every default: the check [0 > 800000] fails, so
    the constructor returns this record. *)
Definition empty : BloomFilter :=
  {| byte_size := FILTER_SIZE; bit_size := FILTER_SIZE * 8;
     digest_size := 3; hash_rounds := HASH_ROUNDS; filter := 0 |}.

(** One round of [generate_hashes]: the keyed digest, read little-endian and
    reduced modulo [bit_size]. *)
Definition hash_index (self : BloomFilter) (key : bytes) (i : Z) : res Z :=
  bind (Blake2b.blake2b key (digest_size self) (str_encode i)) (fun digest =>
  if bit_size self =? 0 then Raise ZeroDivisionError
  else Ok (from_bytes_le digest mod bit_size self)).

(** [BloomFilter.generate_hashes]: what the generator produces round by
    round; a consumer stops at the first round that raises. *)
Definition generate_hashes (self : BloomFilter) (key : Z) : list (res Z) :=
  let key := str_encode key in
  map (hash_index self key) (range (hash_rounds self)).

(** The loop of [add]: [self.filter |= 1 << index] for each index.  The
    object is mutated in place, so a raise leaves the bits set so far. *)
Fixpoint add_loop (self : BloomFilter) (hs : list (res Z)) : BloomFilter * res unit :=
  match hs with
  | [] => (self, Ok tt)
  | Raise e :: _ => (self, Raise e)
  | Ok index :: rest =>
      if index <? 0 then (self, Raise ValueError)
      else add_loop (set_filter self (Z.lor (filter self) (Z.shiftl 1 index))) rest
  end.

(** [BloomFilter.add] *)
Definition add (self : BloomFilter) (key : Z) : BloomFilter * res unit :=
  add_loop self (generate_hashes self key).

Fixpoint checker_loop (checker : Z) (hs : list (res Z)) : res Z :=
  match hs with
  | [] => Ok checker
  | Raise e :: _ => Raise e
  | Ok index :: rest =>
      if index <? 0 then Raise ValueError
      else checker_loop (Z.lor checker (Z.shiftl 1 index)) rest
  end.

(** [BloomFilter.__contains__] *)
Definition contains (self : BloomFilter) (key : Z) : res bool :=
  bind (checker_loop 0 (generate_hashes self key)) (fun checker =>
  Ok (Z.land checker (filter self) =? checker)).

(** [BloomFilter.query] *)
Definition query (self : BloomFilter) (key : Z) : res bool := contains self key.

(** [BloomFilter.same_param] *)
Definition same_param (self other : BloomFilter) : bool :=
  (true && (byte_size self =? byte_size other))
        && (hash_rounds self =? hash_rounds other).

(** [BloomFilter.__or__] *)
Definition bor (self other : BloomFilter) : res BloomFilter :=
  if negb (same_param self other) then Raise NotImplementedError
  else init (byte_size self) (hash_rounds self) (Z.lor (filter self) (filter other)).

(** [BloomFilter.__and__] *)
Definition band (self other : BloomFilter) : res BloomFilter :=
  if negb (same_param self other) then Raise NotImplementedError
  else init (byte_size self) (hash_rounds self) (Z.land (filter self) (filter other)).

(** The loop of [count]: clear the lowest set bit until nothing is left.
    [None] when the fuel runs out. *)
Fixpoint count_loop (fuel : nat) (c filter : Z) : option Z :=
  if filter =? 0 then Some c
  else
    match fuel with
    | O => None
    | S fuel' => count_loop fuel' (c + 1) (Z.land filter (filter - 1))
    end.

(** [BloomFilter.count] *)
Definition count (fuel : nat) (self : BloomFilter) : option Z :=
  count_loop fuel 0 (filter self).

(** The filters the public operations can produce: the constructor, [add]
    (bit by bit, which also covers an [add] cut short by a raise), union
    and intersection. *)
Inductive reachable : BloomFilter -> Prop :=
  | reach_init : forall bs hr f b,
      init bs hr f = Ok b -> reachable b
  | reach_add : forall b key b' r,
      reachable b -> add b key = (b', r) -> reachable b'
  | reach_or : forall a b c,
      reachable a -> reachable b -> bor a b = Ok c -> reachable c
  | reach_and : forall a b c,
      reachable a -> reachable b -> band a b = Ok c -> reachable c.

(** The same, when every initial value handed to the constructor is
    non-negative. *)
Inductive reachable_nonneg : BloomFilter -> Prop :=
  | reachn_init : forall bs hr f b,
      0 <= f -> init bs hr f = Ok b -> reachable_nonneg b
  | reachn_add : forall b key b' r,
      reachable_nonneg b -> add b key = (b', r) -> reachable_nonneg b'
  | reachn_or : forall a b c,
      reachable_nonneg a -> reachable_nonneg b -> bor a b = Ok c -> reachable_nonneg c
  | reachn_and : forall a b c,
      reachable_nonneg a -> reachable_nonneg b -> band a b = Ok c -> reachable_nonneg c.

(** [bf.filter.to_bytes(BloomFilter.FILTER_SIZE, "little")], the
    serialisation used for uploads. *)
Definition serialize (self : BloomFilter) : res bytes :=
  to_bytes_le (filter self) FILTER_SIZE.

(** Number of set bits of a non-negative integer. *)
Fixpoint pos_popcount (p : positive) : Z :=
  match p with
  | xH => 1
  | xO p' => pos_popcount p'
  | xI p' => 1 + pos_popcount p'
  end.

Definition popcount (z : Z) : Z :=
  match z with
  | Zpos p => pos_popcount p
  | _ => 0
  end.

End Bloom.

(** ** [backend.py]: the backend matcher *)

Module Backend.

Import Bloom.

(** Python [str] values are sequences of code points. *)
Definition str : Type := list Z.

Definition lit (s : string) : str := map byte_val (list_byte_of_string s).

Definition is_cont (b : Z) : bool := (0x80 <=? b) && (b <=? 0xBF).

(** [bytes.decode()]: strict UTF-8. *)
Fixpoint decode_vals (b : list Z) : res str :=
  match b with
  | [] => Ok []
  | b0 :: r =>
      if b0 <? 0x80 then bind (decode_vals r) (fun s => Ok (b0 :: s))
      else if (0xC2 <=? b0) && (b0 <=? 0xDF) then
        match r with
        | b1 :: r1 =>
            if is_cont b1
            then bind (decode_vals r1) (fun s =>
                   Ok (Z.lor (Z.shiftl (Z.land b0 0x1F) 6) (Z.land b1 0x3F) :: s))
            else Raise UnicodeDecodeError
        | _ => Raise UnicodeDecodeError
        end
      else if (0xE0 <=? b0) && (b0 <=? 0xEF) then
        match r with
        | b1 :: b2 :: r2 =>
            if ((if b0 =? 0xE0 then 0xA0 else 0x80) <=? b1)
               && (b1 <=? (if b0 =? 0xED then 0x9F else 0xBF))
               && is_cont b2
            then bind (decode_vals r2) (fun s =>
                   Ok (Z.lor (Z.shiftl (Z.land b0 0x0F) 12)
                        (Z.lor (Z.shiftl (Z.land b1 0x3F) 6) (Z.land b2 0x3F)) :: s))
            else Raise UnicodeDecodeError
        | _ => Raise UnicodeDecodeError
        end
      else if (0xF0 <=? b0) && (b0 <=? 0xF4) then
        match r with
        | b1 :: b2 :: b3 :: r3 =>
            if ((if b0 =? 0xF0 then 0x90 else 0x80) <=? b1)
               && (b1 <=? (if b0 =? 0xF4 then 0x8F else 0xBF))
               && is_cont b2 && is_cont b3
            then bind (decode_vals r3) (fun s =>
                   Ok (Z.lor (Z.shiftl (Z.land b0 0x07) 18)
                        (Z.lor (Z.shiftl (Z.land b1 0x3F) 12)
                          (Z.lor (Z.shiftl (Z.land b2 0x3F) 6) (Z.land b3 0x3F))) :: s))
            else Raise UnicodeDecodeError
        | _ => Raise UnicodeDecodeError
        end
      else Raise UnicodeDecodeError
  end.

Definition decode (b : bytes) : res str := decode_vals (map byte_val b).

(** The server side of an accepted TCP connection: the chunks of bytes that
    successive [recv] calls will find; once the list is empty the peer has
    shut down and [recv] returns [b""]. *)
Definition conn : Type := list bytes.

(** [conn.recv(bufsize)]: at most [bufsize] bytes of the next chunk. *)
Definition sock_recv (bufsize : Z) (c : conn) : bytes * conn :=
  match c with
  | [] => ([], [])
  | chunk :: rest =>
      if len chunk <=? bufsize then (chunk, rest)
      else (firstn (Z.to_nat bufsize) chunk, skipn (Z.to_nat bufsize) chunk :: rest)
  end.

Record Backend : Type := mkBackend {
  bf : BloomFilter;
  port : Z
}.

(** [Backend.__init__] *)
Definition init (port : Z) : Backend := {| bf := Bloom.empty; port := port |}.

(** The loop of [Backend.recv]; [None] when the fuel runs out, which is
    what happens for ever once the peer has stopped sending. *)
Fixpoint recv_loop (fuel : nat) (sock : conn) (data : list bytes) (so_far length : Z)
  : option (bytes * conn) :=
  if so_far <? length then
    match fuel with
    | O => None
    | S fuel' =>
        let '(d, sock') := sock_recv (length - so_far) sock in
        recv_loop fuel' sock' (data ++ [d]) (so_far + len d) length
    end
  else Some (concat data, sock).

(** [Backend.recv] *)
Definition recv (fuel : nat) (sock : conn) (length : Z) : option (bytes * conn) :=
  recv_loop fuel sock [[]] 0 length.

Definition MSG_CBF_RECEIVED : bytes :=
  list_byte_of_string "Server: Contact Bloom Filter received.".
Definition MSG_POSITIVE : bytes :=
  list_byte_of_string "Server: You have been in contact with a positive case.".
Definition MSG_NO_CONTACT : bytes :=
  list_byte_of_string "Server: No contact with a positive case was detected.".

(** What one turn of the accept loop leaves behind: the server object, the
    byte strings passed to [conn.send], whether [conn.close()] was reached
    and the exception that ended the turn, if any. *)
Record served : Type := mkServed {
  state : Backend;
  sent : list bytes;
  closed : bool;
  raised : option exn
}.

Definition crash (self : Backend) (e : exn) : served :=
  {| state := self; sent := []; closed := false; raised := Some e |}.

(** The body of the [while True] loop of [Backend.start] for one accepted
    connection.  [None]: the turn never ends. *)
Definition serve (fuel : nat) (self : Backend) (c : conn) : option served :=
  let '(tag, c1) := sock_recv 3 c in
  match decode tag with
  | Raise e => Some (crash self e)
  | Ok type =>
      match recv fuel c1 FILTER_SIZE with
      | None => None
      | Some (data, _) =>
          let filter := from_bytes_le data in
          match Bloom.init FILTER_SIZE HASH_ROUNDS filter with
          | Raise e => Some (crash self e)
          | Ok client_bf =>
              if bool_decide (type = lit "CBF") then
                match bor (bf self) client_bf with
                | Raise e => Some (crash self e)
                | Ok u =>
                    Some {| state := {| bf := u; port := port self |};
                            sent := [MSG_CBF_RECEIVED];
                            closed := true; raised := None |}
                end
              else
                match band (bf self) client_bf with
                | Raise e => Some (crash self e)
                | Ok i =>
                    match count fuel i with
                    | None => None
                    | Some n =>
                        Some {| state := self;
                                sent := [if HASH_ROUNDS <=? n then MSG_POSITIVE
                                         else MSG_NO_CONTACT];
                                closed := true; raised := None |}
                    end
                end
          end
      end
  end.

(** [Backend.start] on the connections accepted in turn; the thread dies
    with the first exception. *)
Fixpoint start (fuel : nat) (self : Backend) (conns : list conn) : option (Backend * list served) :=
  match conns with
  | [] => Some (self, [])
  | c :: rest =>
      match serve fuel self c with
      | None => None
      | Some r =>
          match raised r with
          | Some _ => Some (state r, [r])
          | None =>
              match start fuel (state r) rest with
              | None => None
              | Some (s, rs) => Some (s, r :: rs)
              end
          end
      end
  end.

(** The server objects that exist between two connections. *)
Inductive running : Backend -> Prop :=
  | running_init : forall p, running (init p)
  | running_serve : forall fuel self c r,
      running self -> serve fuel self c = Some r -> raised r = None ->
      running (state r).

End Backend.

(** ** [Ed25519.py]: point compression *)

Module Ed25519.

Definition b : Z := 256.
Definition q : Z := 2 ^ 255 - 19.
Definition l : Z := 2 ^ 252 + 27742317777372353535851937790883648493.

Definition inv (x : Z) : Z := pow3 x (q - 2) q.

Definition d : Z := -121665 * inv 121666.
Definition I : Z := pow3 2 ((q - 1) / 4) q.

Definition xrecover (y : Z) : Z :=
  let xx := (y * y - 1) * inv (d * y * y + 1) in
  let x := pow3 xx ((q + 3) / 8) q in
  let x := if negb ((x * x - xx) mod q =? 0) then (x * I) mod q else x in
  let x := if negb (x mod 2 =? 0) then q - x else x in
  x.

Definition compress (x y : Z) : Z := Z.lor (Z.shiftl y 1) (Z.land x 1).

(** An [ECC.EccPoint] on the curve "Ed25519": its affine coordinates. *)
Record EccPoint : Type := mkPoint { px : Z; py : Z }.

(** The curve equation [-x^2 + y^2 = 1 + d x^2 y^2] modulo [q]. *)
Definition on_curve (x y : Z) : bool :=
  (- (x * x) + y * y - (1 + d * (x * x) * (y * y))) mod q =? 0.

(** Modelled from the spec: the constructor [ECC.EccPoint(x, y, "Ed25519")]
    of the elliptic-curve library, which is not part of the sources.  It
    takes coordinates that fit the 32-byte field size and raises
    [ValueError] unless they satisfy the curve equation; the spec calls
    this error [InvalidPoint]. *)
Definition new_point (x y : Z) : res EccPoint :=
  if (x <? 0) || (2 ^ 256 <=? x) || (y <? 0) || (2 ^ 256 <=? y) then Raise ValueError
  else if on_curve x y then Ok {| px := x; py := y |}
  else Raise ValueError.

(** The points a key generation can return: reduced coordinates on the
    curve. *)
Definition generated (P : EccPoint) : Prop :=
  0 <= px P < q /\ 0 <= py P < q /\ on_curve (px P) (py P) = true.

Definition compress_key (point : EccPoint) : res bytes :=
  to_bytes_le (compress (px point) (py point)) 32.

Definition decompress_key (key_byte : bytes) : res EccPoint :=
  let key := from_bytes_le key_byte in
  let x_odd := Z.land key 1 in
  let y := Z.shiftr key 1 in
  let x := xrecover y in
  let x := if negb (Z.land x 1 =? x_odd) then q - x else x in
  new_point x y.

(** The value whose square root [xrecover] looks for. *)
Definition xx_of (y : Z) : Z := (y * y - 1) * inv (d * y * y + 1).

Definition has_sqrt (a : Z) : Prop := exists r : Z, (r * r) mod q = a mod q.

End Ed25519.

(** ** [sss.py]: block-wise Shamir sharing *)

Module SSS.

Abbreviation Share := (Z * bytes)%type.
Abbreviation Packet := (Z * bytes * Z * bytes)%type.

Definition SHAMIR_BLOCK_SIZE : Z := 16.

Section Wrapper.

(** The 16-byte primitive [Crypto.Protocol.SecretSharing.Shamir] is a
    library outside the sources.  [split] draws random coefficients, so the
    model hands it the randomness of the call as an argument. *)
Variable rand : Type.
Variable Shamir_split : Z -> Z -> bytes -> bool -> rand -> list Share.
Variable Shamir_combine : list Share -> bool -> res bytes.

(** The inner loop of [split]: [shares[j] += block_shares[j][1]]. *)
Fixpoint extend (shares : list bytes) (block_shares : list Share) (js : list Z)
  : res (list bytes) :=
  match js with
  | [] => Ok shares
  | j :: js' =>
      match block_shares !! Z.to_nat j, shares !! Z.to_nat j with
      | Some (_, payload), Some s =>
          extend (<[Z.to_nat j := s ++ payload]> shares) block_shares js'
      | _, _ => Raise IndexError
      end
  end.

(** The outer loop of [split] over the blocks; [rnd i] is the randomness
    used for block [i]. *)
Fixpoint split_loop (k n : Z) (secret : bytes) (ssss : bool) (rnd : Z -> rand)
    (shares : list bytes) (blocks : list Z) : res (list bytes) :=
  match blocks with
  | [] => Ok shares
  | i :: rest =>
      let block_shares :=
        Shamir_split k n
          (slice secret (i * SHAMIR_BLOCK_SIZE) ((i + 1) * SHAMIR_BLOCK_SIZE))
          ssss (rnd i) in
      bind (extend shares block_shares (range n)) (fun shares' =>
      split_loop k n secret ssss rnd shares' rest)
  end.

Definition split (k n : Z) (secret : bytes) (ssss : bool) (rnd : Z -> rand)
  : res (list Share) :=
  if negb (len secret mod SHAMIR_BLOCK_SIZE =? 0) then Raise ValueError
  else
    let blocks := len secret / SHAMIR_BLOCK_SIZE in
    let shares := map (fun _ => @nil byte) (range n) in
    bind (split_loop k n secret ssss rnd shares (range blocks)) (fun shares =>
    Ok (map (fun i => (i + 1, nth (Z.to_nat i) shares [])) (range n))).

(** The checking loop of [combine]. *)
Fixpoint check_shares (share_len : Z) (shares : list Share) : res unit :=
  match shares with
  | [] => Ok tt
  | share :: rest =>
      if negb (len (snd share) mod SHAMIR_BLOCK_SIZE =? 0) then Raise ValueError
      else if negb (len (snd share) =? share_len) then Raise ValueError
      else check_shares share_len rest
  end.

Fixpoint combine_loop (shares : list Share) (ssss : bool) (result : bytes)
    (blocks : list Z) : res bytes :=
  match blocks with
  | [] => Ok result
  | i :: rest =>
      let block_shares :=
        map (fun '(idx, share) =>
               (idx, slice share (i * SHAMIR_BLOCK_SIZE) ((i + 1) * SHAMIR_BLOCK_SIZE)))
            shares in
      bind (Shamir_combine block_shares ssss) (fun block =>
      combine_loop shares ssss (result ++ block) rest)
  end.

Definition combine (shares : list Share) (ssss : bool) : res bytes :=
  match shares with
  | [] => Raise IndexError
  | first :: _ =>
      let share_len := len (snd first) in
      bind (check_shares share_len shares) (fun _ =>
      let blocks := share_len / SHAMIR_BLOCK_SIZE in
      combine_loop shares ssss [] (range blocks))
  end.

(** The key pair returned by [ECC.generate(curve="Ed25519")]. *)
Record EccKey : Type := mkKey { key_d : Z; pointQ : Ed25519.EccPoint }.

(** [blake2b(data, digest_size=32).digest()] *)
Definition blake2b32 (data : bytes) : res bytes := Blake2b.blake2b data 32 [].

(** [generate], given the freshly generated key. *)
Definition generate (k n : Z) (key : EccKey) (rnd : Z -> rand) : res (list Packet) :=
  bind (Ed25519.compress_key (pointQ key)) (fun public =>
  bind (blake2b32 public) (fun h =>
  bind (split k n public false rnd) (fun shares =>
  Ok (map (fun sh => (sh, key_d key, h)) shares)))).

(** [verify]: [Some] secret when the hash matches, [None] for [False]. *)
Definition verify (shares : list Share) (hash : bytes) : res (option bytes) :=
  bind (combine shares false) (fun shared =>
  bind (blake2b32 shared) (fun shared_hash =>
  if bool_decide (hash = shared_hash) then Ok (Some shared) else Ok None)).

(** Scalar multiplication [P * k] of the elliptic-curve library. *)
Variable point_mul : Ed25519.EccPoint -> Z -> Ed25519.EccPoint.

Definition calc_shared (public : bytes) (secret : Z) : res Z :=
  bind (Ed25519.decompress_key public) (fun P =>
  Ok (Ed25519.px (point_mul P secret))).

End Wrapper.

End SSS.

(** ** [timekeeper.py]: the clock

    Clock readings ([time.rel()], seconds since start) are rationals. *)

Module Timekeeper.

Local Open Scope Q_scope.

(** [x % m] on floats. *)
Definition fmod (x m : Q) : Q := x - m * inject_Z (Qfloor (x / m)).

(** [till_next(interval)], with [rel] the value [rel()] returns. *)
Definition till_next (rel : Q) (interval : Q) : Q := interval - fmod rel interval.

(** Python's [float] is binary64, and every float is a rational number.
    The exponent of a positive [x]: the [e] with [2^e <= x < 2^(e+1)]. *)
Definition exponent (x : Q) : Z :=
  let e := (Z.log2 (Qnum x) - Z.log2 (Zpos (Qden x)))%Z in
  if Qle_bool (2 ^ e) x then e else (e - 1)%Z.

(** The integer nearest to [m], the even one of two that are equally near. *)
Definition nearest_even (m : Q) : Z :=
  let f := Qfloor m in
  match Qcompare (m - inject_Z f) (1 # 2) with
  | Lt => f
  | Gt => (f + 1)%Z
  | Eq => if Z.even f then f else (f + 1)%Z
  end.

(** The float nearest to [x]: 53 significant bits, ties to even, the
    exponent not below that of the subnormal numbers ([x] below the
    largest float in size). *)
Definition round64 (x : Q) : Q :=
  if Qeq_bool x 0 then 0
  else
    let ulp := 2 ^ (Z.max (exponent (Qabs x)) (-1022) - 52) in
    Qred (inject_Z (nearest_even (x / ulp)) * ulp).

(** [a - b] on floats. *)
Definition fsub (a b : Q) : Q := round64 (a - b).

End Timekeeper.

(** ** [client.py]: the node *)

Module Client.

Import Bloom SSS Timekeeper.

Definition EPHID_TIME : Q := 15.
Definition SHARE_K : Z := 3.
Definition SHARE_N : Z := 5.
Definition SHARE_TIME : Q := 3.
Definition SHARE_DROP : Q := 5 # 10.
Definition SHARE_CLEAN_TIME : Q := inject_Z SHARE_N * SHARE_TIME * 2.
Definition DBF_TIME : Q := 90.
Definition DBF_LIFE : Q := 540.
Definition QBF_TIME : Q := 540.
Definition STRUCT_SIZE : Z := 65.

(** The methods the scheduler can be asked to run. *)
Inductive task : Type :=
  | TCommand | TEphGen | TEphShare | TShareClean | TListen
  | TUndo | TQbfCreate | TDbfCycle.

(** An entry of the scheduler queue. *)
Record event : Type := mkEvent { ev_time : Q; ev_priority : Z; ev_task : task }.

(** [SCHED.enter(delay, priority, action)] at clock reading [now]. *)
Definition enter (now delay : Q) (priority : Z) (action : task) : event :=
  {| ev_time := (now + delay)%Q; ev_priority := priority; ev_task := action |}.

(** A line of the command file. *)
Inductive cmd : Type :=
  | STOP
  | MOVE (location : Z)
  | WAIT (seconds : Q)
  | POSITIVE (period : Z)
  | OTHER.

Record DBFContainer : Type := mkDBF {
  dbfs : list BloomFilter;
  is_cbf : bool
}.

Record Client : Type := mkClient {
  ephs : list Packet;
  last_secret : Z;
  location : Z;
  shares : gmap bytes (Q * list Share);
  own_shares : gset bytes;
  wait_time : Q;
  dbf : DBFContainer;
  commands : list cmd;
  pc : nat
}.

(** How a task ends: it returns, raises, blocks for ever, or raises
    [ProgramStop]. *)
Inductive outcome : Type :=
  | Returned
  | Raised (e : exn)
  | Blocked
  | Stopped.

(** A run of a task: the node afterwards, the events it entered into the
    scheduler, the datagrams it broadcast (with the destination port), the
    filters it uploaded (with their type tag) and how it ended. *)
Record effect : Type := mkEffect {
  node : Client;
  scheduled : list event;
  datagrams : list (bytes * Z);
  uploads : list (bytes * bytes);
  result : outcome
}.

Definition finish (self : Client) (evs : list event) (r : outcome) : effect :=
  {| node := self; scheduled := evs; datagrams := []; uploads := []; result := r |}.

Definition set_ephs (self : Client) (v : list Packet) : Client :=
  {| ephs := v; last_secret := last_secret self; location := location self;
     shares := shares self; own_shares := own_shares self;
     wait_time := wait_time self; dbf := dbf self;
     commands := commands self; pc := pc self |}.

Definition set_last_secret (self : Client) (v : Z) : Client :=
  {| ephs := ephs self; last_secret := v; location := location self;
     shares := shares self; own_shares := own_shares self;
     wait_time := wait_time self; dbf := dbf self;
     commands := commands self; pc := pc self |}.

Definition set_location (self : Client) (v : Z) : Client :=
  {| ephs := ephs self; last_secret := last_secret self; location := v;
     shares := shares self; own_shares := own_shares self;
     wait_time := wait_time self; dbf := dbf self;
     commands := commands self; pc := pc self |}.

Definition set_shares (self : Client) (v : gmap bytes (Q * list Share)) : Client :=
  {| ephs := ephs self; last_secret := last_secret self; location := location self;
     shares := v; own_shares := own_shares self;
     wait_time := wait_time self; dbf := dbf self;
     commands := commands self; pc := pc self |}.

Definition set_own_shares (self : Client) (v : gset bytes) : Client :=
  {| ephs := ephs self; last_secret := last_secret self; location := location self;
     shares := shares self; own_shares := v;
     wait_time := wait_time self; dbf := dbf self;
     commands := commands self; pc := pc self |}.

Definition set_wait_time (self : Client) (v : Q) : Client :=
  {| ephs := ephs self; last_secret := last_secret self; location := location self;
     shares := shares self; own_shares := own_shares self;
     wait_time := v; dbf := dbf self;
     commands := commands self; pc := pc self |}.

Definition set_dbf (self : Client) (v : DBFContainer) : Client :=
  {| ephs := ephs self; last_secret := last_secret self; location := location self;
     shares := shares self; own_shares := own_shares self;
     wait_time := wait_time self; dbf := v;
     commands := commands self; pc := pc self |}.

Definition set_pc (self : Client) (v : nat) : Client :=
  {| ephs := ephs self; last_secret := last_secret self; location := location self;
     shares := shares self; own_shares := own_shares self;
     wait_time := wait_time self; dbf := dbf self;
     commands := commands self; pc := v |}.

(** *** [DBFContainer] *)

Definition dbf_count : Z := Qfloor (DBF_LIFE / DBF_TIME) + 1.

(** [deque.append] on a deque with [maxlen]. *)
Definition deque_append {A : Type} (maxlen : Z) (d : list A) (x : A) : list A :=
  if maxlen <=? len d then tl d ++ [x] else d ++ [x].

(** [DBFContainer.__init__] *)
Definition dbf_init (now : Q) : DBFContainer * list event :=
  ({| dbfs := deque_append dbf_count [] Bloom.empty; is_cbf := false |},
   [enter now (till_next now QBF_TIME) 1 TQbfCreate;
    enter now (till_next now DBF_TIME) 2 TDbfCycle]).

(** [DBFContainer.combine] *)
Fixpoint combine_loop (cbf : BloomFilter) (ds : list BloomFilter) : res BloomFilter :=
  match ds with
  | [] => Ok cbf
  | d :: rest => bind (bor cbf d) (fun cbf' => combine_loop cbf' rest)
  end.

Definition dbf_combine (self : DBFContainer) : res BloomFilter :=
  combine_loop Bloom.empty (dbfs self).

(** [DBFContainer.add]: [self.dbfs[-1].add(EncID)] *)
Definition dbf_add (self : DBFContainer) (EncID : Z) : DBFContainer * res unit :=
  match last (dbfs self) with
  | None => (self, Raise IndexError)
  | Some cur =>
      let '(cur', r) := Bloom.add cur EncID in
      ({| dbfs := removelast (dbfs self) ++ [cur']; is_cbf := is_cbf self |}, r)
  end.

(** [DBFContainer.contact_backend]: the bytes written to the TCP
    connection; the reply is only logged. *)
Definition contact_backend (type : string) (bf : BloomFilter) : res (bytes * bytes) :=
  bind (to_bytes_le (filter bf) FILTER_SIZE) (fun body =>
  Ok (list_byte_of_string type, body)).

(** [struct.pack("<B32s32s", idx, share, hash)] *)
Definition fit32 (b : bytes) : bytes := firstn 32 (b ++ repeat x00 32).

Definition pack (idx : Z) (share hash : bytes) : res bytes :=
  if (idx <? 0) || (255 <? idx) then Raise StructError
  else Ok (byte_of_Z idx :: fit32 share ++ fit32 hash).

(** [struct.unpack("<B32s32s", raw)] *)
Definition unpack (raw : bytes) : res (Z * bytes * bytes) :=
  match raw with
  | idx :: rest =>
      if len raw =? STRUCT_SIZE
      then Ok (byte_val idx, firstn 32 rest, skipn 32 rest)
      else Raise StructError
  | [] => Raise StructError
  end.

Section Node.

Variable rand : Type.
Variable Shamir_split : Z -> Z -> bytes -> bool -> rand -> list Share.
Variable Shamir_combine : list Share -> bool -> res bytes.
Variable point_mul : Ed25519.EccPoint -> Z -> Ed25519.EccPoint.

(** [Client.eph_gen], given the fresh key pair and the randomness of the
    split. *)
Definition eph_gen (now : Q) (key : EccKey) (rnd : Z -> rand) (self : Client) : effect :=
  let evs := [enter now (till_next now EPHID_TIME) 1 TEphGen] in
  match generate rand Shamir_split SHARE_K SHARE_N key rnd with
  | Raise e => finish self evs (Raised e)
  | Ok shs =>
      let self := set_ephs self (ephs self ++ shs) in
      match shs with
      | [] => finish self evs (Raised IndexError)
      | (_, _, h) :: _ =>
          finish (set_own_shares self ({[ h ]} ∪ own_shares self)) evs Returned
      end
  end.

(** [Client.eph_share]; [r] is the value of [random.random()].  The
    queue is a [queue.Queue], whose [get()] blocks while it is empty. *)
Definition eph_share (now : Q) (r : Q) (self : Client) : effect :=
  let evs := [enter now (till_next now SHARE_TIME) 1 TEphShare] in
  match ephs self with
  | [] => finish self evs Blocked
  | share :: rest =>
      let self := set_ephs self rest in
      let '(idx, payload, secret, hash) := share in
      if Qlt_le_dec r SHARE_DROP then finish self evs Returned
      else
        let self := set_last_secret self secret in
        match pack idx payload hash with
        | Raise e => finish self evs (Raised e)
        | Ok packet =>
            {| node := self; scheduled := evs;
               datagrams := [(packet, location self)]; uploads := [];
               result := Returned |}
        end
  end.

(** [Client.share_clean]: drop the entries first seen more than
    [SHARE_CLEAN_TIME] ago.  [stale now v] is the test
    [time.rel() - v[0] > SHARE_CLEAN_TIME], a subtraction of floats. *)
Definition stale (now : Q) (v : Q * list Share) : bool :=
  negb (Qle_bool (fsub now (fst v)) SHARE_CLEAN_TIME).

Definition share_clean (now : Q) (self : Client) : effect :=
  let evs := [enter now (till_next now EPHID_TIME) 1 TShareClean] in
  finish
    (set_shares self
       (base.filter (fun kv => stale now (snd kv) = false) (shares self)))
    evs Returned.

(** The first half of [Client.listen]: the frame read from the socket,
    unless there is none or it carries one of the node's own hashes. *)
Definition received (raw : option bytes) (self : Client) : res (option (Z * bytes * bytes)) :=
  match raw with
  | None => Ok None
  | Some datagram =>
      bind (unpack (firstn (Z.to_nat STRUCT_SIZE) datagram)) (fun '(idx, share, hash) =>
      if bool_decide (hash ∈ own_shares self) then Ok None
      else Ok (Some (idx, share, hash)))
  end.

(** [self.shares[hash]]: the table is a [defaultdict] whose factory stamps
    a fresh entry with the current time. *)
Definition entry (now : Q) (self : Client) (hash : bytes) : Q * list Share :=
  default (now, []) (shares self !! hash).

(** [self.shares[hash][1].append((idx, share))] *)
Definition store (now : Q) (hash : bytes) (sh : Share) (self : Client) : Client :=
  let '(t, l) := entry now self hash in
  set_shares self (<[hash := (t, l ++ [sh])]> (shares self)).

(** The arguments of the call [sss.verify(self.shares[hash][1], hash)] that
    [listen] makes, if it makes one. *)
Definition attempt (now : Q) (raw : option bytes) (self : Client) : option (list Share * bytes) :=
  match received raw self with
  | Ok (Some (idx, share, hash)) =>
      let self := store now hash (idx, share) self in
      let l := snd (entry now self hash) in
      if SHARE_K <=? len l then Some (l, hash) else None
  | _ => None
  end.

(** What [listen] does with the answer of [sss.verify]. *)
Definition conclude (now : Q) (self : Client) (hash : bytes) (evs : list event)
    (v : res (option bytes)) : effect :=
  match v with
  | Raise e => finish self evs (Raised e)
  | Ok None => finish self evs Returned
  | Ok (Some []) => finish self evs Returned
  | Ok (Some public) =>
      match calc_shared point_mul public (last_secret self) with
      | Raise e => finish self evs (Raised e)
      | Ok EncID =>
          let '(dbf', r) := dbf_add (dbf self) EncID in
          let self := set_dbf self dbf' in
          match r with
          | Raise e => finish self evs (Raised e)
          | Ok _ =>
              let '(t, _) := entry now self hash in
              finish (set_shares self (<[hash := (t, [])]> (shares self))) evs Returned
          end
      end
  end.

(** [Client.listen]; [raw] is the datagram waiting on the socket, if any. *)
Definition listen (now : Q) (raw : option bytes) (self : Client) : effect :=
  let evs := [enter now (1 # 10) 1 TListen] in
  match received raw self with
  | Raise e => finish self evs (Raised e)
  | Ok None => finish self evs Returned
  | Ok (Some (idx, share, hash)) =>
      let self := store now hash (idx, share) self in
      let l := snd (entry now self hash) in
      if SHARE_K <=? len l
      then conclude now self hash evs (verify Shamir_combine l hash)
      else finish self evs Returned
  end.

(** [DBFContainer.qbf_create] *)
Definition qbf_create (now : Q) (self : Client) : effect :=
  let evs := [enter now (till_next now QBF_TIME) 1 TQbfCreate] in
  match dbf_combine (dbf self) with
  | Raise e => finish self evs (Raised e)
  | Ok combined =>
      match contact_backend (if is_cbf (dbf self) then "CBF" else "QBF") combined with
      | Raise e => finish self evs (Raised e)
      | Ok up =>
          {| node := self; scheduled := evs; datagrams := []; uploads := [up];
             result := Returned |}
      end
  end.

(** [DBFContainer.dbf_cycle] *)
Definition dbf_cycle (now : Q) (self : Client) : effect :=
  let evs := [enter now (till_next now DBF_TIME) 2 TDbfCycle] in
  finish
    (set_dbf self {| dbfs := deque_append dbf_count (dbfs (dbf self)) Bloom.empty;
                     is_cbf := is_cbf (dbf self) |})
    evs Returned.

(** The closure [undo] of [cmd_positive]. *)
Definition undo (self : Client) : effect :=
  finish (set_dbf self {| dbfs := dbfs (dbf self); is_cbf := false |}) [] Returned.

(** [Client.cmd_positive] *)
Definition cmd_positive (now : Q) (period : Z) (evs : list event) (self : Client) : effect :=
  let self := set_dbf self {| dbfs := dbfs (dbf self); is_cbf := true |} in
  let evs := evs ++ [enter now (till_next now (wait_time self + inject_Z period)) 1 TUndo] in
  match dbf_combine (dbf self) with
  | Raise e => finish self evs (Raised e)
  | Ok cbf =>
      match contact_backend "CBF" cbf with
      | Raise e => finish self evs (Raised e)
      | Ok up =>
          {| node := self; scheduled := evs; datagrams := []; uploads := [up];
             result := Returned |}
      end
  end.

(** [Client.command]: [next(gen)] on the cycling command list. *)
Definition command (now : Q) (self : Client) : effect :=
  match commands self with
  | [] => finish self [] (Raised StopIteration)
  | c0 :: _ =>
      let c := nth (pc self) (commands self) c0 in
      let self := set_pc self (S (pc self) mod length (commands self))%nat in
      match c with
      | STOP => finish self [] Stopped
      | MOVE loc => finish (set_location self loc) [enter now 0 1 TCommand] Returned
      | WAIT secs =>
          let self := set_wait_time self (wait_time self + secs) in
          if Qeq_bool (wait_time self) 0 then finish self [] (Raised ZeroDivisionError)
          else finish self [enter now (till_next now (wait_time self)) 1 TCommand] Returned
      | POSITIVE period => cmd_positive now period [enter now 0 1 TCommand] self
      | OTHER => finish self [] Returned
      end
  end.

(** The node as the scheduler drives it, reduced to what decides the fate
    of the share table: the clock, the clock reading at the latest run of
    [share_clean] (at the start, before the first run), and the client
    object. *)
Record timed : Type := mkTimed { clock : Q; cleaned : Q; obj : Client }.

(** The state in which [Client.start] hands over to the scheduler. *)
Definition started (t0 : Q) (self : Client) : timed :=
  {| clock := t0; cleaned := t0; obj := self |}.

(** One move of the scheduler: let time pass, or run a task to completion
    at the current instant.  The scheduler runs an event when its time has
    come or later: the tasks run one at a time and [contact_backend]
    blocks.  The relation does not follow the event queue; it allows the
    tasks in every order and at every time, so no schedule is left out. *)
Inductive step : timed -> timed -> Prop :=
  | step_idle : forall s t,
      (clock s <= t)%Q ->
      step s {| clock := t; cleaned := cleaned s; obj := obj s |}
  | step_clean : forall s e,
      e = share_clean (clock s) (obj s) -> result e = Returned ->
      step s {| clock := clock s; cleaned := clock s; obj := node e |}
  | step_listen : forall s raw e,
      e = listen (clock s) raw (obj s) -> result e = Returned ->
      step s {| clock := clock s; cleaned := cleaned s; obj := node e |}
  | step_eph_gen : forall s key rnd e,
      e = eph_gen (clock s) key rnd (obj s) -> result e = Returned ->
      step s {| clock := clock s; cleaned := cleaned s; obj := node e |}
  | step_eph_share : forall s r e,
      e = eph_share (clock s) r (obj s) -> result e = Returned ->
      step s {| clock := clock s; cleaned := cleaned s; obj := node e |}
  | step_command : forall s e,
      e = command (clock s) (obj s) -> result e = Returned ->
      step s {| clock := clock s; cleaned := cleaned s; obj := node e |}
  | step_qbf_create : forall s e,
      e = qbf_create (clock s) (obj s) -> result e = Returned ->
      step s {| clock := clock s; cleaned := cleaned s; obj := node e |}
  | step_dbf_cycle : forall s e,
      e = dbf_cycle (clock s) (obj s) -> result e = Returned ->
      step s {| clock := clock s; cleaned := cleaned s; obj := node e |}
  | step_undo : forall s e,
      e = undo (obj s) -> result e = Returned ->
      step s {| clock := clock s; cleaned := cleaned s; obj := node e |}.

(** The states of a node that started at clock reading [t0 >= 0] with an
    empty share table. *)
Inductive reachable : timed -> Prop :=
  | reach_start : forall t0 self,
      (0 <= t0)%Q -> shares self = ∅ -> reachable (started t0 self)
  | reach_step : forall s s', reachable s -> step s s' -> reachable s'.

(** The age of the oldest information in the table. *)
Definition all_younger (bound : Q) (s : timed) : Prop :=
  forall hash t l, shares (obj s) !! hash = Some (t, l) -> (clock s - t <= bound)%Q.

End Node.

End Client.

(** ** [Attacker.py]: the tracker of broadcasting nodes *)

Module Attacker.

Import Backend.

(** A sender address [(host, port)]. *)
Definition addr : Type := (str * Z)%type.

(** An entry [(node_id, {(location, port)}, {hashes})] of [tracker]. *)
Record entry : Type := mkEntry {
  name : str;
  addrs : gset addr;
  hashes : gset bytes
}.

(** The two module globals. *)
Record state : Type := mkState {
  tracker : list entry;
  node_id : Z
}.

Definition init : state := {| tracker := []; node_id := 0 |}.

(** [f"Node {node_id}"] *)
Definition node_name (n : Z) : str := lit "Node " ++ map byte_val (str_encode n).

(** [new_id] *)
Definition new_id (st : state) : state * str :=
  let n := node_id st + 1 in
  ({| tracker := tracker st; node_id := n |}, node_name n).

(** The [for] loop of [find_node]: the tracker after the first entry that
    knows the address or the hash has been updated in place, and the name
    of that entry; [None] when the loop runs to its end. *)
Fixpoint find_loop (hash : bytes) (a : addr) (nodes : list entry)
  : option (list entry * str) :=
  match nodes with
  | [] => None
  | node :: rest =>
      if bool_decide (a ∈ addrs node) then
        Some ({| name := name node; addrs := addrs node;
                 hashes := {[ hash ]} ∪ hashes node |} :: rest, name node)
      else if bool_decide (hash ∈ hashes node) then
        Some ({| name := name node; addrs := {[ a ]} ∪ addrs node;
                 hashes := hashes node |} :: rest, name node)
      else
        match find_loop hash a rest with
        | Some (rest', id) => Some (node :: rest', id)
        | None => None
        end
  end.

(** [find_node] *)
Definition find_node (hash : bytes) (a : addr) (st : state) : state * str :=
  match find_loop hash a (tracker st) with
  | Some (nodes, id) => ({| tracker := nodes; node_id := node_id st |}, id)
  | None =>
      let '(st, id) := new_id st in
      ({| tracker := tracker st ++ [{| name := id; addrs := {[ a ]}; hashes := {[ hash ]} |}];
          node_id := node_id st |},
       id)
  end.

(** The body of the loop of [thread] for one datagram: unpack the frame
    and associate its hash with the sender. *)
Definition observe (raw : bytes) (a : addr) (st : state) : res (state * str) :=
  bind (Client.unpack (firstn (Z.to_nat Client.STRUCT_SIZE) raw)) (fun '(idx, _, hash) =>
  Ok (find_node hash a st)).

(** The states of the tracker while the attacker runs. *)
Inductive reachable : state -> Prop :=
  | reach_init : reachable init
  | reach_find : forall st hash a, reachable st -> reachable (fst (find_node hash a st)).

End Attacker.
(* ===================================================================== *)
(** * Part II. Properties                                                 *)
(* ===================================================================== *)

(** ** Integers and byte strings *)

Section PyFacts.

Lemma byte_val_range (x : byte) : 0 <= byte_val x < 256.
Proof.
  unfold byte_val. pose proof (Byte.to_N_bounded x) as H. lia.
Qed.

Lemma len_app {A : Type} (l1 l2 : list A) : len (l1 ++ l2) = len l1 + len l2.
Proof. unfold len. rewrite length_app. lia. Qed.

Lemma len_nonneg {A : Type} (l : list A) : 0 <= len l.
Proof. unfold len. lia. Qed.

Lemma from_bytes_le_range (b : bytes) : 0 <= from_bytes_le b < 2 ^ (8 * len b).
Proof.
  induction b as [|x b IH].
  - simpl. unfold len. simpl. lia.
  - cbn [from_bytes_le]. pose proof (byte_val_range x) as Hx.
    replace (8 * len (x :: b)) with (8 + 8 * len b) by (unfold len; cbn [length]; lia).
    rewrite Z.pow_add_r by (pose proof (len_nonneg b); lia).
    change (2 ^ 8) with 256. lia.
Qed.

Lemma bit_length_le (z n : Z) : 0 <= n -> (bit_length z <= n <-> Z.abs z < 2 ^ n).
Proof.
  intros Hn. unfold bit_length. destruct (Z.eqb_spec z 0) as [->|Hz].
  - simpl. split; intros _; [apply Z.pow_pos_nonneg; lia | lia].
  - assert (0 < Z.abs z) as Hpos by lia.
    rewrite (Z.log2_lt_pow2 _ _ Hpos). lia.
Qed.

End PyFacts.

(** ** The bloom filter *)

Section BloomFacts.

Import Bloom.

(** A filter as the constructor leaves it: the derived attributes agree with
    [byte_size] and the check on the initial value has passed. *)
Definition wf (b : BloomFilter) : Prop :=
  bit_size b = byte_size b * 8 /\
  digest_size b = ceil_div8 (bit_length (bit_size b)) /\
  Z.abs (filter b) < 2 ^ (byte_size b * 8) /\
  0 <= byte_size b.

Lemma init_inv bs hr f b :
  init bs hr f = Ok b ->
  byte_size b = bs /\ hash_rounds b = hr /\ filter b = f /\ wf b.
Proof.
  unfold init. destruct (Z.ltb_spec (bs * 8) (bit_length f)) as [Hlt|Hle]; [discriminate|].
  intros [= <-]. cbn. unfold wf. cbn.
  assert (0 <= bs * 8) as Hbs.
  { unfold bit_length in Hle. destruct (f =? 0); [lia|].
    pose proof (Z.log2_nonneg (Z.abs f)). lia. }
  repeat split; try lia. apply bit_length_le; assumption.
Qed.

Lemma init_ok bs hr f :
  0 <= bs -> Z.abs f < 2 ^ (bs * 8) ->
  init bs hr f =
    Ok {| byte_size := bs; bit_size := bs * 8;
          digest_size := ceil_div8 (bit_length (bs * 8));
          hash_rounds := hr; filter := f |}.
Proof.
  intros Hbs Hf. unfold init.
  destruct (Z.ltb_spec (bs * 8) (bit_length f)) as [Hlt|Hle]; [|reflexivity].
  apply bit_length_le in Hf; lia.
Qed.

Lemma init_rejects bs hr f :
  0 <= bs -> 2 ^ (bs * 8) <= Z.abs f -> init bs hr f = Raise ValueError.
Proof.
  intros Hbs Hf. unfold init.
  destruct (Z.ltb_spec (bs * 8) (bit_length f)) as [Hlt|Hle]; [reflexivity|].
  apply bit_length_le in Hle; lia.
Qed.

(** Every index the generator yields has been reduced modulo [bit_size]. *)
Lemma hash_index_range b key i idx :
  0 <= bit_size b -> hash_index b key i = Ok idx -> 0 <= idx < bit_size b.
Proof.
  intros Hbs. unfold hash_index.
  destruct (Blake2b.blake2b key (digest_size b) (str_encode i)) as [dg|e]; cbn; [|discriminate].
  destruct (Z.eqb_spec (bit_size b) 0) as [Hz|Hnz]; [discriminate|].
  intros [= <-]. apply Z.mod_pos_bound. lia.
Qed.

Lemma generate_hashes_range b key idx :
  0 <= bit_size b -> In (Ok idx) (generate_hashes b key) -> 0 <= idx < bit_size b.
Proof.
  intros Hbs Hin. unfold generate_hashes in Hin.
  apply in_map_iff in Hin as (i & Hi & _). eapply hash_index_range; eauto.
Qed.

Lemma lor_ge_l (f s : Z) : 0 <= s -> f <= Z.lor f s.
Proof.
  intros Hs.
  assert (Z.lor f s = f + Z.ldiff s f) as ->.
  { rewrite Z.add_nocarry_lxor.
    - apply Z.bits_inj'. intros i Hi.
      rewrite Z.lxor_spec, Z.lor_spec, Z.ldiff_spec.
      destruct (Z.testbit f i), (Z.testbit s i); reflexivity.
    - apply Z.bits_inj'. intros i Hi.
      rewrite Z.land_spec, Z.ldiff_spec, Z.bits_0.
      destruct (Z.testbit f i), (Z.testbit s i); reflexivity. }
  assert (0 <= Z.ldiff s f) by (apply Z.ldiff_nonneg; lia). lia.
Qed.

Lemma set_bit_abs_bound f idx n :
  0 <= idx < n -> Z.abs f < 2 ^ n -> Z.abs (Z.lor f (Z.shiftl 1 idx)) < 2 ^ n.
Proof.
  intros Hidx Hf.
  assert (0 < 2 ^ n) as Hp by (apply Z.pow_pos_nonneg; lia).
  assert (0 <= Z.shiftl 1 idx) as Hs by (apply Z.shiftl_nonneg; lia).
  destruct (Z.neg_nonneg_cases f) as [Hneg|Hnn].
  - (* a negative filter only gets closer to -1 *)
    assert (Z.lor f (Z.shiftl 1 idx) < 0) as Hlt by (apply Z.lor_neg; lia).
    pose proof (lor_ge_l f (Z.shiftl 1 idx) Hs). lia.
  - rewrite Z.abs_eq by (apply Z.lor_nonneg; lia).
    rewrite Z.abs_eq in Hf by lia.
    destruct (Z.eq_dec (Z.lor f (Z.shiftl 1 idx)) 0) as [->|Hnz]; [lia|].
    apply Z.log2_lt_pow2; [pose proof (proj2 (Z.lor_nonneg f (Z.shiftl 1 idx))); lia|].
    rewrite Z.log2_lor by lia.
    rewrite Z.shiftl_1_l, Z.log2_pow2 by lia.
    destruct (Z.eq_dec f 0) as [->|Hf0]; [simpl; lia|].
    assert (Z.log2 f < n) by (apply Z.log2_lt_pow2; lia). lia.
Qed.

Lemma add_loop_inv hs : forall b b' r,
  (forall idx, In (Ok idx) hs -> 0 <= idx < bit_size b) ->
  wf b -> add_loop b hs = (b', r) ->
  wf b' /\ byte_size b' = byte_size b /\ hash_rounds b' = hash_rounds b /\
  (0 <= filter b -> 0 <= filter b').
Proof.
  induction hs as [|h hs IH]; intros b b' r Hrange Hwf Hadd; cbn in Hadd.
  - injection Hadd as <- <-. auto.
  - destruct h as [idx|e]; [|injection Hadd as <- <-; auto].
    destruct (Z.ltb_spec idx 0); [injection Hadd as <- <-; auto|].
    assert (forall i, In (Ok i) hs ->
              0 <= i < bit_size (set_filter b (Z.lor (filter b) (Z.shiftl 1 idx)))) as Hr'.
    { intros i Hi. cbn. apply Hrange. right. assumption. }
    assert (wf (set_filter b (Z.lor (filter b) (Z.shiftl 1 idx)))) as Hwf'.
    { destruct Hwf as (H1 & H2 & H3 & H4). unfold wf. cbn. repeat split; auto.
      apply set_bit_abs_bound; [|assumption].
      rewrite <- H1. apply Hrange. left. reflexivity. }
    destruct (IH _ _ _ Hr' Hwf' Hadd) as (Hw & Hb & Hh & Hn). cbn in *.
    refine (conj Hw (conj Hb (conj Hh _))).
    intros Hf. apply Hn. apply Z.lor_nonneg. split; [assumption|].
    apply Z.shiftl_nonneg. lia.
Qed.

Lemma add_inv b key b' r :
  wf b -> add b key = (b', r) ->
  wf b' /\ byte_size b' = byte_size b /\ hash_rounds b' = hash_rounds b /\
  (0 <= filter b -> 0 <= filter b').
Proof.
  intros Hwf Hadd. unfold add in Hadd. eapply add_loop_inv; eauto.
  intros idx Hin. eapply generate_hashes_range; eauto.
  destruct Hwf as (H1 & _ & _ & H4). lia.
Qed.

Lemma bor_inv a b c :
  bor a b = Ok c ->
  byte_size c = byte_size a /\ hash_rounds c = hash_rounds a /\
  filter c = Z.lor (filter a) (filter b) /\ wf c.
Proof.
  unfold bor. destruct (same_param a b); [|discriminate]. cbn. apply init_inv.
Qed.

Lemma band_inv a b c :
  band a b = Ok c ->
  byte_size c = byte_size a /\ hash_rounds c = hash_rounds a /\
  filter c = Z.land (filter a) (filter b) /\ wf c.
Proof.
  unfold band. destruct (same_param a b); [|discriminate]. cbn. apply init_inv.
Qed.

Lemma reachable_wf b : reachable b -> wf b.
Proof.
  induction 1 as [bs hr f b Hi|b key b' r _ IH Hadd|a b c _ _ _ _ Hor|a b c _ _ _ _ Hand].
  - apply init_inv in Hi. tauto.
  - eapply add_inv in Hadd; tauto.
  - apply bor_inv in Hor. tauto.
  - apply band_inv in Hand. tauto.
Qed.

Lemma reachable_nonneg_reachable b : reachable_nonneg b -> reachable b.
Proof.
  induction 1 as [bs hr f b Hf Hi|b key b' r _ IH Hadd
                 |a b c _ IHa _ IHb Hor|a b c _ IHa _ IHb Hand].
  - exact (reach_init _ _ _ _ Hi).
  - exact (reach_add _ _ _ _ IH Hadd).
  - exact (reach_or _ _ _ IHa IHb Hor).
  - exact (reach_and _ _ _ IHa IHb Hand).
Qed.

Lemma reachable_nonneg_filter b : reachable_nonneg b -> 0 <= filter b.
Proof.
  induction 1 as [bs hr f b Hf Hi|b key b' r Hb IH Hadd|a b c _ IHa _ IHb Hor|a b c _ IHa _ IHb Hand].
  - apply init_inv in Hi. destruct Hi as (_ & _ & -> & _). assumption.
  - eapply add_inv in Hadd; [tauto|].
    apply reachable_wf, reachable_nonneg_reachable; assumption.
  - apply bor_inv in Hor. destruct Hor as (_ & _ & -> & _). apply Z.lor_nonneg. tauto.
  - apply band_inv in Hand. destruct Hand as (_ & _ & -> & _). apply Z.land_nonneg. tauto.
Qed.

End BloomFacts.

(** *** Membership *)

Section Membership.

Import Bloom.

(** [x] has no bit outside [f]: the test [(checker & filter) == checker]. *)
Definition covered (x f : Z) : Prop := Z.land x f = x.

Lemma covered_bits x f : covered x f <-> forall i, 0 <= i -> Z.testbit x i = true -> Z.testbit f i = true.
Proof.
  unfold covered. split.
  - intros H i Hi Hx. apply (f_equal (fun z => Z.testbit z i)) in H.
    rewrite Z.land_spec, Hx in H. exact H.
  - intros H. apply Z.bits_inj'. intros i Hi. rewrite Z.land_spec.
    specialize (H i Hi). destruct (Z.testbit x i); [rewrite H; reflexivity|reflexivity].
Qed.

Lemma covered_lor x y f : covered (Z.lor x y) f <-> covered x f /\ covered y f.
Proof.
  rewrite !covered_bits. split.
  - intros H. split; intros i Hi Hb; apply H; try assumption;
      rewrite Z.lor_spec, Hb; [reflexivity|apply orb_true_r].
  - intros [Hx Hy] i Hi Hb. rewrite Z.lor_spec in Hb.
    apply orb_true_iff in Hb as [Hb|Hb]; auto.
Qed.

Lemma covered_bit i f : 0 <= i -> covered (Z.shiftl 1 i) f <-> Z.testbit f i = true.
Proof.
  intros Hi. rewrite covered_bits. split.
  - intros H. apply H; [assumption|].
    rewrite Z.shiftl_1_l. apply Z.pow2_bits_true. assumption.
  - intros H j Hj Hb. rewrite Z.shiftl_1_l, Z.pow2_bits_eqb in Hb by assumption.
    apply Z.eqb_eq in Hb. subst j. assumption.
Qed.

Lemma covered_0 f : covered 0 f.
Proof. unfold covered. apply Z.land_0_l. Qed.

(** The checker accumulates exactly the indices the generator yields. *)
Lemma checker_loop_spec hs : forall c0 c,
  checker_loop c0 hs = Ok c ->
  exists idxs, hs = map Ok idxs /\ Forall (fun i => 0 <= i) idxs /\
    forall f, covered c f <-> covered c0 f /\ Forall (fun i => Z.testbit f i = true) idxs.
Proof.
  induction hs as [|h hs IH]; intros c0 c Hc; cbn in Hc.
  - injection Hc as <-. exists []. split; [reflexivity|]. split; [constructor|].
    intros f. split; [intros H; split; [assumption|constructor]|tauto].
  - destruct h as [idx|e]; [|discriminate].
    destruct (Z.ltb_spec idx 0) as [|Hidx]; [discriminate|].
    destruct (IH _ _ Hc) as (idxs & -> & Hnn & Hcov).
    exists (idx :: idxs). split; [reflexivity|]. split; [constructor; assumption|].
    intros f. rewrite Hcov, covered_lor, covered_bit, Forall_cons_iff by assumption.
    tauto.
Qed.

Lemma checker_loop_complete idxs : forall c0,
  Forall (fun i => 0 <= i) idxs -> exists c, checker_loop c0 (map Ok idxs) = Ok c.
Proof.
  induction idxs as [|i idxs IH]; intros c0 Hnn; cbn.
  - eexists; reflexivity.
  - apply Forall_cons_iff in Hnn as [Hi Hnn].
    destruct (Z.ltb_spec i 0); [lia|]. apply IH. assumption.
Qed.

(** [k in f] holds exactly when the generator runs through and each of its
    indices is a set bit of the filter. *)
Lemma contains_true_iff (b : BloomFilter) (k : Z) :
  contains b k = Ok true <->
  exists idxs, generate_hashes b k = map Ok idxs /\
    Forall (fun i => 0 <= i /\ Z.testbit (filter b) i = true) idxs.
Proof.
  unfold contains. split.
  - destruct (checker_loop 0 (generate_hashes b k)) as [c|e] eqn:Hc; cbn; [|discriminate].
    intros [= Heq]. apply Z.eqb_eq in Heq.
    destruct (checker_loop_spec _ _ _ Hc) as (idxs & Hhs & Hnn & Hcov).
    exists idxs. split; [assumption|].
    destruct (proj1 (Hcov _) Heq) as [_ Hbits].
    apply List.Forall_forall. intros i Hi. split.
    + exact (proj1 (List.Forall_forall _ _) Hnn i Hi).
    + exact (proj1 (List.Forall_forall _ _) Hbits i Hi).
  - intros (idxs & Hhs & Hall). rewrite Hhs.
    assert (Forall (fun i => 0 <= i) idxs) as Hnn
      by (eapply List.Forall_impl; [|exact Hall]; cbn; tauto).
    destruct (checker_loop_complete idxs 0 Hnn) as (c & Hc). rewrite Hc. cbn.
    destruct (checker_loop_spec _ _ _ Hc) as (idxs' & Heq & _ & Hcov).
    assert (idxs' = idxs) as ->.
    { clear -Heq. revert idxs' Heq. induction idxs as [|i l IH]; intros [|j l'] H;
        try discriminate; [reflexivity|].
      cbn in H. injection H as -> H. f_equal. apply IH. assumption. }
    f_equal. apply Z.eqb_eq. apply Hcov. split; [apply covered_0|].
    eapply List.Forall_impl; [|exact Hall]. cbn. tauto.
Qed.

(** Filters built with the same parameters hash every key alike. *)
Lemma generate_hashes_same (a b : BloomFilter) (k : Z) :
  wf a -> wf b -> byte_size a = byte_size b -> hash_rounds a = hash_rounds b ->
  generate_hashes a k = generate_hashes b k.
Proof.
  intros (Ha1 & Ha2 & _) (Hb1 & Hb2 & _) Hbs Hhr. unfold generate_hashes, hash_index.
  rewrite Ha2, Hb2, Ha1, Hb1, Hbs, Hhr. reflexivity.
Qed.

Lemma same_param_true (a b : BloomFilter) :
  same_param a b = true <-> byte_size a = byte_size b /\ hash_rounds a = hash_rounds b.
Proof.
  unfold same_param. cbn. rewrite andb_true_iff, !Z.eqb_eq. tauto.
Qed.

End Membership.

(** *** Counting *)

Section Counting.

Import Bloom.

Lemma popcount_double (a : Z) : 0 <= a -> popcount (2 * a) = popcount a.
Proof. destruct a; intros; try reflexivity; lia. Qed.

Lemma popcount_succ_double (a : Z) : 0 <= a -> popcount (2 * a + 1) = 1 + popcount a.
Proof. destruct a; intros; try reflexivity; lia. Qed.

Lemma popcount_nonneg (a : Z) : 0 <= popcount a.
Proof.
  destruct a as [|p|p]; cbn; try lia.
  induction p; cbn; lia.
Qed.

Lemma popcount_pos (a : Z) : 0 < a -> 0 < popcount a.
Proof.
  destruct a as [|p|p]; try lia. intros _. cbn.
  induction p; cbn; lia.
Qed.

Lemma land_even_odd (a b : Z) : Z.land (2 * a) (2 * b + 1) = 2 * Z.land a b.
Proof.
  apply Z.bits_inj'. intros i Hi. rewrite Z.land_spec.
  destruct (Z.eq_dec i 0) as [->|Hnz].
  - rewrite !Z.testbit_even_0. reflexivity.
  - replace i with (Z.succ (i - 1)) by lia.
    rewrite !Z.testbit_even_succ, Z.testbit_odd_succ, Z.land_spec by lia. reflexivity.
Qed.

Lemma land_odd_even (a : Z) : Z.land (2 * a + 1) (2 * a) = 2 * a.
Proof.
  apply Z.bits_inj'. intros i Hi. rewrite Z.land_spec.
  destruct (Z.eq_dec i 0) as [->|Hnz].
  - rewrite Z.testbit_even_0. apply andb_false_r.
  - replace i with (Z.succ (i - 1)) by lia.
    rewrite !Z.testbit_even_succ, Z.testbit_odd_succ by lia. apply andb_diag.
Qed.

(** Clearing the lowest set bit removes exactly one bit. *)
Lemma clear_lowest (p : positive) :
  0 <= Z.land (Zpos p) (Zpos p - 1) /\
  popcount (Z.land (Zpos p) (Zpos p - 1)) = popcount (Zpos p) - 1.
Proof.
  induction p as [p IH|p IH|].
  - replace (Zpos p~1 - 1) with (2 * Zpos p) by lia.
    change (Zpos p~1) with (2 * Zpos p + 1).
    rewrite land_odd_even, popcount_double, popcount_succ_double by lia. lia.
  - replace (Zpos p~0 - 1) with (2 * (Zpos p - 1) + 1) by lia.
    change (Zpos p~0) with (2 * Zpos p).
    rewrite land_even_odd. destruct IH as [Hnn Hpc].
    rewrite !popcount_double, Hpc by lia. lia.
  - vm_compute. split; [discriminate|reflexivity].
Qed.

(** The loop of [count] returns the number of set bits of a non-negative
    filter as soon as it has that many turns. *)
Lemma count_loop_popcount (fuel : nat) : forall c z,
  0 <= z -> popcount z <= Z.of_nat fuel ->
  count_loop fuel c z = Some (c + popcount z).
Proof.
  induction fuel as [|fuel IH]; intros c z Hz Hfuel.
  - destruct z as [|p|p]; try lia.
    + cbn. f_equal. lia.
    + pose proof (popcount_pos (Zpos p)). lia.
  - destruct z as [|p|p]; try lia.
    + cbn. f_equal. lia.
    + cbn [count_loop]. change (Zpos p =? 0) with false. cbv iota.
      destruct (clear_lowest p) as [Hnn Hpc].
      rewrite IH; [f_equal; lia|assumption|lia].
Qed.

Lemma count_popcount (b : BloomFilter) :
  0 <= filter b ->
  forall fuel, (Z.to_nat (popcount (filter b)) <= fuel)%nat ->
  count fuel b = Some (popcount (filter b)).
Proof.
  intros Hf fuel Hfuel. unfold count.
  rewrite count_loop_popcount; [reflexivity|assumption|].
  pose proof (popcount_nonneg (filter b)). lia.
Qed.

End Counting.

(** ** The backend *)

Section BackendFacts.

Import Bloom Backend.

Lemma land_abs_bound (a b n : Z) :
  0 <= a -> 0 <= b -> b < 2 ^ n -> Z.abs (Z.land a b) < 2 ^ n.
Proof.
  intros Ha Hb Hn.
  assert (0 <= Z.land a b) as Hl by (apply Z.land_nonneg; lia).
  rewrite Z.abs_eq by assumption.
  assert (Z.land a b <= b); [|lia].
  assert (b = Z.land a b + Z.ldiff b a) as Heq.
  { rewrite Z.add_nocarry_lxor.
    - apply Z.bits_inj'. intros i Hi.
      rewrite Z.lxor_spec, Z.land_spec, Z.ldiff_spec.
      destruct (Z.testbit a i), (Z.testbit b i); reflexivity.
    - apply Z.bits_inj'. intros i Hi.
      rewrite !Z.land_spec, Z.ldiff_spec, Z.bits_0.
      destruct (Z.testbit a i), (Z.testbit b i); reflexivity. }
  assert (0 <= Z.ldiff b a) by (apply Z.ldiff_nonneg; lia). lia.
Qed.

Lemma len_firstn_le {A : Type} (n : Z) (l : list A) :
  0 <= n <= len l -> len (firstn (Z.to_nat n) l) = n.
Proof. unfold len. intros H. rewrite length_firstn. lia. Qed.

Lemma len_concat_cons {A : Type} (x : list A) (l : list (list A)) :
  len (concat (x :: l)) = len x + len (concat l).
Proof. cbn [concat]. apply len_app. Qed.

(** [Backend.recv] returns exactly [length] bytes once that many have been
    sent, however the transport cuts them up. *)
Lemma recv_loop_spec (sock : conn) : forall fuel data so_far length,
  length - so_far <= len (concat sock) ->
  (List.length sock < fuel)%nat ->
  exists sock',
    recv_loop fuel sock data so_far length =
      Some (concat data ++ firstn (Z.to_nat (length - so_far)) (concat sock), sock').
Proof.
  induction sock as [|chunk rest IH]; intros fuel data so_far length Hlen Hfuel.
  - destruct fuel as [|fuel]; [cbn in Hfuel; lia|].
    unfold len in Hlen. cbn in Hlen. cbn [recv_loop].
    destruct (Z.ltb_spec so_far length); [lia|].
    exists []. cbn [concat]. rewrite firstn_nil, app_nil_r. reflexivity.
  - destruct fuel as [|fuel]; [cbn in Hfuel; lia|]. cbn in Hfuel.
    cbn [recv_loop]. destruct (Z.ltb_spec so_far length) as [Hlt|Hge].
    2:{ eexists. replace (Z.to_nat (length - so_far)) with 0%nat by lia.
        cbn [firstn]. rewrite app_nil_r. reflexivity. }
    rewrite len_concat_cons in Hlen. cbn [sock_recv].
    destruct (Z.leb_spec (len chunk) (length - so_far)) as [Hfit|Hcut].
    + destruct (IH fuel (data ++ [chunk]) (so_far + len chunk) length) as (sock' & ->);
        [lia|lia|].
      exists sock'. do 2 f_equal. rewrite concat_app. cbn [concat].
      rewrite app_nil_r, <- app_assoc. f_equal.
      rewrite firstn_app. unfold len in *.
      rewrite (@firstn_all2 _ _ chunk) by lia. f_equal. f_equal. lia.
    + assert (len (firstn (Z.to_nat (length - so_far)) chunk) = length - so_far) as Hl
        by (apply len_firstn_le; lia).
      exists (skipn (Z.to_nat (length - so_far)) chunk :: rest).
      destruct fuel as [|fuel]; cbn [recv_loop]; rewrite Hl;
        (destruct (Z.ltb_spec (so_far + (length - so_far)) length); [lia|]);
        do 2 f_equal; rewrite concat_app; cbn [concat];
        rewrite app_nil_r; f_equal;
        rewrite firstn_app; unfold len in *;
        replace (Z.to_nat (length - so_far) - List.length chunk)%nat with 0%nat by lia;
        cbn [firstn]; rewrite app_nil_r; reflexivity.
Qed.

Lemma recv_spec (sock : conn) (data extra : bytes) fuel :
  concat sock = data ++ extra ->
  (List.length sock < fuel)%nat ->
  exists sock', recv fuel sock (len data) = Some (data, sock').
Proof.
  intros Hsock Hfuel. unfold recv.
  destruct (recv_loop_spec sock fuel [[]] 0 (len data)) as (sock' & ->).
  - rewrite Hsock, len_app. pose proof (len_nonneg extra). lia.
  - assumption.
  - exists sock'. do 2 f_equal. cbn [concat app]. rewrite Hsock, Z.sub_0_r.
    unfold len. rewrite Nat2Z.id, firstn_app, Nat.sub_diag, firstn_all. cbn [firstn].
    apply app_nil_r.
Qed.

(** What holds of the server object between connections: the standing
    filter has the canonical parameters and is a non-negative integer. *)
Definition standing (self : Backend) : Prop :=
  byte_size (bf self) = FILTER_SIZE /\ hash_rounds (bf self) = HASH_ROUNDS /\
  wf (bf self) /\ 0 <= filter (bf self).

Lemma client_filter_ok (data : bytes) :
  len data = FILTER_SIZE ->
  exists cb, Bloom.init FILTER_SIZE HASH_ROUNDS (from_bytes_le data) = Ok cb /\
    byte_size cb = FILTER_SIZE /\ hash_rounds cb = HASH_ROUNDS /\
    filter cb = from_bytes_le data /\ wf cb.
Proof.
  intros Hlen. pose proof (from_bytes_le_range data) as Hr. rewrite Hlen in Hr.
  eexists. split.
  - apply init_ok; [unfold FILTER_SIZE; lia|].
    rewrite Z.abs_eq by lia. rewrite Z.mul_comm. apply Hr.
  - cbn. unfold wf. cbn. repeat split; try reflexivity.
    + rewrite Z.abs_eq by lia. rewrite Z.mul_comm. apply Hr.
    + unfold FILTER_SIZE. lia.
Qed.

Lemma serve_inv fuel self c r :
  standing self -> serve fuel self c = Some r -> raised r = None ->
  standing (state r).
Proof.
  intros Hst Hserve Hr. unfold serve in Hserve.
  destruct (sock_recv 3 c) as [tag c1].
  destruct (decode tag) as [ty|e]; [|injection Hserve as <-; discriminate].
  destruct (recv fuel c1 FILTER_SIZE) as [[data c2]|]; [|discriminate].
  destruct (Bloom.init FILTER_SIZE HASH_ROUNDS (from_bytes_le data)) as [cb|e] eqn:Hcb;
    [|injection Hserve as <-; discriminate].
  destruct (bool_decide (ty = lit "CBF")).
  - destruct (bor (bf self) cb) as [u|e] eqn:Hu; [|injection Hserve as <-; discriminate].
    injection Hserve as <-. cbn.
    apply bor_inv in Hu. destruct Hu as (Hb & Hh & Hf & Hw).
    apply init_inv in Hcb. destruct Hcb as (_ & _ & Hcf & _).
    destruct Hst as (S1 & S2 & S3 & S4). unfold standing. cbn.
    rewrite Hb, Hh, Hf. refine (conj S1 (conj S2 (conj Hw _))).
    apply Z.lor_nonneg. split; [assumption|].
    rewrite Hcf. apply from_bytes_le_range.
  - destruct (band (bf self) cb) as [i|e]; [|injection Hserve as <-; discriminate].
    destruct (count fuel i); [|discriminate].
    injection Hserve as <-. exact Hst.
Qed.

Lemma running_standing self : running self -> standing self.
Proof.
  induction 1 as [p|fuel self c r _ IH Hserve Hr].
  - unfold standing, Backend.init, Bloom.empty, wf. cbn.
    repeat split; try reflexivity; try (unfold FILTER_SIZE; lia).
  - eapply serve_inv; eauto.
Qed.

(** A connection whose tag is anything but "CBF" is answered as a query. *)
Lemma serve_query self c tag rest ty q extra :
  standing self ->
  sock_recv 3 c = (tag, rest) ->
  decode tag = Ok ty -> ty <> lit "CBF" ->
  len q = FILTER_SIZE -> concat rest = q ++ extra ->
  forall fuel,
    (S (List.length rest) +
       Z.to_nat (popcount (Z.land (filter (bf self)) (from_bytes_le q))) <= fuel)%nat ->
    serve fuel self c =
      Some {| state := self;
              sent := [if HASH_ROUNDS <=? popcount (Z.land (filter (bf self)) (from_bytes_le q))
                       then MSG_POSITIVE else MSG_NO_CONTACT];
              closed := true; raised := None |}.
Proof.
  intros (S1 & S2 & S3 & S4) Hrecv Hdec Hty Hlen Hsock fuel Hfuel.
  unfold serve. rewrite Hrecv, Hdec.
  destruct (recv_spec rest q extra fuel Hsock) as (sock' & Hr); [lia|].
  rewrite Hlen in Hr. rewrite Hr.
  destruct (client_filter_ok q Hlen) as (cb & Hcb & C1 & C2 & C3 & C4). rewrite Hcb.
  rewrite bool_decide_eq_false_2 by assumption.
  assert (Z.abs (Z.land (filter (bf self)) (filter cb)) < 2 ^ (byte_size (bf self) * 8)) as Hb.
  { pose proof (from_bytes_le_range q) as Hq. rewrite Hlen in Hq.
    apply land_abs_bound; [assumption|rewrite C3; lia|].
    rewrite C3, S1, Z.mul_comm. apply Hq. }
  unfold band. rewrite (proj2 (same_param_true (bf self) cb)) by (split; congruence).
  cbn [negb]. rewrite init_ok; [|rewrite S1; unfold FILTER_SIZE; lia|assumption].
  unfold count. cbn [filter]. rewrite C3.
  rewrite count_loop_popcount.
  - reflexivity.
  - apply Z.land_nonneg. left. assumption.
  - pose proof (popcount_nonneg (Z.land (filter (bf self)) (from_bytes_le q))). lia.
Qed.

End BackendFacts.

(** ** Claims about the bloom filter and the backend *)

Section BackendClaims.

Import Bloom Backend.

(** Concrete traffic: an upload whose filter has its three lowest bits set,
    and an all-zero filter. *)
Definition low3_bytes : bytes := "007"%byte :: repeat x00 (Z.to_nat FILTER_SIZE - 1).
Definition zero_bytes : bytes := repeat x00 (Z.to_nat FILTER_SIZE).

Definition conn_cbf : conn := [list_byte_of_string "CBF"; low3_bytes].
Definition conn_xyz : conn := [list_byte_of_string "XYZ"; zero_bytes].

(** The server after it has taken the upload [conn_cbf]. *)
Definition after_upload : Backend :=
  {| bf := set_filter Bloom.empty 7; port := 5000 |}.

Lemma after_upload_running : running after_upload.
Proof.
  apply (running_serve 2 (Backend.init 5000) conn_cbf
           {| state := after_upload; sent := [MSG_CBF_RECEIVED];
              closed := true; raised := None |}).
  - apply running_init.
  - vm_compute. reflexivity.
  - reflexivity.
Defined.





(** C6 (as the code has it).  The accept loop only tells "CBF" from
    everything else: a connection whose tag decodes to a string that is
    neither "CBF" nor "QBF", followed by a 100000-byte filter, is handled
    as a query.  One of the two query replies is sent, the standing filter
    is unchanged and the connection is closed. *)
Theorem C6_other_tag_answered_as_query
    (self : Backend) (c rest : conn) (tag : bytes) (ty : str) (q extra : bytes) :
  running self ->
  sock_recv 3 c = (tag, rest) ->
  decode tag = Ok ty -> ty <> lit "CBF" -> ty <> lit "QBF" ->
  len q = FILTER_SIZE ->
  concat rest = q ++ extra ->
  exists fuel0, forall fuel, (fuel0 <= fuel)%nat ->
    serve fuel self c =
      Some {| state := self;
              sent := [if HASH_ROUNDS <=? popcount (Z.land (filter (bf self)) (from_bytes_le q))
                       then MSG_POSITIVE else MSG_NO_CONTACT];
              closed := true; raised := None |}.
Proof.
  intros Hrun Hrecv Hdec Hcbf _ Hlen Hsock.
  exists (S (List.length rest) +
          Z.to_nat (popcount (Z.land (filter (bf self)) (from_bytes_le q))))%nat.
  intros fuel Hfuel.
  apply (serve_query self c tag rest ty q extra); try assumption.
  apply running_standing. assumption.
Qed.

Lemma xyz_not_cbf : lit "XYZ" <> lit "CBF".
Proof. vm_compute. discriminate. Defined.

Lemma xyz_not_qbf : lit "XYZ" <> lit "QBF".
Proof. vm_compute. discriminate. Defined.

Lemma C6_other_tag_answered_as_query_witness :
  exists fuel0, forall fuel, (fuel0 <= fuel)%nat ->
    serve fuel after_upload conn_xyz =
      Some {| state := after_upload; sent := [MSG_NO_CONTACT];
              closed := true; raised := None |}.
Proof.
  exact (C6_other_tag_answered_as_query after_upload conn_xyz [zero_bytes]
           (list_byte_of_string "XYZ") (lit "XYZ") zero_bytes []
           after_upload_running eq_refl eq_refl xyz_not_cbf xyz_not_qbf eq_refl eq_refl).
Defined.

(** C6 as stated fails: the tag "XYZ" is neither "CBF" nor "QBF", yet the
    backend sends a reply before it closes the connection. *)
Lemma C6_counterexample :
  decode (list_byte_of_string "XYZ") = Ok (lit "XYZ") /\
  lit "XYZ" <> lit "CBF" /\ lit "XYZ" <> lit "QBF" /\
  serve 2 (Backend.init 5000) conn_xyz =
    Some {| state := Backend.init 5000; sent := [MSG_NO_CONTACT];
            closed := true; raised := None |} /\
  [MSG_NO_CONTACT] <> [].
Proof.
  split; [reflexivity|]. split; [exact xyz_not_cbf|]. split; [exact xyz_not_qbf|].
  split; [vm_compute; reflexivity|discriminate].
Qed.

End BackendClaims.

Section BloomClaims.

Import Bloom.

(** Key 11832608 hashes to the bits 1908, 2951 and 2913.  [one_bit] holds
    the first of them, [two_bits] the other two. *)
Definition key3 : Z := 11832608.
Definition one_bit : BloomFilter :=
  set_filter Bloom.empty (Z.shiftl 1 1908).
Definition two_bits : BloomFilter :=
  set_filter Bloom.empty (Z.lor (Z.shiftl 1 2951) (Z.shiftl 1 2913)).
Definition three_bits : BloomFilter :=
  set_filter Bloom.empty
    (Z.lor (Z.shiftl 1 1908) (Z.lor (Z.shiftl 1 2951) (Z.shiftl 1 2913))).

Lemma one_bit_reachable : reachable one_bit.
Proof.
  apply (reach_init FILTER_SIZE HASH_ROUNDS (Z.shiftl 1 1908)).
  vm_compute. reflexivity.
Defined.

Lemma two_bits_reachable : reachable two_bits.
Proof.
  apply (reach_init FILTER_SIZE HASH_ROUNDS
           (Z.lor (Z.shiftl 1 2951) (Z.shiftl 1 2913))).
  vm_compute. reflexivity.
Defined.

(** C4 (as the code has it).  For filters with identical parameters the
    union contains [k] whenever one of the two filters does.  The converse
    is not a law of the data structure: the union contains [k] exactly
    when each of the bit positions [k] hashes to is set in one filter or in
    the other. *)
Theorem C4_union_contains (f g u : BloomFilter) (k : Z) :
  reachable f -> reachable g -> same_param f g = true -> bor f g = Ok u ->
  (contains f k = Ok true \/ contains g k = Ok true -> contains u k = Ok true) /\
  (contains u k = Ok true <->
   exists idxs, generate_hashes u k = map Ok idxs /\
     Forall (fun i => 0 <= i /\
                      (Z.testbit (filter f) i = true \/ Z.testbit (filter g) i = true)) idxs).
Proof.
  intros Hf Hg Hsp Hu.
  apply reachable_wf in Hf, Hg. apply same_param_true in Hsp as [Hbs Hhr].
  apply bor_inv in Hu. destruct Hu as (Ub & Uh & Uf & Uw).
  assert (generate_hashes f k = generate_hashes u k) as Hfu
    by (apply generate_hashes_same; congruence).
  assert (generate_hashes g k = generate_hashes u k) as Hgu
    by (apply generate_hashes_same; congruence).
  assert (contains u k = Ok true <->
   exists idxs, generate_hashes u k = map Ok idxs /\
     Forall (fun i => 0 <= i /\
                      (Z.testbit (filter f) i = true \/ Z.testbit (filter g) i = true)) idxs)
    as Hchar.
  { rewrite contains_true_iff. split; intros (idxs & Hhs & Hall); exists idxs;
      (split; [assumption|]); eapply List.Forall_impl; try exact Hall; cbn;
      intros i [Hi Hb]; (split; [assumption|]);
      rewrite Uf, Z.lor_spec, orb_true_iff in *; assumption. }
  split; [|exact Hchar].
  intros [Hc|Hc]; apply Hchar; apply contains_true_iff in Hc as (idxs & Hhs & Hall);
    exists idxs; (split; [congruence|]); eapply List.Forall_impl; try exact Hall; cbn; tauto.
Qed.

Lemma C4_union_contains_witness :
  (contains one_bit key3 = Ok true \/ contains two_bits key3 = Ok true ->
   contains three_bits key3 = Ok true) /\
  (contains three_bits key3 = Ok true <->
   exists idxs, generate_hashes three_bits key3 = map Ok idxs /\
     Forall (fun i => 0 <= i /\
                      (Z.testbit (filter one_bit) i = true \/
                       Z.testbit (filter two_bits) i = true)) idxs).
Proof.
  apply (C4_union_contains one_bit two_bits three_bits key3
           one_bit_reachable two_bits_reachable).
  - vm_compute. reflexivity.
  - vm_compute. reflexivity.
Defined.

(** C4 as stated fails in the "only if" direction: the union of [one_bit]
    and [two_bits] contains the key, but neither filter does. *)
Lemma C4_counterexample :
  same_param one_bit two_bits = true /\
  bor one_bit two_bits = Ok three_bits /\
  contains three_bits key3 = Ok true /\
  contains one_bit key3 = Ok false /\
  contains two_bits key3 = Ok false.
Proof. vm_compute. repeat split; reflexivity. Qed.

Lemma len_le_digits (n : nat) : forall z, len (le_digits n z) = Z.of_nat n.
Proof.
  induction n as [|n IH]; intros z; [reflexivity|].
  cbn [le_digits]. unfold len in *. cbn [length]. rewrite !Nat2Z.inj_succ, IH. reflexivity.
Qed.

(** The constructor accepts any initial value whose absolute value fits,
    also a negative one. *)
Definition minus_one : BloomFilter := set_filter Bloom.empty (-1).

(** C10 (as the code has it).  The constructor rejects initial values of
    [2^(8*byte_size)] and more; [add] only sets bits whose index has been
    reduced modulo [bit_size]; every filter reachable through the
    constructor, [add], union and intersection keeps its integer strictly
    below [2^(8*byte_size)].  When the initial values are non-negative the
    integer is non-negative as well, and then a filter of [FILTER_SIZE]
    bytes always serialises into exactly [FILTER_SIZE] bytes. *)
Theorem C10_filter_bounded :
  (forall bs hr f, 0 <= bs -> 2 ^ (8 * bs) <= f -> init bs hr f = Raise ValueError) /\
  (forall b key idx, reachable b -> In (Ok idx) (generate_hashes b key) ->
     0 <= idx < bit_size b) /\
  (forall b, reachable b -> filter b < 2 ^ (8 * byte_size b)) /\
  (forall b, reachable_nonneg b ->
     0 <= filter b < 2 ^ (8 * byte_size b) /\
     (byte_size b = FILTER_SIZE ->
      exists out, serialize b = Ok out /\ len out = FILTER_SIZE)).
Proof.
  assert (forall b, reachable b -> filter b < 2 ^ (8 * byte_size b)) as Hup.
  { intros b Hb. apply reachable_wf in Hb as (_ & _ & Habs & _).
    rewrite Z.mul_comm. lia. }
  split; [|split; [|split]].
  - intros bs hr f Hbs Hf. apply init_rejects; [assumption|].
    rewrite Z.mul_comm. lia.
  - intros b key idx Hb Hin. apply reachable_wf in Hb as (H1 & _ & _ & H4).
    eapply generate_hashes_range; [lia|eassumption].
  - exact Hup.
  - intros b Hb. pose proof (reachable_nonneg_filter b Hb) as Hnn.
    pose proof (Hup b (reachable_nonneg_reachable b Hb)) as Hlt.
    split; [lia|]. intros Hbs. unfold serialize, to_bytes_le.
    destruct (Z.ltb_spec (filter b) 0); [lia|].
    rewrite Hbs in Hlt.
    destruct (Z.leb_spec (2 ^ (8 * FILTER_SIZE)) (filter b)); [lia|].
    eexists. split; [reflexivity|]. rewrite len_le_digits. unfold FILTER_SIZE. lia.
Qed.

Lemma C10_filter_bounded_witness :
  0 <= filter (fst (add Bloom.empty 0))
    < 2 ^ (8 * byte_size (fst (add Bloom.empty 0))) /\
  (byte_size (fst (add Bloom.empty 0)) = FILTER_SIZE ->
   exists out, serialize (fst (add Bloom.empty 0)) = Ok out /\ len out = FILTER_SIZE).
Proof.
  apply (proj2 (proj2 (proj2 C10_filter_bounded))).
  apply (reachn_add Bloom.empty 0 _ (snd (add Bloom.empty 0))).
  - apply (reachn_init FILTER_SIZE HASH_ROUNDS 0); [lia|reflexivity].
  - apply surjective_pairing.
Defined.

(** C10 as stated fails in its conclusion: [BloomFilter(filter=-1)] passes
    the constructor's check, its integer is below [2^800000], and
    serialising it raises [OverflowError]. *)
Lemma C10_counterexample :
  init FILTER_SIZE HASH_ROUNDS (-1) = Ok minus_one /\
  reachable minus_one /\
  filter minus_one < 2 ^ (8 * byte_size minus_one) /\
  serialize minus_one = Raise OverflowError.
Proof.
  assert (init FILTER_SIZE HASH_ROUNDS (-1) = Ok minus_one) as Hi by reflexivity.
  split; [exact Hi|]. split; [exact (reach_init _ _ _ _ Hi)|].
  split; [|reflexivity].
  cbn. assert (0 < 2 ^ (8 * FILTER_SIZE)) by (apply Z.pow_pos_nonneg; unfold FILTER_SIZE; lia).
  lia.
Qed.

End BloomClaims.

(** ** The clock *)

Section ClockFacts.

Import Timekeeper.
Local Open Scope Q_scope.




End ClockFacts.

(** ** The node *)

Section NodeFacts.

Import Bloom SSS Timekeeper Client.

Variable rand : Type.
Variable Shamir_split : Z -> Z -> bytes -> bool -> rand -> list Share.
Variable Shamir_combine : list Share -> bool -> res bytes.
Variable point_mul : Ed25519.EccPoint -> Z -> Ed25519.EccPoint.

Local Abbreviation listen := (Client.listen Shamir_combine point_mul).
Local Abbreviation conclude := (Client.conclude point_mul).
Local Abbreviation eph_gen := (Client.eph_gen rand Shamir_split).
Local Abbreviation step := (Client.step rand Shamir_split Shamir_combine point_mul).
Local Abbreviation reachable := (Client.reachable rand Shamir_split Shamir_combine point_mul).

(** Where an entry of the table after [store] comes from. *)
Lemma store_lookup now hash sh self h t l :
  shares (store now hash sh self) !! h = Some (t, l) ->
  (exists l', shares self !! h = Some (t, l')) \/ (h = hash /\ t = now).
Proof.
  unfold store, entry. destruct (shares self !! hash) as [[t0 l0]|] eqn:Hold; cbn;
    intros Hl; destruct (decide (hash = h)) as [<-|Hne].
  - rewrite lookup_insert_eq in Hl. injection Hl as <- <-. left. eauto.
  - rewrite lookup_insert_ne in Hl by assumption. left. eauto.
  - rewrite lookup_insert_eq in Hl. injection Hl as <- <-. right. auto.
  - rewrite lookup_insert_ne in Hl by assumption. left. eauto.
Qed.

Lemma conclude_lookup now self hash evs v h t l :
  shares (node (conclude now self hash evs v)) !! h = Some (t, l) ->
  (exists l', shares self !! h = Some (t, l')) \/ (h = hash /\ t = now).
Proof.
  unfold conclude. destruct v as [[[|b public]|]|e]; cbn; eauto.
  destruct (calc_shared point_mul (b :: public) (last_secret self)) as [EncID|e]; cbn; eauto.
  destruct (dbf_add (dbf self) EncID) as [dbf' [u|e]]; cbn; eauto.
  unfold entry. cbn. destruct (shares self !! hash) as [[t0 l0]|] eqn:Hold; cbn;
    destruct (decide (hash = h)) as [<-|Hne].
  - rewrite lookup_insert_eq. intros [= <- <-]. eauto.
  - rewrite lookup_insert_ne by assumption. eauto.
  - rewrite lookup_insert_eq. intros [= <- <-]. auto.
  - rewrite lookup_insert_ne by assumption. eauto.
Qed.

(** [listen] never changes the time stamp of an entry; a new entry is
    stamped with the current time. *)
Lemma listen_lookup now raw self h t l :
  shares (node (listen now raw self)) !! h = Some (t, l) ->
  (exists l', shares self !! h = Some (t, l')) \/ t = now.
Proof.
  unfold Client.listen. destruct (received raw self) as [[[[idx share] hash]|]|e]; cbn; eauto.
  destruct (SHARE_K <=? len (snd (entry now (store now hash (idx, share) self) hash))).
  - intros H. apply conclude_lookup in H as [(l' & H)|[_ ->]]; [|auto].
    apply store_lookup in H as [H|[_ ->]]; auto.
  - cbn. intros H. apply store_lookup in H as [H|[_ ->]]; auto.
Qed.

(** The other tasks leave the table alone. *)
Lemma eph_gen_shares now key rnd self :
  shares (node (eph_gen now key rnd self)) = shares self.
Proof.
  unfold Client.eph_gen.
  destruct (generate rand Shamir_split SHARE_K SHARE_N key rnd) as [[|[[sh d] h] shs]|e];
    reflexivity.
Qed.

Lemma eph_share_shares now r self :
  shares (node (eph_share now r self)) = shares self.
Proof.
  unfold eph_share. destruct (ephs self) as [|[[[idx payload] secret] hash] rest]; [reflexivity|].
  destruct (Qlt_le_dec r SHARE_DROP); [reflexivity|].
  destruct (pack idx payload hash); reflexivity.
Qed.

Lemma command_shares now self :
  shares (node (command now self)) = shares self.
Proof.
  unfold command. destruct (commands self) as [|c0 cs]; [reflexivity|].
  destruct (nth (pc self) (c0 :: cs) c0); try reflexivity.
  - cbn. destruct (Qeq_bool (wait_time self + seconds) 0); reflexivity.
  - unfold cmd_positive.
    match goal with |- context [dbf_combine ?d] => destruct (dbf_combine d) as [cbf|e] end;
      [|reflexivity].
    destruct (contact_backend "CBF" cbf); reflexivity.
Qed.

Lemma qbf_create_shares now self :
  shares (node (qbf_create now self)) = shares self.
Proof.
  unfold qbf_create. destruct (dbf_combine (dbf self)) as [cbf|e]; [|reflexivity].
  destruct (contact_backend _ cbf); reflexivity.
Qed.

(** *** The broadcaster *)


(** *** The share table *)

Lemma share_clean_lookup now self hash v :
  shares (node (share_clean now self)) !! hash = Some v <->
  shares self !! hash = Some v /\ stale now v = false.
Proof.
  unfold share_clean. cbn. rewrite map_lookup_filter_Some. reflexivity.
Qed.

Lemma stale_false now t l :
  stale now (t, l) = false <-> (fsub now t <= SHARE_CLEAN_TIME)%Q.
Proof.
  unfold stale. cbn [fst]. rewrite negb_false_iff. apply Qle_bool_iff.
Qed.

(** What the node maintains at every turn of the scheduler: every entry
    was stamped in the past, and an entry stamped before the latest run
    of the cleaner passed the cleaner's test at that run. *)
Definition table_inv (s : timed) : Prop :=
  (cleaned s <= clock s)%Q /\
  forall hash t l, shares (obj s) !! hash = Some (t, l) ->
    (t <= clock s)%Q /\
    ((cleaned s <= t)%Q \/ (fsub (cleaned s) t <= SHARE_CLEAN_TIME)%Q).

Lemma table_inv_same_shares s c :
  table_inv s -> shares c = shares (obj s) ->
  table_inv {| clock := clock s; cleaned := cleaned s; obj := c |}.
Proof.
  intros (H1 & H2) Heq. unfold table_inv. cbn. rewrite Heq. auto.
Qed.

Lemma table_inv_start t0 self : shares self = ∅ -> table_inv (started t0 self).
Proof.
  intros Hempty. unfold table_inv, started. cbn.
  split; [lra|].
  intros hash t l. rewrite Hempty, lookup_empty. discriminate.
Qed.

Lemma table_inv_step s s' : table_inv s -> step s s' -> table_inv s'.
Proof.
  intros Hinv Hstep. pose proof Hinv as (H1 & H2).
  destruct Hstep as [s t Hlo|s e He _|s raw e He _|s key rnd e He _
                    |s r e He _|s e He _|s e He _|s e He _|s e He _]; try subst e.
  - unfold table_inv. cbn. split; [lra|].
    intros hash t' l Hl. destruct (H2 _ _ _ Hl). split; [lra|assumption].
  - unfold table_inv. cbn -[share_clean]. split; [lra|].
    intros hash t l Hl. apply share_clean_lookup in Hl as [Hl Hage].
    destruct (H2 _ _ _ Hl). split; [assumption|].
    right. apply stale_false in Hage. exact Hage.
  - unfold table_inv. cbn -[Client.listen]. split; [assumption|].
    intros hash t l Hl. apply listen_lookup in Hl as [(l' & Hl) | ->].
    + exact (H2 _ _ _ Hl).
    + split; [lra|]. left. assumption.
  - apply table_inv_same_shares; [assumption|apply eph_gen_shares].
  - apply table_inv_same_shares; [assumption|apply eph_share_shares].
  - apply table_inv_same_shares; [assumption|apply command_shares].
  - apply table_inv_same_shares; [assumption|apply qbf_create_shares].
  - apply table_inv_same_shares; [assumption|reflexivity].
  - apply table_inv_same_shares; [assumption|reflexivity].
Qed.

Lemma reachable_table_inv s : reachable s -> table_inv s.
Proof.
  induction 1 as [t0 self _ Hempty|s s' _ IH Hstep].
  - apply table_inv_start. assumption.
  - eapply table_inv_step; eassumption.
Qed.

(** C8 (as the code has it).  A run of [share_clean] re-enters itself with
    the delay [till_next(EPHID_TIME)] and keeps, as they are, exactly the
    entries whose age [rel() - first_seen_time], as the subtraction of
    floats gives it, is at most [SHARE_CLEAN_TIME = 30].  So at every
    reachable state each entry was first seen at or after the latest run
    of [share_clean], or its age at that run was at most 30 seconds.
    Between two runs an entry can persist for longer than that. *)
Theorem C8_share_table_ages :
  (forall now self,
     scheduled (share_clean now self) = [enter now (till_next now EPHID_TIME) 1 TShareClean] /\
     forall hash t l,
       shares (node (share_clean now self)) !! hash = Some (t, l) <->
       shares self !! hash = Some (t, l) /\ (fsub now t <= SHARE_CLEAN_TIME)%Q) /\
  (forall s, reachable s ->
     (cleaned s <= clock s)%Q /\
     forall hash t l, shares (obj s) !! hash = Some (t, l) ->
       (t <= clock s)%Q /\
       ((cleaned s <= t)%Q \/ (fsub (cleaned s) t <= SHARE_CLEAN_TIME)%Q)).
Proof.
  split.
  - intros now self. split; [reflexivity|].
    intros hash t l. rewrite share_clean_lookup, stale_false. reflexivity.
  - intros s Hs. exact (reachable_table_inv s Hs).
Qed.

(** *** Reconstruction *)

(** C5 (as the code has it).  When a received share brings
    [ShareTable[hash]] to at least [K = 3] entries, the reconstruction
    attempt hands [sss.verify] all the shares collected for that hash so
    far, in the order of their arrival: the list that was stored with the
    new share appended.  They are combined block-wise to the candidate
    public key, which is hashed with BLAKE2b-32 and compared with the
    broadcast hash. *)
Theorem C5_reconstruction_input (now : Q) (raw : option bytes) (self : Client)
    (l : list Share) (hash : bytes) :
  attempt now raw self = Some (l, hash) ->
  exists idx share,
    received raw self = Ok (Some (idx, share, hash)) /\
    l = snd (entry now self hash) ++ [(idx, share)] /\
    SHARE_K <= len l /\
    listen now raw self =
      conclude now (store now hash (idx, share) self) hash
        [enter now (1 # 10) 1 TListen] (verify Shamir_combine l hash) /\
    verify Shamir_combine l hash =
      bind (combine Shamir_combine l false) (fun public =>
      bind (blake2b32 public) (fun h =>
      if bool_decide (hash = h) then Ok (Some public) else Ok None)).
Proof.
  unfold attempt, Client.listen.
  destruct (received raw self) as [[[[idx share] hash']|]|e]; try discriminate.
  destruct (Z.leb_spec SHARE_K (len (snd (entry now (store now hash' (idx, share) self) hash'))))
    as [Hk|Hk]; [|discriminate].
  intros [= <- <-]. exists idx, share.
  assert (snd (entry now (store now hash' (idx, share) self) hash')
          = snd (entry now self hash') ++ [(idx, share)]) as Hl.
  { unfold store. destruct (entry now self hash') as [t0 l0] eqn:He.
    unfold entry. cbn. rewrite lookup_insert_eq. reflexivity. }
  split; [reflexivity|]. split; [exact Hl|]. split; [assumption|].
  split; reflexivity.
Qed.

End NodeFacts.

(** *** Concrete runs *)

Section NodeRuns.

Import Bloom SSS Timekeeper Client.

(** A node that has just started in location 50000; it has not generated
    an EphID yet, so its share queue is empty. *)
Definition fresh_node : Client :=
  {| ephs := []; last_secret := 0; location := 50000;
     shares := ∅; own_shares := ∅; wait_time := 0;
     dbf := fst (dbf_init 0); commands := [MOVE 50000; WAIT 120]; pc := 0 |}.

(** Frames of a peer whose EphID hashes to [peer_hash]. *)
Definition peer_hash : bytes := repeat "h"%byte 32.
Definition payload (i : Z) : bytes := repeat (byte_of_Z i) 32.
Definition frame (i : Z) : bytes := byte_of_Z i :: payload i ++ peer_hash.

(** The node holding the first share of that peer since time 1. *)
Definition one_collected : Client :=
  set_shares fresh_node {[ peer_hash := (1%Q, [(1, payload 1)]) ]}.

(** The node holding three shares of that peer that did not verify. *)
Definition three_collected : Client :=
  set_shares fresh_node
    {[ peer_hash := (1%Q, [(1, payload 1); (2, payload 2); (3, payload 3)]) ]}.

(** Forty seconds after the start: the cleaner has run at 15 and at 30,
    the times it was entered for. *)
Definition at_forty : timed := {| clock := 40; cleaned := 30; obj := one_collected |}.

(** Stand-ins for the library functions, for runs that never call them. *)
Definition no_split (k n : Z) (block : bytes) (ssss : bool) (r : unit) : list Share := [].
Definition no_combine (shares : list Share) (ssss : bool) : res bytes := Raise ValueError.
Definition no_mul (P : Ed25519.EccPoint) (k : Z) : Ed25519.EccPoint := P.

Lemma reach_to (rand : Type) split combine mul (s s1 s' : timed) :
  Client.reachable rand split combine mul s ->
  Client.step rand split combine mul s s1 -> s1 = s' ->
  Client.reachable rand split combine mul s'.
Proof. intros Hs Hstep <-. exact (reach_step _ _ _ _ _ _ Hs Hstep). Qed.

(** The run that leads to [at_forty], whatever the library functions do:
    the share arrives at time 1, the cleaner runs at 15 and at 30, the
    next multiples of [EPHID_TIME], and keeps the entry both times. *)
Lemma at_forty_reachable (rand : Type) split combine mul :
  Client.reachable rand split combine mul at_forty.
Proof.
  assert (Client.reachable rand split combine mul
            {| clock := 0; cleaned := 0; obj := fresh_node |}) as H0.
  { exact (reach_start rand split combine mul 0 fresh_node (Qle_refl 0) eq_refl). }
  assert (Client.reachable rand split combine mul
            {| clock := 1; cleaned := 0; obj := fresh_node |}) as H1.
  { eapply reach_to; [exact H0|apply (step_idle _ _ _ _ _ 1%Q)|reflexivity];
      cbn; unfold Qle; cbn; lia. }
  assert (Client.reachable rand split combine mul
            {| clock := 1; cleaned := 0; obj := one_collected |}) as H2.
  { eapply reach_to; [exact H1| |].
    - eapply (step_listen _ _ _ _ _ (Some (frame 1))); reflexivity.
    - vm_compute. reflexivity. }
  assert (Client.reachable rand split combine mul
            {| clock := 15; cleaned := 0; obj := one_collected |}) as H3.
  { eapply reach_to; [exact H2|apply (step_idle _ _ _ _ _ 15%Q)|reflexivity];
      cbn; unfold Qle; cbn; lia. }
  assert (Client.reachable rand split combine mul
            {| clock := 15; cleaned := 15; obj := one_collected |}) as H4.
  { eapply reach_to; [exact H3| |].
    - eapply step_clean; reflexivity.
    - vm_compute. reflexivity. }
  assert (Client.reachable rand split combine mul
            {| clock := 30; cleaned := 15; obj := one_collected |}) as H5.
  { eapply reach_to; [exact H4|apply (step_idle _ _ _ _ _ 30%Q)|reflexivity];
      cbn; unfold Qle; cbn; lia. }
  assert (Client.reachable rand split combine mul
            {| clock := 30; cleaned := 30; obj := one_collected |}) as H6.
  { eapply reach_to; [exact H5| |].
    - eapply step_clean; reflexivity.
    - vm_compute. reflexivity. }
  eapply reach_to; [exact H6|apply (step_idle _ _ _ _ _ 40%Q)|reflexivity];
    cbn; unfold Qle; cbn; lia.
Qed.

Lemma at_forty_reachable_plain :
  Client.reachable unit no_split no_combine no_mul at_forty.
Proof. exact (at_forty_reachable unit no_split no_combine no_mul). Defined.

Lemma C8_share_table_ages_witness :
  (1 <= clock at_forty)%Q /\
  ((cleaned at_forty <= 1)%Q \/ (fsub (cleaned at_forty) 1 <= SHARE_CLEAN_TIME)%Q).
Proof.
  apply (proj2 (proj2 (C8_share_table_ages unit no_split no_combine no_mul)
                  at_forty at_forty_reachable_plain)
           peer_hash 1%Q [(1, payload 1)]).
  vm_compute. reflexivity.
Defined.

(** C8 as stated fails: [at_forty] is reachable, whatever the library
    functions do, and its table holds an entry that is 39 seconds old. *)
Lemma C8_counterexample :
  (forall (rand : Type) split combine mul,
     Client.reachable rand split combine mul at_forty) /\
  shares (obj at_forty) !! peer_hash = Some (1%Q, [(1, payload 1)]) /\
  ~ (clock at_forty - 1 <= SHARE_CLEAN_TIME)%Q /\
  ~ all_younger SHARE_CLEAN_TIME at_forty.
Proof.
  assert (shares (obj at_forty) !! peer_hash = Some (1%Q, [(1, payload 1)])) as Hl
    by (vm_compute; reflexivity).
  assert (~ (clock at_forty - 1 <= SHARE_CLEAN_TIME)%Q) as Hold
    by (vm_compute; intros H; apply H; reflexivity).
  split; [exact at_forty_reachable|]. split; [exact Hl|]. split; [exact Hold|].
  intros Hall. exact (Hold (Hall _ _ _ Hl)).
Qed.

(** Nothing bounds the age: when another task keeps the scheduler from
    running the cleaner between 30 and 60, the entry is 59 seconds old. *)
Lemma cleaner_runs_late (rand : Type) split combine mul :
  Client.reachable rand split combine mul
    {| clock := 60; cleaned := 30; obj := one_collected |} /\
  ~ all_younger (SHARE_CLEAN_TIME + EPHID_TIME)
      {| clock := 60; cleaned := 30; obj := one_collected |}.
Proof.
  split.
  - eapply reach_to; [exact (at_forty_reachable rand split combine mul)
                     |apply (step_idle _ _ _ _ _ 60%Q)|reflexivity].
    cbn; unfold Qle; cbn; lia.
  - intros Hall.
    assert (shares one_collected !! peer_hash = Some (1%Q, [(1, payload 1)])) as Hl
      by (vm_compute; reflexivity).
    specialize (Hall _ _ _ Hl). revert Hall. vm_compute. intros H; apply H; reflexivity.
Qed.

(** The cleaner's age is the rounded difference of two floats: with the
    floats nearest to 30.3 and 0.3 it is 30, and the entry stays, although
    the two numbers are more than 30 apart. *)
Lemma stale_rounds :
  stale (round64 (303 # 10)) (round64 (3 # 10), []) = false /\
  (30 < round64 (303 # 10) - round64 (3 # 10))%Q.
Proof. split; vm_compute; reflexivity. Qed.

Lemma C5_reconstruction_input_witness :
  exists idx share,
    received (Some (frame 4)) three_collected = Ok (Some (idx, share, peer_hash)) /\
    [(1, payload 1); (2, payload 2); (3, payload 3); (4, payload 4)]
      = snd (entry 10 three_collected peer_hash) ++ [(idx, share)] /\
    SHARE_K <= len [(1, payload 1); (2, payload 2); (3, payload 3); (4, payload 4)] /\
    Client.listen no_combine no_mul 10 (Some (frame 4)) three_collected =
      Client.conclude no_mul 10 (store 10 peer_hash (idx, share) three_collected) peer_hash
        [enter 10 (1 # 10) 1 TListen]
        (verify no_combine
           [(1, payload 1); (2, payload 2); (3, payload 3); (4, payload 4)] peer_hash) /\
    verify no_combine
      [(1, payload 1); (2, payload 2); (3, payload 3); (4, payload 4)] peer_hash =
      bind (combine no_combine
              [(1, payload 1); (2, payload 2); (3, payload 3); (4, payload 4)] false)
        (fun public =>
         bind (blake2b32 public) (fun h =>
         if bool_decide (peer_hash = h) then Ok (Some public) else Ok None)).
Proof.
  apply (C5_reconstruction_input no_combine no_mul 10 (Some (frame 4)) three_collected).
  vm_compute. reflexivity.
Defined.

(** C5 as stated fails: with three shares collected, a fourth one makes
    the node attempt a reconstruction from all four, not from [K = 3]. *)
Lemma C5_counterexample :
  attempt 10 (Some (frame 4)) three_collected =
    Some ([(1, payload 1); (2, payload 2); (3, payload 3); (4, payload 4)], peer_hash) /\
  len [(1, payload 1); (2, payload 2); (3, payload 3); (4, payload 4)] <> SHARE_K.
Proof. split; [vm_compute; reflexivity|vm_compute; discriminate]. Qed.

(** How the node gets to hold three shares: they arrive one after the
    other and the reconstruction from them does not match the hash. *)
Lemma three_collected_after_mismatch combine mul :
  verify combine [(1, payload 1); (2, payload 2); (3, payload 3)] peer_hash = Ok None ->
  node (Client.listen combine mul 3 (Some (frame 3))
         (node (Client.listen combine mul 2 (Some (frame 2))
                 (node (Client.listen combine mul 1 (Some (frame 1)) fresh_node)))))
    = three_collected.
Proof.
  intros Hv.
  replace (node (Client.listen combine mul 1 (Some (frame 1)) fresh_node))
    with one_collected by (vm_compute; reflexivity).
  replace (node (Client.listen combine mul 2 (Some (frame 2)) one_collected))
    with (set_shares fresh_node
            {[ peer_hash := (1%Q, [(1, payload 1); (2, payload 2)]) ]})
    by (vm_compute; reflexivity).
  unfold Client.listen.
  replace (received (Some (frame 3))
             (set_shares fresh_node {[ peer_hash := (1%Q, [(1, payload 1); (2, payload 2)]) ]}))
    with (Ok (Some (3, payload 3, peer_hash))) by (vm_compute; reflexivity).
  replace (store 3 peer_hash (3, payload 3)
             (set_shares fresh_node {[ peer_hash := (1%Q, [(1, payload 1); (2, payload 2)]) ]}))
    with three_collected by (vm_compute; reflexivity).
  replace (snd (entry 3 three_collected peer_hash))
    with [(1, payload 1); (2, payload 2); (3, payload 3)] by (vm_compute; reflexivity).
  replace (SHARE_K <=? len [(1, payload 1); (2, payload 2); (3, payload 3)])
    with true by (vm_compute; reflexivity).
  rewrite Hv. reflexivity.
Qed.



End NodeRuns.

(** ** Block-wise Shamir sharing *)

Section SSSFacts.

Import SSS.

Variable rand : Type.
Variable Shamir_split : Z -> Z -> bytes -> bool -> rand -> list Share.
Variable Shamir_combine : list Share -> bool -> res bytes.

Local Abbreviation split := (SSS.split rand Shamir_split).
Local Abbreviation combine := (SSS.combine Shamir_combine).
Local Abbreviation extend := SSS.extend.

(** What the wrapper relies on of the 16-byte primitive: [split] numbers
    its [n] shares 1..n in order and gives each a 16-byte payload, and any
    [k] distinct shares of a block recombine to the block. *)
Hypothesis Shamir_split_shape : forall k n block r,
  2 <= k <= n -> n <= 16 -> len block = 16 ->
  map fst (Shamir_split k n block false r) = map (fun j => j + 1) (range n) /\
  Forall (fun sh => len (snd sh) = 16) (Shamir_split k n block false r).

Hypothesis Shamir_threshold : forall k n block r (S : list Share),
  2 <= k <= n -> n <= 16 -> len block = 16 ->
  NoDup S -> len S = k -> incl S (Shamir_split k n block false r) ->
  Shamir_combine S false = Ok block.

(** The inner loop of [split] appends to [shares[j]] the payload of the
    [j]-th block share, for every [j] it runs over. *)
Lemma extend_lookup (bs : list Share) (c : nat) : forall (a : nat) (shares : list bytes),
  (forall j, (a <= j < a + c)%nat -> is_Some (shares !! j) /\ is_Some (bs !! j)) ->
  exists shares',
    extend shares bs (map Z.of_nat (seq a c)) = Ok shares' /\
    length shares' = length shares /\
    forall i, shares' !! i =
      if decide (a <= i < a + c)%nat
      then match shares !! i, bs !! i with
           | Some s, Some b => Some (s ++ snd b)
           | _, _ => None
           end
      else shares !! i.
Proof.
  induction c as [|c IH]; intros a shares Hdef.
  - exists shares. split; [reflexivity|]. split; [reflexivity|].
    intros i. destruct (decide _) as [H|H]; [lia|reflexivity].
  - cbn [seq map SSS.extend]. rewrite Nat2Z.id.
    destruct (Hdef a ltac:(lia)) as [[s Hs] [[ix p] Hb]]. rewrite Hb, Hs.
    destruct (IH (S a) (<[a := s ++ p]> shares)) as (shares' & Hext & Hlen & Hlook).
    { intros j Hj. rewrite list_lookup_insert_ne by lia. apply Hdef. lia. }
    exists shares'. split; [exact Hext|]. split; [rewrite Hlen; apply length_insert|].
    intros i. rewrite Hlook.
    destruct (decide (S a <= i < S a + c)%nat) as [Hin|Hout].
    + rewrite list_lookup_insert_ne by lia.
      destruct (decide (a <= i < a + S c)%nat); [reflexivity|lia].
    + destruct (decide (i = a)) as [->|Hne].
      * rewrite list_lookup_insert_eq by (apply lookup_lt_Some in Hs; lia).
        destruct (decide (a <= a < a + S c)%nat); [|lia]. rewrite Hs, Hb. reflexivity.
      * rewrite list_lookup_insert_ne by lia.
        destruct (decide (a <= i < a + S c)%nat); [lia|reflexivity].
Qed.

Lemma range_seq (n : Z) : range n = map Z.of_nat (seq 0 (Z.to_nat n)).
Proof. reflexivity. Qed.

Lemma In_range (n j : Z) : In j (range n) <-> 0 <= j < n.
Proof.
  unfold range. rewrite in_map_iff. split.
  - intros (i & <- & Hi). apply in_seq in Hi. lia.
  - intros Hj. exists (Z.to_nat j). split; [lia|]. apply in_seq. lia.
Qed.

Lemma length_range (n : Z) : length (range n) = Z.to_nat n.
Proof. unfold range. rewrite length_map, length_seq. reflexivity. Qed.

(** The payload of the [j]-th share of a list of block shares. *)
Definition pay (bs : list Share) (j : Z) : bytes := snd (nth (Z.to_nat j) bs (0, [])).

Lemma shape_lookup (k n : Z) (block : bytes) (r : rand) (j : Z) :
  2 <= k <= n -> n <= 16 -> len block = 16 -> 0 <= j < n ->
  Shamir_split k n block false r !! Z.to_nat j
    = Some (j + 1, pay (Shamir_split k n block false r) j) /\
  len (pay (Shamir_split k n block false r) j) = 16.
Proof.
  intros Hk Hn Hb Hj. destruct (Shamir_split_shape k n block r Hk Hn Hb) as [Hfst Hsz].
  set (bs := Shamir_split k n block false r) in *.
  assert (length bs = Z.to_nat n) as Hlen.
  { rewrite <- (length_map fst), Hfst, length_map, length_range. reflexivity. }
  destruct (lookup_lt_is_Some_2 bs (Z.to_nat j)) as [[ix p] Hl]; [lia|].
  assert (ix = j + 1) as ->.
  { assert (map fst bs !! Z.to_nat j = Some ix) as H1
      by (change (map fst bs) with (fst <$> bs); rewrite list_lookup_fmap, Hl; reflexivity).
    rewrite Hfst in H1. unfold range in H1.
    change (map (fun j0 => j0 + 1) (map Z.of_nat (seq 0 (Z.to_nat n))))
      with ((fun j0 => j0 + 1) <$> (Z.of_nat <$> seq 0 (Z.to_nat n))) in H1.
    rewrite !list_lookup_fmap, lookup_seq_lt in H1 by lia. cbn in H1.
    injection H1 as <-. lia. }
  assert (pay bs j = p) as Hp.
  { unfold pay. rewrite (nth_lookup_Some _ _ _ _ Hl). reflexivity. }
  rewrite Hp. split; [exact Hl|].
  rewrite List.Forall_forall in Hsz. apply (Hsz (j + 1, p)).
  apply list_elem_of_In. eapply list_elem_of_lookup_2. exact Hl.
Qed.

Lemma extend_all (bs : list Share) (n : Z) (shares : list bytes) :
  length shares = Z.to_nat n -> length bs = Z.to_nat n ->
  exists shares',
    extend shares bs (range n) = Ok shares' /\
    length shares' = Z.to_nat n /\
    forall j s, 0 <= j < n -> shares !! Z.to_nat j = Some s ->
      shares' !! Z.to_nat j = Some (s ++ pay bs j).
Proof.
  intros Hls Hlb.
  destruct (extend_lookup bs (Z.to_nat n) 0 shares) as (shares' & Hext & Hlen & Hlook).
  { intros j Hj. split; apply lookup_lt_is_Some_2; lia. }
  exists shares'. split; [exact Hext|]. split; [lia|].
  intros j s Hj Hs. rewrite Hlook.
  destruct (decide (0 <= Z.to_nat j < 0 + Z.to_nat n)%nat); [|lia].
  rewrite Hs. destruct (lookup_lt_is_Some_2 bs (Z.to_nat j)) as [b Hb]; [lia|].
  rewrite Hb. unfold pay. rewrite (nth_lookup_Some _ _ _ _ Hb). reflexivity.
Qed.

(** The two 16-byte blocks of a 32-byte secret. *)
Definition block0 (s : bytes) : bytes := slice s (0 * SHAMIR_BLOCK_SIZE) ((0 + 1) * SHAMIR_BLOCK_SIZE).
Definition block1 (s : bytes) : bytes := slice s (1 * SHAMIR_BLOCK_SIZE) ((1 + 1) * SHAMIR_BLOCK_SIZE).

Lemma blocks_of_secret (s : bytes) :
  len s = 32 -> len (block0 s) = 16 /\ len (block1 s) = 16 /\ block0 s ++ block1 s = s.
Proof.
  intros Hs. unfold block0, block1, slice, SHAMIR_BLOCK_SIZE, len in *.
  change ((0 + 1) * 16 - 0 * 16) with 16; change ((1 + 1) * 16 - 1 * 16) with 16;
    change (0 * 16) with 0; change (1 * 16) with 16;
    change (Z.to_nat 16) with 16%nat; change (Z.to_nat 0) with 0%nat; cbn [skipn].
  change (skipn 0 s) with s.
  rewrite !length_firstn, !length_skipn. split; [lia|]. split; [lia|].
  rewrite (firstn_all2 (skipn 16 s)) by (rewrite length_skipn; lia).
  apply firstn_skipn.
Qed.

(** [split] of a 32-byte secret: share [j+1] carries the payloads of the
    [j]-th shares of the two blocks, one after the other. *)
Lemma split_two_blocks (k n : Z) (s : bytes) (rnd : Z -> rand) :
  2 <= k <= n -> n <= 16 -> len s = 32 ->
  split k n s false rnd =
    Ok (map (fun j => (j + 1,
                       pay (Shamir_split k n (block0 s) false (rnd 0)) j ++
                       pay (Shamir_split k n (block1 s) false (rnd 1)) j))
            (range n)).
Proof.
  intros Hk Hn Hs. destruct (blocks_of_secret s Hs) as (Hb0 & Hb1 & _).
  set (bs0 := Shamir_split k n (block0 s) false (rnd 0)).
  set (bs1 := Shamir_split k n (block1 s) false (rnd 1)).
  assert (forall bs : list Share,
            map fst bs = map (fun j => j + 1) (range n) -> length bs = Z.to_nat n) as Hl.
  { intros bs H. rewrite <- (length_map fst), H, length_map, length_range. reflexivity. }
  pose proof (Hl _ (proj1 (Shamir_split_shape k n (block0 s) (rnd 0) Hk Hn Hb0))) as Hl0.
  pose proof (Hl _ (proj1 (Shamir_split_shape k n (block1 s) (rnd 1) Hk Hn Hb1))) as Hl1.
  unfold SSS.split. rewrite Hs. change (32 mod SHAMIR_BLOCK_SIZE =? 0) with true.
  change (range (32 / SHAMIR_BLOCK_SIZE)) with [0; 1]. cbn [negb SSS.split_loop].
  fold (block0 s) (block1 s). fold bs0 bs1.
  destruct (extend_all bs0 n (map (fun _ => []) (range n))) as (sh1 & -> & Hlen1 & Hlook1);
    [rewrite length_map; apply length_range|exact Hl0|].
  cbn [bind].
  destruct (extend_all bs1 n sh1) as (sh2 & -> & Hlen2 & Hlook2); [exact Hlen1|exact Hl1|].
  cbn [bind]. f_equal. apply map_ext_in. intros j Hj. apply In_range in Hj. f_equal.
  assert (map (fun _ : Z => @nil byte) (range n) !! Z.to_nat j = Some []) as H0.
  { change (map (fun _ : Z => @nil byte) (range n))
      with ((fun _ : Z => @nil byte) <$> range n).
    rewrite list_lookup_fmap.
    destruct (lookup_lt_is_Some_2 (range n) (Z.to_nat j)) as [x ->];
      [rewrite length_range; lia|reflexivity]. }
  pose proof (Hlook1 j [] Hj H0) as H1.
  pose proof (Hlook2 j _ Hj H1) as H2.
  rewrite (nth_lookup_Some _ _ _ _ H2). reflexivity.
Qed.

Lemma slice_app_l (a b : bytes) : len a = 16 -> len b = 16 ->
  slice (a ++ b) (0 * SHAMIR_BLOCK_SIZE) ((0 + 1) * SHAMIR_BLOCK_SIZE) = a.
Proof.
  intros Ha Hb. unfold slice, SHAMIR_BLOCK_SIZE, len in *.
  change ((0 + 1) * 16 - 0 * 16) with 16; change ((1 + 1) * 16 - 1 * 16) with 16;
    change (0 * 16) with 0; change (1 * 16) with 16;
    change (Z.to_nat 16) with 16%nat; change (Z.to_nat 0) with 0%nat; cbn [skipn].
  change (skipn 0 (a ++ b)) with (a ++ b).
  rewrite firstn_app, (firstn_all2 a) by lia.
  replace (16 - length a)%nat with 0%nat by lia. apply app_nil_r.
Qed.

Lemma slice_app_r (a b : bytes) : len a = 16 -> len b = 16 ->
  slice (a ++ b) (1 * SHAMIR_BLOCK_SIZE) ((1 + 1) * SHAMIR_BLOCK_SIZE) = b.
Proof.
  intros Ha Hb. unfold slice, SHAMIR_BLOCK_SIZE, len in *.
  change ((0 + 1) * 16 - 0 * 16) with 16; change ((1 + 1) * 16 - 1 * 16) with 16;
    change (0 * 16) with 0; change (1 * 16) with 16;
    change (Z.to_nat 16) with 16%nat; change (Z.to_nat 0) with 0%nat; cbn [skipn].
  rewrite skipn_app, (skipn_all2 a) by lia.
  replace (16 - length a)%nat with 0%nat by lia. cbn [skipn app].
  apply firstn_all2. lia.
Qed.

(** The shares [combine] hands to the primitive for one block are shares
    of that block, as many and as distinct as the ones it was given. *)
Lemma block_shares_subset (k n : Z) (s : bytes) (rnd : Z -> rand) (S : list Share)
    (proj : Share -> Share) (bs : list Share) (other : Z -> bytes) (mk : bytes -> bytes -> bytes) :
  (forall j, 0 <= j < n -> bs !! Z.to_nat j = Some (j + 1, pay bs j)) ->
  (forall j, 0 <= j < n -> proj (j + 1, mk (pay bs j) (other j)) = (j + 1, pay bs j)) ->
  NoDup S ->
  incl S (map (fun j => (j + 1, mk (pay bs j) (other j))) (range n)) ->
  NoDup (map proj S) /\ incl (map proj S) bs.
Proof.
  intros Hbs Hproj Hnd Hincl.
  assert (forall sh, In sh S -> exists j, 0 <= j < n /\
            sh = (j + 1, mk (pay bs j) (other j)) /\ proj sh = (j + 1, pay bs j)) as Hel.
  { intros sh Hin. apply Hincl, in_map_iff in Hin as (j & <- & Hj).
    apply In_range in Hj. exists j. auto. }
  split.
  - apply (NoDup_fmap_2_strong proj); [|exact Hnd].
    intros x y Hx Hy Heq. apply list_elem_of_In in Hx, Hy.
    destruct (Hel x Hx) as (jx & _ & -> & Hpx). destruct (Hel y Hy) as (jy & _ & -> & Hpy).
    rewrite Hpx, Hpy in Heq. injection Heq as Heq _.
    assert (jx = jy) as -> by lia. reflexivity.
  - intros sh Hin. apply in_map_iff in Hin as (sh0 & <- & Hin0).
    destruct (Hel sh0 Hin0) as (j & Hj & _ & ->).
    apply list_elem_of_In. eapply list_elem_of_lookup_2. apply Hbs. exact Hj.
Qed.

(** C2.  For [2 <= k <= n <= 16] and a 32-byte secret [s], [split] returns
    [n] shares numbered 1..n, each 32 bytes long: share [j] carries the
    payloads of the [j]-th shares that the primitive makes of the two
    16-byte blocks with the same [(k, n)], one after the other.  [combine]
    of any [k] distinct ones of them, in any order, returns [s]: each block
    is recombined by the primitive and the blocks are concatenated. *)
Theorem C2_blockwise_roundtrip (k n : Z) (s : bytes) (rnd : Z -> rand) :
  2 <= k <= n -> n <= 16 -> len s = 32 ->
  exists shares,
    split k n s false rnd = Ok shares /\
    shares = map (fun j => (j + 1,
                            pay (Shamir_split k n (block0 s) false (rnd 0)) j ++
                            pay (Shamir_split k n (block1 s) false (rnd 1)) j))
                 (range n) /\
    map fst shares = map (fun j => j + 1) (range n) /\
    Forall (fun sh => len (snd sh) = 32) shares /\
    forall S : list Share,
      NoDup S -> len S = k -> incl S shares -> combine S false = Ok s.
Proof.
  intros Hk Hn Hs.
  destruct (blocks_of_secret s Hs) as (Hb0 & Hb1 & Hcat).
  assert (forall j, 0 <= j < n ->
            Shamir_split k n (block0 s) false (rnd 0) !! Z.to_nat j
              = Some (j + 1, pay (Shamir_split k n (block0 s) false (rnd 0)) j) /\
            len (pay (Shamir_split k n (block0 s) false (rnd 0)) j) = 16) as H0
    by (intros j Hj; apply shape_lookup; assumption).
  assert (forall j, 0 <= j < n ->
            Shamir_split k n (block1 s) false (rnd 1) !! Z.to_nat j
              = Some (j + 1, pay (Shamir_split k n (block1 s) false (rnd 1)) j) /\
            len (pay (Shamir_split k n (block1 s) false (rnd 1)) j) = 16) as H1
    by (intros j Hj; apply shape_lookup; assumption).
  eexists. split; [apply split_two_blocks; assumption|].
  split; [reflexivity|].
  split; [rewrite map_map; reflexivity|].
  split.
  { apply List.Forall_forall. intros sh Hin.
    apply in_map_iff in Hin as (j & <- & Hj). apply In_range in Hj.
    cbn. rewrite len_app, (proj2 (H0 j Hj)), (proj2 (H1 j Hj)). reflexivity. }
  intros S Hnd HlenS Hincl.
  set (bs0 := Shamir_split k n (block0 s) false (rnd 0)) in *.
  set (bs1 := Shamir_split k n (block1 s) false (rnd 1)) in *.
  (* every share handed in is 32 bytes long *)
  assert (forall sh, In sh S -> len (snd sh) = 32) as Hlen.
  { intros sh Hin. apply Hincl, in_map_iff in Hin as (j & <- & Hj). apply In_range in Hj.
    cbn. rewrite len_app, (proj2 (H0 j Hj)), (proj2 (H1 j Hj)). reflexivity. }
  assert (SSS.check_shares 32 S = Ok tt) as Hcheck.
  { clear -Hlen. induction S as [|sh S IH]; [reflexivity|]. cbn [SSS.check_shares].
    rewrite (Hlen sh (or_introl eq_refl)). cbn. apply IH. intros x Hx. apply Hlen. right. exact Hx. }
  destruct S as [|first rest] eqn:HS; [unfold len in HlenS; cbn in HlenS; lia|].
  rewrite <- HS in *. unfold SSS.combine. rewrite HS at 1.
  rewrite (Hlen first) by (rewrite HS; left; reflexivity).
  rewrite Hcheck. cbn [bind]. change (range (32 / SHAMIR_BLOCK_SIZE)) with [0; 1].
  cbn [SSS.combine_loop].
  (* block 0 *)
  destruct (block_shares_subset k n s rnd S
              (fun '(idx, share) => (idx, slice share (0 * SHAMIR_BLOCK_SIZE) ((0 + 1) * SHAMIR_BLOCK_SIZE)))
              bs0 (pay bs1) (fun a b => a ++ b)) as [Hnd0 Hin0];
    [intros j Hj; apply H0; exact Hj
    |intros j Hj; f_equal; apply slice_app_l; [apply H0|apply H1]; exact Hj
    |exact Hnd|exact Hincl|].
  rewrite (Shamir_threshold k n (block0 s) (rnd 0) _ Hk Hn Hb0 Hnd0); [|
    unfold len in *; rewrite length_map; exact HlenS|exact Hin0].
  cbn [bind].
  (* block 1 *)
  destruct (block_shares_subset k n s rnd S
              (fun '(idx, share) => (idx, slice share (1 * SHAMIR_BLOCK_SIZE) ((1 + 1) * SHAMIR_BLOCK_SIZE)))
              bs1 (pay bs0) (fun a b => b ++ a)) as [Hnd1 Hin1];
    [intros j Hj; apply H1; exact Hj
    |intros j Hj; f_equal; apply slice_app_r; [apply H0|apply H1]; exact Hj
    |exact Hnd|exact Hincl|].
  rewrite (Shamir_threshold k n (block1 s) (rnd 1) _ Hk Hn Hb1 Hnd1); [|
    unfold len in *; rewrite length_map; exact HlenS|exact Hin1].
  cbn [bind app]. rewrite Hcat. reflexivity.
Qed.

End SSSFacts.

(** ** An instance of the primitive's contract *)

Section SSSInstance.

Import SSS.

(** The simplest primitive that meets the contract of [SSSFacts]: every one
    of the [n] shares carries the block itself, and [combine] reads the
    block off the first share it is given.  It hides nothing, and serves
    only to run the wrapper on a concrete secret. *)
Definition copy_split (k n : Z) (block : bytes) (ssss : bool) (r : unit) : list Share :=
  map (fun j => (j + 1, block)) (range n).

Definition copy_combine (shares : list Share) (ssss : bool) : res bytes :=
  match shares with
  | [] => Raise ValueError
  | sh :: _ => Ok (snd sh)
  end.

Lemma copy_split_shape (k n : Z) (block : bytes) (r : unit) :
  2 <= k <= n -> n <= 16 -> len block = 16 ->
  map fst (copy_split k n block false r) = map (fun j => j + 1) (range n) /\
  Forall (fun sh => len (snd sh) = 16) (copy_split k n block false r).
Proof.
  intros _ _ Hb. unfold copy_split. split.
  - rewrite map_map. reflexivity.
  - apply List.Forall_forall. intros sh Hin.
    apply in_map_iff in Hin as (j & <- & _). exact Hb.
Qed.

Lemma copy_threshold (k n : Z) (block : bytes) (r : unit) (S : list Share) :
  2 <= k <= n -> n <= 16 -> len block = 16 ->
  NoDup S -> len S = k -> incl S (copy_split k n block false r) ->
  copy_combine S false = Ok block.
Proof.
  intros Hk _ _ _ HlenS Hincl. destruct S as [|sh S'].
  - unfold len in HlenS. cbn in HlenS. lia.
  - cbn. assert (In sh (copy_split k n block false r)) as Hin by (apply Hincl; left; reflexivity).
    unfold copy_split in Hin. apply in_map_iff in Hin as (j & <- & _). reflexivity.
Qed.

(** The 32-byte secret 00 01 .. 1f. *)
Definition secret32 : bytes := map byte_of_Z (range 32).

Lemma C2_blockwise_roundtrip_witness :
  exists shares,
    SSS.split unit copy_split 3 5 secret32 false (fun _ => tt) = Ok shares /\
    shares = map (fun j => (j + 1,
                            pay (copy_split 3 5 (block0 secret32) false tt) j ++
                            pay (copy_split 3 5 (block1 secret32) false tt) j))
                 (range 5) /\
    map fst shares = map (fun j => j + 1) (range 5) /\
    Forall (fun sh => len (snd sh) = 32) shares /\
    forall S : list Share,
      NoDup S -> len S = 3 -> incl S shares ->
      SSS.combine copy_combine S false = Ok secret32.
Proof.
  apply (C2_blockwise_roundtrip unit copy_split copy_combine
           copy_split_shape copy_threshold 3 5 secret32 (fun _ => tt)).
  - lia.
  - lia.
  - reflexivity.
Defined.

End SSSInstance.

(** ** The field of Ed25519 *)

(** *** Primality certificates

    [2^255 - 19] is shown prime from a chain of Pocklington certificates:
    a number [N] is prime when [N - 1] has distinct prime factors [ps]
    whose product is at least [sqrt N] and some [a] has
    [a^(N-1) = 1 (mod N)] and [gcd (a^((N-1)/p) - 1, N) = 1] for each [p]. *)

Section Primality.

Fixpoint trial (fuel : nat) (d n : Z) : bool :=
  match fuel with
  | O => false
  | S fuel' =>
      if n <? d * d then true
      else if n mod d =? 0 then false
      else trial fuel' (d + 1) n
  end.

(** Primality of a small number by trial division. *)
Definition small_prime (n : Z) : bool := (1 <? n) && trial (Z.to_nat n) 2 n.

Lemma trial_sound (fuel : nat) : forall d n,
  0 < d -> trial fuel d n = true ->
  forall e, d <= e -> e * e <= n -> ~ (e | n).
Proof.
  induction fuel as [|fuel IH]; intros d n Hd Ht e He Hsq; [discriminate|].
  cbn [trial] in Ht. destruct (Z.ltb_spec n (d * d)) as [Hlt|Hge]; [nia|].
  destruct (Z.eqb_spec (n mod d) 0) as [|Hnz]; [discriminate|].
  destruct (Z.eq_dec e d) as [->|Hne].
  - intros Hdiv. apply Hnz. apply Z.mod_divide; [lia|assumption].
  - apply (IH (d + 1) n); [lia|assumption|lia|assumption].
Qed.

Lemma small_prime_sound (n : Z) : small_prime n = true -> Z.prime n.
Proof.
  unfold small_prime. intros H. apply andb_true_iff in H as [H1 Ht].
  apply Z.ltb_lt in H1. split; [assumption|].
  intros m Hm [c Hc].
  assert (1 < c < n) as Hcr by nia.
  destruct (Z.le_gt_cases (m * m) n) as [Hle|Hgt].
  - apply (trial_sound _ 2 n ltac:(lia) Ht m); [lia|assumption|exists c; assumption].
  - apply (trial_sound _ 2 n ltac:(lia) Ht c); [lia|nia|exists m; lia].
Qed.

Fixpoint product (ps : list Z) : Z :=
  match ps with
  | [] => 1
  | p :: rest => p * product rest
  end.

Fixpoint distinct (ps : list Z) : bool :=
  match ps with
  | [] => true
  | p :: rest => forallb (fun p' => negb (p =? p')) rest && distinct rest
  end.

(** The certificate check for [N] with base [a] and factors [ps]. *)
Definition pocklington (N a : Z) (ps : list Z) : bool :=
  (1 <? N) && (Zpow_mod a (N - 1) N =? 1) && distinct ps &&
  (N <=? product ps * product ps) &&
  forallb (fun p => ((N - 1) mod p =? 0) &&
                    (Z.gcd (Zpow_mod a ((N - 1) / p) N - 1) N =? 1)) ps.

Lemma divide_pow_minus_1 (r b k : Z) : 0 <= k -> (r | b - 1) -> (r | b ^ k - 1).
Proof.
  intros Hk Hb. revert k Hk. apply natlike_ind.
  - rewrite Z.pow_0_r. exists 0. ring.
  - intros k Hk IH. rewrite Z.pow_succ_r by assumption.
    replace (b * b ^ k - 1) with ((b - 1) * b ^ k + (b ^ k - 1)) by ring.
    apply Z.divide_add_r; [apply Z.divide_mul_l|]; assumption.
Qed.

Lemma divide_pow_multiple (r a g m : Z) :
  0 <= g -> 0 <= m -> (g | m) -> (r | a ^ g - 1) -> (r | a ^ m - 1).
Proof.
  intros Hg Hm [k Hk] Hr.
  destruct (Z.eq_dec g 0) as [->|Hg0].
  - rewrite Z.mul_0_r in Hk. subst m. assumption.
  - assert (0 <= k) by nia. subst m. rewrite Z.mul_comm, Z.pow_mul_r by lia.
    apply divide_pow_minus_1; assumption.
Qed.

(** The exponents that send [a] to 1 modulo [r] are closed under gcd. *)
Lemma divide_pow_gcd (r a : Z) : forall n, 0 <= n -> forall m,
  0 <= m -> (r | a ^ m - 1) -> (r | a ^ n - 1) -> (r | a ^ Z.gcd m n - 1).
Proof.
  intros n Hn. pattern n. apply (Zlt_0_rec); [|assumption]. clear n Hn.
  intros n IH Hn m Hm Hrm Hrn.
  destruct (Z.eq_dec n 0) as [->|Hnz].
  - rewrite Z.gcd_0_r, Z.abs_eq by assumption. assumption.
  - pose proof (Z.mod_pos_bound m n ltac:(lia)) as Ht.
    pose proof (Z.div_mod m n Hnz) as Hdm.
    assert (0 <= m / n) as Hk by (apply Z.div_pos; lia).
    assert (r | a ^ (m mod n) - 1) as Hrt.
    { assert (r | (a ^ n) ^ (m / n) - 1) as Hp by (apply divide_pow_minus_1; assumption).
      replace (a ^ (m mod n) - 1)
        with ((a ^ m - 1) - ((a ^ n) ^ (m / n) - 1) * a ^ (m mod n)).
      - apply Z.divide_sub_r; [assumption|apply Z.divide_mul_l; assumption].
      - rewrite Hdm at 1. rewrite Z.pow_add_r, Z.pow_mul_r by lia. ring. }
    replace (Z.gcd m n) with (Z.gcd n (m mod n)).
    + apply (IH (m mod n)); [lia|lia|assumption|assumption].
    + rewrite (Z.gcd_comm n (m mod n)), Z.gcd_mod by assumption. apply Z.gcd_comm.
Qed.

Lemma product_pos (ps : list Z) : Forall Z.prime ps -> 0 < product ps.
Proof.
  induction 1 as [|p ps Hp _ IH]; cbn [product]; [lia|].
  apply Z.prime_ge_2 in Hp. nia.
Qed.

Lemma distinct_spec (p : Z) (ps : list Z) :
  distinct (p :: ps) = true -> ~ In p ps /\ distinct ps = true.
Proof.
  cbn [distinct]. intros H. apply andb_true_iff in H as [H1 H2]. split; [|assumption].
  intros Hin. rewrite forallb_forall in H1. specialize (H1 p Hin).
  rewrite Z.eqb_refl in H1. discriminate.
Qed.

(** Distinct primes that each divide [m] divide it together. *)
Lemma product_divide (m : Z) (ps : list Z) :
  Forall Z.prime ps -> distinct ps = true ->
  (forall p, In p ps -> (p | m)) -> (product ps | m).
Proof.
  induction ps as [|p ps IH]; intros Hpr Hd Hdiv; cbn [product]; [apply Z.divide_1_l|].
  apply Forall_cons_iff in Hpr as [Hp Hps]. apply distinct_spec in Hd as [Hnin Hd].
  assert (product ps | m) as [k Hk] by (apply IH; auto; intros; apply Hdiv; right; assumption).
  assert (p | m) as Hpm by (apply Hdiv; left; reflexivity).
  assert (~ (p | product ps)) as Hndiv.
  { clear -Hp Hps Hnin. induction ps as [|p' ps IH]; cbn [product].
    - intros H1. apply Z.divide_1_r in H1. apply Z.prime_ge_2 in Hp. lia.
    - apply Forall_cons_iff in Hps as [Hp' Hps]. intros H.
      apply (Z.divide_prime_mul _ _ _ Hp) in H as [H|H].
      + apply Hnin. left. symmetry. apply (Z.divide_prime_prime p p'); assumption.
      + apply IH; [assumption| |assumption]. intros Hin. apply Hnin. right. assumption. }
  subst m. apply (Z.divide_prime_mul _ _ _ Hp) in Hpm as [[c Hc]|Hpm]; [|contradiction].
  exists c. rewrite Hc. ring.
Qed.

Lemma prime_divisor (m : Z) : 1 < m -> exists r, Z.prime r /\ (r | m).
Proof.
  intros Hm. assert (0 <= m) as H0 by lia. revert Hm. pattern m.
  apply Zlt_0_rec; [|assumption]. clear m H0. intros m IH _ Hm.
  destruct (prime_dec m) as [Hp|Hnp].
  - exists m. split; [apply prime_alt; assumption|apply Z.divide_refl].
  - destruct (not_prime_divide m Hm Hnp) as (n & Hn & Hdiv).
    destruct (IH n ltac:(lia) ltac:(lia)) as (r & Hr & Hrn).
    exists r. split; [assumption|]. eapply Z.divide_trans; eassumption.
Qed.

(** Every prime divisor of a number with a certificate is 1 modulo the
    product of the certificate's factors. *)
Lemma pocklington_divisor (N a : Z) (ps : list Z) (r : Z) :
  Forall Z.prime ps -> pocklington N a ps = true ->
  Z.prime r -> (r | N) -> (product ps | r - 1).
Proof.
  intros Hps Hc Hr HrN. unfold pocklington in Hc.
  repeat (apply andb_true_iff in Hc as [Hc ?]).
  apply Z.ltb_lt in Hc.
  match goal with H : (Zpow_mod _ _ _ =? 1) = true |- _ => apply Z.eqb_eq in H; rename H into Hone end.
  match goal with H : forallb _ _ = true |- _ => rename H into Hall end.
  rewrite Zpow_mod_correct in Hone by lia.
  pose proof (Z.prime_ge_2 r Hr) as Hr2.
  assert (r | a ^ (N - 1) - 1) as HrN1.
  { apply (Z.divide_trans _ N); [assumption|].
    apply Z.mod_divide; [lia|]. rewrite Zminus_mod, Hone, Z.mod_1_l by lia.
    reflexivity. }
  assert (a mod r <> 0) as Har.
  { intros Ha. apply Z.mod_divide in Ha; [|lia].
    assert (r | a ^ (N - 1)) as Hx1.
    { replace (N - 1) with (Z.succ (N - 2)) by lia. rewrite Z.pow_succ_r by lia.
      apply Z.divide_mul_l. assumption. }
    assert (r | 1) as Hx2.
    { replace 1 with (a ^ (N - 1) - (a ^ (N - 1) - 1)) by ring.
      apply Z.divide_sub_r; assumption. }
    apply Z.divide_1_r in Hx2. lia. }
  assert (r | a ^ (r - 1) - 1) as Hfermat.
  { apply Z.mod_divide; [lia|].
    rewrite Zminus_mod, (Z.fermat_nz r a Hr Har), Z.mod_1_l by lia. reflexivity. }
  assert (r | a ^ Z.gcd (N - 1) (r - 1) - 1) as Hg
    by (apply divide_pow_gcd; try lia; assumption).
  apply product_divide; [assumption|assumption|].
  intros p Hp. rewrite forallb_forall in Hall. specialize (Hall p Hp).
  apply andb_true_iff in Hall as [Hdiv Hgcd].
  apply Z.eqb_eq in Hdiv, Hgcd.
  rewrite Zpow_mod_correct in Hgcd by lia.
  assert (Z.prime p) as Hpp by (rewrite List.Forall_forall in Hps; apply Hps; assumption).
  pose proof (Z.prime_ge_2 p Hpp) as Hp2.
  destruct (Z.eq_dec ((r - 1) mod p) 0) as [Hyes|Hno];
    [apply Z.mod_divide; [lia|assumption]|exfalso].
  assert (~ (p | r - 1)) as Hno' by (intros Hd; apply Hno, Z.mod_divide; [lia|assumption]).
  clear Hno. rename Hno' into Hno.
  set (g := Z.gcd (N - 1) (r - 1)) in *. set (M := (N - 1) / p) in *.
  assert (N - 1 = p * M) as HNM by (unfold M; apply Z.div_exact; lia).
  assert (0 <= g) as Hgnn by apply Z.gcd_nonneg.
  assert (g | M) as HgM.
  { apply (Z.gauss g p M).
    - rewrite <- HNM. apply Z.gcd_divide_l.
    - rewrite Z.gcd_comm. apply Z.coprime_prime_l; [assumption|].
      intros Hpg. apply Hno. eapply Z.divide_trans; [exact Hpg|apply Z.gcd_divide_r]. }
  assert (0 <= M) as HM by nia.
  assert (r | a ^ M - 1) as HrM by (apply (divide_pow_multiple r a g M); assumption).
  assert (r | a ^ M mod N - 1) as HrM'.
  { replace (a ^ M mod N - 1) with ((a ^ M - 1) - N * (a ^ M / N)).
    - apply Z.divide_sub_r; [assumption|apply Z.divide_mul_l; assumption].
    - pose proof (Z.div_mod (a ^ M) N ltac:(lia)). lia. }
  assert (r | 1) as Hx1.
  { rewrite <- Hgcd. apply Z.gcd_greatest; assumption. }
  apply Z.divide_1_r in Hx1. lia.
Qed.

(** Soundness of the certificate check. *)
Theorem pocklington_sound (N a : Z) (ps : list Z) :
  Forall Z.prime ps -> pocklington N a ps = true -> Z.prime N.
Proof.
  intros Hps Hc. pose proof Hc as Hc'. unfold pocklington in Hc'.
  repeat (apply andb_true_iff in Hc' as [Hc' ?]).
  apply Z.ltb_lt in Hc'.
  match goal with H : (N <=? _) = true |- _ => apply Z.leb_le in H; rename H into Hbig end.
  pose proof (product_pos ps Hps) as HF.
  assert (forall m, 1 < m -> (m | N) -> product ps < m) as Hdiv.
  { intros m Hm HmN. destruct (prime_divisor m Hm) as (r & Hr & Hrm).
    assert (product ps | r - 1) as HFr.
    { eapply pocklington_divisor; eauto. eapply Z.divide_trans; eassumption. }
    pose proof (Z.prime_ge_2 r Hr).
    apply Z.divide_pos_le in HFr; [|lia].
    apply Z.divide_pos_le in Hrm; lia. }
  split; [assumption|]. intros m Hm [c Hc0].
  assert (1 < c < N) as Hcr by nia.
  pose proof (Hdiv m ltac:(lia) (ex_intro _ c Hc0)) as Hx1.
  assert (c | N) as HcN by (exists m; rewrite Hc0; ring).
  pose proof (Hdiv c ltac:(lia) HcN) as Hx2.
  nia.
Qed.

End Primality.

Section Curve25519Prime.

Ltac by_trial := apply small_prime_sound; vm_compute; reflexivity.

Lemma prime_103 : Z.prime 103. Proof. by_trial. Qed.
Lemma prime_127 : Z.prime 127. Proof. by_trial. Qed.
Lemma prime_991 : Z.prime 991. Proof. by_trial. Qed.
Lemma prime_4153 : Z.prime 4153. Proof. by_trial. Qed.
Lemma prime_430751 : Z.prime 430751. Proof. by_trial. Qed.
Lemma prime_569003 : Z.prime 569003. Proof. by_trial. Qed.

Ltac by_certificate ps facts :=
  apply (pocklington_sound _ 2 ps);
  [repeat (apply List.Forall_cons; [solve [facts]|]); apply List.Forall_nil
  |vm_compute; reflexivity].

Lemma prime_8574133 : Z.prime 8574133.
Proof. by_certificate [991; 103] ltac:(first [exact prime_991|exact prime_103]). Qed.

Lemma prime_2773320623 : Z.prime 2773320623.
Proof. by_certificate [569003] ltac:(exact prime_569003). Qed.

Lemma prime_72106336199 : Z.prime 72106336199.
Proof. by_certificate [2773320623] ltac:(exact prime_2773320623). Qed.

Lemma prime_1919519569386763 : Z.prime 1919519569386763.
Proof. by_certificate [8574133; 127] ltac:(first [exact prime_8574133|exact prime_127]). Qed.

Lemma prime_31757755568855353 : Z.prime 31757755568855353.
Proof. by_certificate [430751; 4153] ltac:(first [exact prime_430751|exact prime_4153]). Qed.

Lemma prime_75445702479781427272750846543864801 :
  Z.prime 75445702479781427272750846543864801.
Proof.
  by_certificate [1919519569386763; 72106336199]
    ltac:(first [exact prime_1919519569386763|exact prime_72106336199]).
Qed.

Lemma prime_74058212732561358302231226437062788676166966415465897661863160754340907 :
  Z.prime 74058212732561358302231226437062788676166966415465897661863160754340907.
Proof.
  by_certificate [75445702479781427272750846543864801; 31757755568855353]
    ltac:(first [exact prime_75445702479781427272750846543864801
                |exact prime_31757755568855353]).
Qed.

(** The modulus of Ed25519 is prime. *)
Theorem q_prime : Z.prime Ed25519.q.
Proof.
  by_certificate [74058212732561358302231226437062788676166966415465897661863160754340907]
    ltac:(exact prime_74058212732561358302231226437062788676166966415465897661863160754340907).
Qed.

End Curve25519Prime.

(** *** Arithmetic modulo [q] *)

Section FieldFacts.

Import Ed25519.

Lemma q_gt_2 : 2 < q.
Proof. reflexivity. Qed.

Lemma q_odd : q mod 2 = 1.
Proof. reflexivity. Qed.

(** Congruence modulo [q], as divisibility of the difference. *)
Definition cong (a b : Z) : Prop := (q | a - b).

Lemma cong_mod (a b : Z) : cong a b <-> a mod q = b mod q.
Proof.
  unfold cong. pose proof q_gt_2 as Hq2. split.
  - intros [k Hk]. replace a with (b + k * q) by lia. apply Z_mod_plus_full.
  - intros H. apply Z.mod_divide; [lia|]. rewrite Zminus_mod, H, Z.sub_diag. reflexivity.
Qed.

Lemma cong_refl (a : Z) : cong a a.
Proof. unfold cong. rewrite Z.sub_diag. apply Z.divide_0_r. Qed.

Lemma cong_sym (a b : Z) : cong a b -> cong b a.
Proof. unfold cong. intros [k Hk]. exists (- k). lia. Qed.

Lemma cong_trans (a b c : Z) : cong a b -> cong b c -> cong a c.
Proof.
  unfold cong. intros H1 H2. replace (a - c) with ((a - b) + (b - c)) by ring.
  apply Z.divide_add_r; assumption.
Qed.

Lemma cong_mul (a b c e : Z) : cong a b -> cong c e -> cong (a * c) (b * e).
Proof.
  unfold cong. intros H1 H2.
  replace (a * c - b * e) with ((a - b) * c + b * (c - e)) by ring.
  apply Z.divide_add_r; [apply Z.divide_mul_l|apply Z.divide_mul_r]; assumption.
Qed.

Lemma cong_add (a b c e : Z) : cong a b -> cong c e -> cong (a + c) (b + e).
Proof.
  unfold cong. intros H1 H2. replace (a + c - (b + e)) with ((a - b) + (c - e)) by ring.
  apply Z.divide_add_r; assumption.
Qed.

Lemma cong_pow (a b n : Z) : 0 <= n -> cong a b -> cong (a ^ n) (b ^ n).
Proof.
  intros Hn Hab. revert n Hn. apply natlike_ind.
  - apply cong_refl.
  - intros n Hn IH. rewrite !Z.pow_succ_r by assumption. apply cong_mul; assumption.
Qed.

Lemma cong_mod_l (a : Z) : cong (a mod q) a.
Proof. apply cong_mod. apply Z.mod_mod. pose proof q_gt_2 as Hq2. lia. Qed.

Lemma cong_pow3 (a e : Z) : cong (pow3 a e q) (a ^ e).
Proof.
  unfold pow3. rewrite Zpow_mod_correct by (pose proof q_gt_2 as Hq2; lia). apply cong_mod_l.
Qed.

Lemma cong_small (t : Z) : cong t 0 -> - q < t < q -> t = 0.
Proof.
  unfold cong. rewrite Z.sub_0_r. intros [k Hk] Hr. pose proof q_gt_2 as Hq2.
  destruct (Z.eq_dec k 0) as [->|Hk0]; [lia|]. nia.
Qed.

Lemma cong_zero_or (a b : Z) : cong (a * b) 0 -> cong a 0 \/ cong b 0.
Proof.
  unfold cong. rewrite !Z.sub_0_r. apply Z.divide_prime_mul. exact q_prime.
Qed.

Lemma not_cong_1_0 : ~ cong 1 0.
Proof.
  intros H. apply cong_small in H; [discriminate|]. pose proof q_gt_2 as Hq2. lia.
Qed.

(** Fermat's little theorem. *)
Lemma fermat (a : Z) : ~ cong a 0 -> cong (a ^ (q - 1)) 1.
Proof.
  intros Ha. apply cong_mod. rewrite Z.fermat_nz; [reflexivity|exact q_prime|].
  intros H. apply Ha. apply cong_mod. rewrite H. reflexivity.
Qed.

(** [inv] inverts what is not zero, and sends zero to zero. *)
Lemma inv_spec (a : Z) : ~ cong a 0 -> cong (a * inv a) 1.
Proof.
  intros Ha. unfold inv.
  apply (cong_trans _ (a * a ^ (q - 2))); [apply cong_mul; [apply cong_refl|apply cong_pow3]|].
  replace (a * a ^ (q - 2)) with (a ^ (q - 1)).
  - apply fermat. assumption.
  - replace (q - 1) with (Z.succ (q - 2)) by lia.
    rewrite Z.pow_succ_r; [reflexivity|vm_compute; discriminate].
Qed.

(** Two numbers with congruent squares are congruent or opposite. *)
Lemma cong_square (a b : Z) : cong (a * a) (b * b) -> cong a b \/ cong a (- b).
Proof.
  intros H. unfold cong in *.
  replace (a * a - b * b) with ((a - b) * (a - - b)) in H by ring.
  apply Z.divide_prime_mul in H; [assumption|exact q_prime].
Qed.

(** The square root of -1. *)
Lemma I_square : cong (I * I) (-1).
Proof. apply cong_mod. vm_compute. reflexivity. Qed.

(** The curve constant is not a square: Euler's criterion gives -1. *)
Lemma d_euler : cong (d ^ ((q - 1) / 2)) (-1).
Proof.
  apply (cong_trans _ (pow3 d ((q - 1) / 2) q)); [apply cong_sym, cong_pow3|].
  apply cong_mod. vm_compute. reflexivity.
Qed.

Lemma nonsquare_denominator (dd y : Z) :
  cong (dd ^ ((q - 1) / 2)) (-1) -> ~ cong (dd * y * y + 1) 0.
Proof.
  intros Heuler H.
  assert (cong (dd * (y * y)) (-1)) as Hdy.
  { unfold cong in *. replace (dd * (y * y) - -1) with (dd * y * y + 1 - 0) by ring. assumption. }
  assert (~ cong y 0) as Hy.
  { intros Hy0. apply not_cong_1_0.
    apply (cong_trans _ (dd * y * y + 1)); [|assumption].
    replace 1 with (0 + 1) at 1 by reflexivity. apply cong_add; [|apply cong_refl].
    apply cong_sym. replace 0 with (dd * y * 0) by ring.
    apply cong_mul; [apply cong_refl|assumption]. }
  set (h := (q - 1) / 2) in *.
  assert (0 <= h) as Hh by (vm_compute; discriminate).
  assert (h = 2 * (h / 2)) as Heven by (vm_compute; reflexivity).
  assert (q - 1 = 2 * h) as Hq1 by (vm_compute; reflexivity).
  assert (0 <= h / 2) as Hh2 by (vm_compute; discriminate).
  clearbody h.
  assert ((-1) ^ h = 1) as Hm1.
  { rewrite Heven, Z.pow_mul_r by lia. change ((-1) ^ 2) with 1. apply Z.pow_1_l. assumption. }
  assert (cong ((dd * (y * y)) ^ h) ((-1) ^ h)) as H1 by (apply cong_pow; assumption).
  rewrite Hm1, Z.pow_mul_l in H1.
  assert (cong ((y * y) ^ h) 1) as Hyy.
  { replace (y * y) with (y ^ 2) by ring. rewrite <- Z.pow_mul_r by lia.
    rewrite <- Hq1. apply fermat. assumption. }
  assert (cong (dd ^ h) 1) as Hd1.
  { apply (cong_trans _ (dd ^ h * (y * y) ^ h)); [|assumption].
    replace (dd ^ h) with (dd ^ h * 1) at 1 by ring.
    apply cong_mul; [apply cong_refl|apply cong_sym; assumption]. }
  assert (cong 1 (-1)) as Hbad by (eapply cong_trans; [apply cong_sym; exact Hd1|exact Heuler]).
  unfold cong in Hbad. change (1 - -1) with 2 in Hbad.
  apply Z.divide_pos_le in Hbad; [|lia]. pose proof q_gt_2 as Hq2. lia.
Qed.

(** The denominator [d y^2 + 1] of the curve equation never vanishes. *)
Lemma curve_denominator (y : Z) : ~ cong (d * y * y + 1) 0.
Proof. apply nonsquare_denominator. exact d_euler. Qed.

End FieldFacts.

(** *** Bytes and integers *)

Section Encoding.

Lemma byte_val_of_Z (z : Z) : byte_val (byte_of_Z z) = z mod 256.
Proof.
  unfold byte_val, byte_of_Z.
  pose proof (Z.mod_pos_bound z 256 ltac:(lia)) as Hr.
  destruct (Byte.of_N (Z.to_N (z mod 256))) as [b|] eqn:Hb.
  - apply Byte.to_of_N in Hb. rewrite Hb. lia.
  - exfalso. pose proof (Byte.to_of_N_option_map (Z.to_N (z mod 256))) as H.
    rewrite Hb in H. cbn in H.
    destruct (N.leb_spec (Z.to_N (z mod 256)) 255); [discriminate|lia].
Qed.

(** Reading back what [to_bytes] wrote. *)
Lemma from_le_digits (n : nat) : forall z,
  from_bytes_le (le_digits n z) = z mod 2 ^ (8 * Z.of_nat n).
Proof.
  induction n as [|n IH]; intros z.
  - cbn. rewrite Z.mod_1_r. reflexivity.
  - cbn [le_digits from_bytes_le]. rewrite byte_val_of_Z, IH.
    replace (8 * Z.of_nat (S n)) with (8 + 8 * Z.of_nat n) by lia.
    rewrite Z.pow_add_r by lia. change (2 ^ 8) with 256.
    rewrite Z.rem_mul_r; [reflexivity|lia|]. apply Z.pow_pos_nonneg; lia.
Qed.

Lemma to_from_bytes (v : Z) (n : Z) :
  0 <= n -> 0 <= v < 2 ^ (8 * n) ->
  exists enc, to_bytes_le v n = Ok enc /\ len enc = n /\ from_bytes_le enc = v.
Proof.
  intros Hn Hv. unfold to_bytes_le.
  destruct (Z.ltb_spec v 0); [lia|]. destruct (Z.leb_spec (2 ^ (8 * n)) v); [lia|].
  eexists. split; [reflexivity|]. split.
  - rewrite len_le_digits. lia.
  - rewrite from_le_digits, Z2Nat.id by assumption. apply Z.mod_small. assumption.
Qed.

Lemma land_1 (x : Z) : Z.land x 1 = x mod 2.
Proof. change 1 with (Z.ones 1). rewrite Z.land_ones by lia. reflexivity. Qed.

Lemma compress_value (x y : Z) : Ed25519.compress x y = 2 * y + x mod 2.
Proof.
  unfold Ed25519.compress. rewrite land_1, Z.shiftl_mul_pow2 by lia.
  change (2 ^ 1) with 2.
  pose proof (Z.mod_pos_bound x 2 ltac:(lia)) as Hb.
  rewrite <- Z.lxor_lor, <- Z.add_nocarry_lxor; [lia| |];
    apply Z.bits_inj'; intros i Hi; rewrite Z.land_spec, Z.bits_0;
    (destruct (Z.eq_dec i 0) as [->|Hnz];
     [rewrite Z.mul_comm, Z.testbit_even_0; reflexivity|]);
    (assert (x mod 2 = 0 \/ x mod 2 = 1) as [->| ->] by lia;
     [rewrite Z.bits_0; apply andb_false_r|]);
    change 1 with (2 ^ 0); rewrite Z.pow2_bits_false by lia; apply andb_false_r.
Qed.

Lemma split_key (y b : Z) :
  0 <= b < 2 -> Z.land (2 * y + b) 1 = b /\ Z.shiftr (2 * y + b) 1 = y.
Proof.
  intros Hb. rewrite land_1, Z.shiftr_div_pow2 by lia. change (2 ^ 1) with 2.
  split.
  - rewrite Z.add_comm, Z.mul_comm, Z_mod_plus_full. apply Z.mod_small. assumption.
  - rewrite Z.add_comm, Z.mul_comm, Z_div_plus_full by lia.
    rewrite Z.div_small by assumption. reflexivity.
Qed.

End Encoding.

(** *** Square roots *)

Section Roots.

Import Ed25519.

Lemma has_sqrt_cong (a : Z) : has_sqrt a <-> exists r, cong (r * r) a.
Proof. unfold has_sqrt. split; intros [r Hr]; exists r; apply cong_mod; assumption. Qed.

Lemma pow3_range (a e : Z) : 0 <= pow3 a e q < q.
Proof.
  unfold pow3. rewrite Zpow_mod_correct by (pose proof q_gt_2 as Hq2; lia).
  apply Z.mod_pos_bound. pose proof q_gt_2 as Hq2. lia.
Qed.

Lemma sqrt_exponent :
  0 < (q + 3) / 8 /\ 2 * ((q + 3) / 8 * 4) = (q - 1) + 4 /\ 0 <= q - 1.
Proof. vm_compute. repeat split; discriminate. Qed.

(** A candidate [c = a^e] with [8 e = q + 3] squares to [a] or to [-a]
    when [a] is a square. *)
Lemma sqrt_candidate_gen (a r c e : Z) :
  0 < e -> 2 * (e * 4) = (q - 1) + 4 -> 0 <= q - 1 ->
  cong c (a ^ e) -> cong (r * r) a ->
  cong (c * c) a \/ cong (c * c) (- a).
Proof.
  intros He Hexp Hq1 Hc Hr.
  destruct (Z.eq_dec (r mod q) 0) as [Hr0|Hrn].
  - (* the square is zero, and so is the candidate *)
    left. assert (cong r 0) as Hr0' by (apply cong_mod; rewrite Hr0; reflexivity).
    assert (cong a 0) as Ha0.
    { apply (cong_trans _ (r * r)); [apply cong_sym; assumption|].
      replace 0 with (0 * 0) by reflexivity. apply cong_mul; assumption. }
    assert (cong c 0) as Hc0.
    { apply (cong_trans _ (a ^ e)); [assumption|].
      replace 0 with (0 ^ e) by (apply Z.pow_0_l; lia). apply cong_pow; [lia|assumption]. }
    apply (cong_trans _ 0); [|apply cong_sym; assumption].
    replace 0 with (0 * 0) by reflexivity. apply cong_mul; assumption.
  - assert (~ cong r 0) as Hrn'
      by (intros H; apply Hrn; apply cong_mod in H; rewrite H; reflexivity).
    assert (cong (r ^ (q - 1)) 1) as Hf by (apply fermat; assumption).
    apply cong_square.
    (* both sides are congruent to r^4 *)
    apply (cong_trans _ (r ^ 4)).
    + replace (c * c * (c * c)) with (c ^ 4) by ring.
      apply (cong_trans _ ((a ^ e) ^ 4)); [apply cong_pow; [lia|assumption]|].
      rewrite <- Z.pow_mul_r by lia.
      apply (cong_trans _ ((r * r) ^ (e * 4)));
        [apply cong_pow; [lia|apply cong_sym; assumption]|].
      replace (r * r) with (r ^ 2) by ring. rewrite <- Z.pow_mul_r by lia.
      rewrite Hexp, Z.pow_add_r by lia.
      replace (r ^ 4) with (1 * r ^ 4) at 2 by ring.
      apply cong_mul; [assumption|apply cong_refl].
    + replace (r ^ 4) with ((r * r) * (r * r)) by ring. apply cong_mul; assumption.
Qed.

Lemma sqrt_candidate (a r : Z) :
  cong (r * r) a ->
  cong (pow3 a ((q + 3) / 8) q * pow3 a ((q + 3) / 8) q) a \/
  cong (pow3 a ((q + 3) / 8) q * pow3 a ((q + 3) / 8) q) (- a).
Proof.
  intros Hr. destruct sqrt_exponent as (He & Hexp & Hq1).
  exact (sqrt_candidate_gen a r _ _ He Hexp Hq1 (cong_pow3 a ((q + 3) / 8)) Hr).
Qed.

Lemma parity_fix (m x1 xx : Z) :
  2 < m -> m mod 2 = 1 -> 0 <= x1 < m ->
  0 <= (if negb (x1 mod 2 =? 0) then m - x1 else x1) < m /\
  (if negb (x1 mod 2 =? 0) then m - x1 else x1) mod 2 = 0 /\
  ((m | x1 * x1 - xx) ->
   (m | (if negb (x1 mod 2 =? 0) then m - x1 else x1) *
        (if negb (x1 mod 2 =? 0) then m - x1 else x1) - xx)).
Proof.
  intros Hm Hodd Hx1. destruct (Z.eqb_spec (x1 mod 2) 0) as [Hev|Hod]; cbn [negb].
  - auto.
  - assert (x1 mod 2 = 1) as Hx1o by (pose proof (Z.mod_pos_bound x1 2 ltac:(lia)); lia).
    split; [|split].
    + assert (x1 <> 0) by (intros ->; discriminate). lia.
    + rewrite Zminus_mod, Hodd, Hx1o. reflexivity.
    + intros Hroot.
      replace ((m - x1) * (m - x1) - xx) with (m * (m - 2 * x1) + (x1 * x1 - xx)) by ring.
      apply Z.divide_add_r; [apply Z.divide_factor_l|assumption].
Qed.

(** The two corrections of [xrecover], over any odd modulus [m] with a
    square root [i] of -1. *)
Lemma xrecover_gen (m i c xx : Z) :
  2 < m -> m mod 2 = 1 -> 0 <= c < m ->
  0 <= (if negb ((if negb ((c * c - xx) mod m =? 0) then c * i mod m else c) mod 2 =? 0)
        then m - (if negb ((c * c - xx) mod m =? 0) then c * i mod m else c)
        else (if negb ((c * c - xx) mod m =? 0) then c * i mod m else c)) < m /\
  (if negb ((if negb ((c * c - xx) mod m =? 0) then c * i mod m else c) mod 2 =? 0)
   then m - (if negb ((c * c - xx) mod m =? 0) then c * i mod m else c)
   else (if negb ((c * c - xx) mod m =? 0) then c * i mod m else c)) mod 2 = 0 /\
  ((m | c * c - xx) \/ (m | c * c - - xx) -> (m | i * i - -1) ->
   (m | (if negb ((if negb ((c * c - xx) mod m =? 0) then c * i mod m else c) mod 2 =? 0)
         then m - (if negb ((c * c - xx) mod m =? 0) then c * i mod m else c)
         else (if negb ((c * c - xx) mod m =? 0) then c * i mod m else c)) *
        (if negb ((if negb ((c * c - xx) mod m =? 0) then c * i mod m else c) mod 2 =? 0)
         then m - (if negb ((c * c - xx) mod m =? 0) then c * i mod m else c)
         else (if negb ((c * c - xx) mod m =? 0) then c * i mod m else c)) - xx)).
Proof.
  intros Hm Hodd Hc.
  set (x1 := if negb ((c * c - xx) mod m =? 0) then c * i mod m else c).
  assert (0 <= x1 < m) as Hx1.
  { unfold x1. destruct (negb _); [apply Z.mod_pos_bound; lia|assumption]. }
  destruct (parity_fix m x1 xx Hm Hodd Hx1) as (H1 & H2 & H3).
  split; [exact H1|]. split; [exact H2|]. intros Hcand Hi. apply H3.
  unfold x1. destruct (Z.eqb_spec ((c * c - xx) mod m) 0) as [Hz|Hnz]; cbn [negb].
  - apply Z.mod_divide; [lia|assumption].
  - destruct Hcand as [Hgood|Hneg].
    + exfalso. apply Hnz. apply Z.mod_divide; [lia|assumption].
    + replace (c * i mod m * (c * i mod m) - xx)
        with ((c * c - - xx) * (i * i) + (- xx) * (i * i - -1)
              - m * (c * i / m) * (c * i + c * i mod m)).
      * apply Z.divide_sub_r; [apply Z.divide_add_r|];
          [apply Z.divide_mul_l; assumption|apply Z.divide_mul_r; assumption|].
        rewrite <- Z.mul_assoc. apply Z.divide_factor_l.
      * pose proof (Z.div_mod (c * i) m ltac:(lia)) as Hdm.
        set (qq := c * i / m) in *. set (rr := c * i mod m) in *.
        assert (c * i - (m * qq + rr) = 0) as Hz0 by lia.
        transitivity (rr * rr - xx + (c * i + rr) * (c * i - (m * qq + rr))); [ring|].
        rewrite Hz0. ring.
Qed.

(** [xrecover] returns an even residue, and a square root of [xx] when
    there is one. *)
Lemma xrecover_spec (y : Z) :
  0 <= xrecover y < q /\ xrecover y mod 2 = 0 /\
  (has_sqrt (xx_of y) -> cong (xrecover y * xrecover y) (xx_of y)).
Proof.
  destruct (xrecover_gen q I (pow3 (xx_of y) ((q + 3) / 8) q) (xx_of y)
              q_gt_2 q_odd (pow3_range _ _)) as (H1 & H2 & H3).
  split; [exact H1|]. split; [exact H2|].
  intros Hs. apply has_sqrt_cong in Hs as [r Hr].
  exact (H3 (sqrt_candidate _ r Hr) I_square).
Qed.

Lemma on_curve_gen (dd x y iw : Z) :
  cong ((dd * y * y + 1) * iw) 1 ->
  ((- (x * x) + y * y - (1 + dd * (x * x) * (y * y))) mod q =? 0) = true <->
  cong (x * x) ((y * y - 1) * iw).
Proof.
  intros Hinv.
  assert (- (x * x) + y * y - (1 + dd * (x * x) * (y * y))
          = - (x * x * (dd * y * y + 1) - (y * y - 1))) as -> by ring.
  revert Hinv. generalize (dd * y * y + 1). intros w Hinv.
  rewrite Z.eqb_eq, Z.mod_divide by (pose proof q_gt_2 as Hq2; lia).
  rewrite Z.divide_opp_r. fold (cong (x * x * w) (y * y - 1)).
  split; intros H.
  - apply (cong_trans _ (x * x * (w * iw))).
    + replace (x * x) with (x * x * 1) at 1 by ring.
      apply cong_mul; [apply cong_refl|apply cong_sym; assumption].
    + replace (x * x * (w * iw)) with ((x * x * w) * iw) by ring.
      apply cong_mul; [assumption|apply cong_refl].
  - apply (cong_trans _ ((y * y - 1) * iw * w)).
    + apply cong_mul; [assumption|apply cong_refl].
    + replace ((y * y - 1) * iw * w) with ((y * y - 1) * (w * iw)) by ring.
      apply (cong_trans _ ((y * y - 1) * 1)); [|rewrite Z.mul_1_r; apply cong_refl].
      apply cong_mul; [apply cong_refl|assumption].
Qed.

(** The curve equation says that [x^2] is the value [xx] computed from
    [y]. *)
Lemma on_curve_square (x y : Z) : on_curve x y = true <-> cong (x * x) (xx_of y).
Proof.
  exact (on_curve_gen d x y (inv (d * y * y + 1)) (inv_spec _ (curve_denominator y))).
Qed.

End Roots.

(** ** Claims about point compression *)

Section CompressionClaims.

Import Ed25519.

Lemma q_below_2_255 : q < 2 ^ 255.
Proof. reflexivity. Qed.

Lemma new_point_cases (x y : Z) :
  new_point x y = Raise ValueError \/
  (new_point x y = Ok {| px := x; py := y |} /\ on_curve x y = true).
Proof.
  unfold new_point.
  destruct ((x <? 0) || (2 ^ 256 <=? x) || (y <? 0) || (2 ^ 256 <=? y)); [left; reflexivity|].
  destruct (on_curve x y); [right; split; reflexivity|left; reflexivity].
Qed.

Lemma new_point_ok (x y : Z) :
  0 <= x < 2 ^ 256 -> 0 <= y < 2 ^ 256 -> on_curve x y = true ->
  new_point x y = Ok {| px := x; py := y |}.
Proof.
  intros Hx Hy Hc. unfold new_point. rewrite Hc.
  destruct (Z.ltb_spec x 0); [lia|]. destruct (Z.leb_spec (2 ^ 256) x); [lia|].
  destruct (Z.ltb_spec y 0); [lia|]. destruct (Z.leb_spec (2 ^ 256) y); [lia|].
  reflexivity.
Qed.

(** The sign correction of [decompress_key] keeps the square. *)
Lemma sign_fix (m x2 b xx : Z) :
  0 <= x2 < m ->
  0 <= (if negb (Z.land x2 1 =? b) then m - x2 else x2) <= m /\
  ((m | x2 * x2 - xx) ->
   (m | (if negb (Z.land x2 1 =? b) then m - x2 else x2) *
        (if negb (Z.land x2 1 =? b) then m - x2 else x2) - xx)).
Proof.
  intros Hx2. destruct (negb (Z.land x2 1 =? b)).
  - split; [lia|]. intros H.
    replace ((m - x2) * (m - x2) - xx) with (m * (m - 2 * x2) + (x2 * x2 - xx)) by ring.
    apply Z.divide_add_r; [apply Z.divide_factor_l|assumption].
  - split; [lia|auto].
Qed.

(** C7.  Decompressing a 32-byte encoding raises the library's
    [ValueError] (the spec's [InvalidPoint]) whenever the value
    [xx = (y^2 - 1) (d y^2 + 1)^-1] recovered from it has no square root
    modulo [q], and in every other case returns a point with that [y]
    which satisfies the curve equation. *)
Theorem C7_decompress_error (key_byte : bytes) :
  len key_byte = 32 ->
  (~ has_sqrt (xx_of (Z.shiftr (from_bytes_le key_byte) 1)) ->
   decompress_key key_byte = Raise ValueError) /\
  (has_sqrt (xx_of (Z.shiftr (from_bytes_le key_byte) 1)) ->
   exists P, decompress_key key_byte = Ok P /\
     py P = Z.shiftr (from_bytes_le key_byte) 1 /\
     on_curve (px P) (py P) = true).
Proof.
  intros Hlen. unfold decompress_key. cbv zeta.
  pose proof (from_bytes_le_range key_byte) as Hkey. rewrite Hlen in Hkey.
  change (2 ^ (8 * 32)) with (2 ^ 256) in Hkey.
  set (key := from_bytes_le key_byte) in *. clearbody key.
  assert (0 <= Z.shiftr key 1 < 2 ^ 256) as Hy.
  { rewrite Z.shiftr_div_pow2 by lia. change (2 ^ 1) with 2.
    split; [apply Z.div_pos; lia|]. apply Z.div_lt_upper_bound; lia. }
  set (y := Z.shiftr key 1) in *. clearbody y.
  destruct (xrecover_spec y) as (Hr & _ & Hroot).
  destruct (sign_fix q (xrecover y) (Z.land key 1) (xx_of y) Hr) as [Hrange Hkeep].
  set (x := if negb (Z.land (xrecover y) 1 =? Z.land key 1) then q - xrecover y else xrecover y)
    in *. clearbody x.
  split.
  - intros Hno. destruct (new_point_cases x y) as [Hraise|[_ Hon]]; [exact Hraise|].
    exfalso. apply Hno. apply has_sqrt_cong. exists x. apply on_curve_square. exact Hon.
  - intros Hs. exists {| px := x; py := y |}.
    assert (on_curve x y = true) as Hon by (apply on_curve_square, Hkeep, Hroot, Hs).
    split; [|split; [reflexivity|exact Hon]].
    apply new_point_ok; [|assumption|assumption].
    pose proof q_below_2_255 as Hq. change (2 ^ 256) with (2 * 2 ^ 255). lia.
Qed.

Lemma C7_decompress_error_witness :
  (~ has_sqrt (xx_of (Z.shiftr (from_bytes_le (repeat x00 32)) 1)) ->
   decompress_key (repeat x00 32) = Raise ValueError) /\
  (has_sqrt (xx_of (Z.shiftr (from_bytes_le (repeat x00 32)) 1)) ->
   exists P, decompress_key (repeat x00 32) = Ok P /\
     py P = Z.shiftr (from_bytes_le (repeat x00 32)) 1 /\
     on_curve (px P) (py P) = true).
Proof. exact (C7_decompress_error (repeat x00 32) eq_refl). Defined.

(** The recovered root with the stored parity is the original [x]. *)
Lemma root_with_parity (m x x2 : Z) :
  2 < m -> m mod 2 = 1 -> Z.prime m ->
  0 <= x < m -> 0 <= x2 < m -> x2 mod 2 = 0 ->
  (m | x2 * x2 - x * x) ->
  (if negb (x2 mod 2 =? x mod 2) then m - x2 else x2) = x.
Proof.
  intros Hm Hodd Hprime Hx Hx2 Hev Hsq.
  replace (x2 * x2 - x * x) with ((x2 - x) * (x2 + x)) in Hsq by ring.
  apply (Z.divide_prime_mul _ _ _ Hprime) in Hsq.
  assert (x mod 2 = 0 \/ x mod 2 = 1) as Hpar
    by (pose proof (Z.mod_pos_bound x 2 ltac:(lia)); lia).
  rewrite Hev.
  assert ((m | x2 - x) -> x2 = x) as Hsame.
  { intros [k Hk]. assert (k = 0) by nia. lia. }
  assert ((m | x2 + x) -> x2 + x = 0 \/ x2 + x = m) as Hopp.
  { intros [k Hk]. assert (k = 0 \/ k = 1) as [->| ->] by nia; lia. }
  assert (forall a b, a mod 2 = 0 -> b mod 2 = 0 -> (a + b) mod 2 = 0) as Hee.
  { intros a b Ha Hb. rewrite Zplus_mod, Ha, Hb. reflexivity. }
  assert (forall a b, a mod 2 = 0 -> b mod 2 = 1 -> (a + b) mod 2 = 1) as Heo.
  { intros a b Ha Hb. rewrite Zplus_mod, Ha, Hb. reflexivity. }
  destruct Hpar as [Hxe|Hxo]; rewrite ?Hxe, ?Hxo; cbn [Z.eqb negb].
  - destruct Hsq as [H|H]; [apply Hsame; exact H|].
    destruct (Hopp H) as [H0|Hmm]; [lia|].
    pose proof (Hee x2 x Hev Hxe) as Hsum. rewrite Hmm, Hodd in Hsum. discriminate.
  - destruct Hsq as [H|H].
    + apply Hsame in H. subst x2. rewrite Hev in Hxo. discriminate.
    + destruct (Hopp H) as [H0|Hmm]; [|lia].
      pose proof (Heo x2 x Hev Hxo) as Hsum. rewrite H0 in Hsum. discriminate.
Qed.

(** The base point of Ed25519. *)
Definition base_point : EccPoint :=
  {| px := 15112221349535400772501151409588531511454012693041857206046113283949847762202;
     py := 46316835694926478169428394003475163141307993866256225615783033603165251855960 |}.

Lemma base_point_generated : generated base_point.
Proof.
  unfold generated. vm_compute. repeat split; try discriminate; reflexivity.
Defined.

(** C3.  A generated point compresses into 32 bytes, the little-endian
    encoding of [(y << 1) | (x mod 2)], and decompressing them, with [x]
    recovered from [y] by [xrecover] and the stored parity bit, gives the
    point back. *)
Theorem C3_compress_roundtrip (P : EccPoint) :
  generated P ->
  exists enc,
    compress_key P = Ok enc /\ len enc = 32 /\
    from_bytes_le enc = Z.lor (Z.shiftl (py P) 1) (Z.land (px P) 1) /\
    decompress_key enc = Ok P.
Proof.
  destruct P as [x y]. unfold generated. cbn [px py]. intros (Hx & Hy & Hon).
  pose proof q_below_2_255 as Hq.
  pose proof (Z.mod_pos_bound x 2 ltac:(lia)) as Hb.
  destruct (to_from_bytes (compress x y) 32 ltac:(lia)) as (enc & Henc & Hlen & Hback).
  { rewrite compress_value. change (2 ^ (8 * 32)) with (2 * 2 ^ 255). lia. }
  exists enc. unfold compress_key. cbn [px py].
  split; [exact Henc|]. split; [exact Hlen|]. split; [exact Hback|].
  unfold decompress_key. cbv zeta. rewrite Hback, compress_value.
  destruct (split_key y (x mod 2) Hb) as [-> ->].
  assert (cong (x * x) (xx_of y)) as Hxx by (apply on_curve_square; exact Hon).
  destruct (xrecover_spec y) as (Hr & Hev & Hroot).
  assert (has_sqrt (xx_of y)) as Hs by (apply has_sqrt_cong; exists x; exact Hxx).
  specialize (Hroot Hs).
  assert (q | xrecover y * xrecover y - x * x) as Hsq
    by (apply (cong_trans _ (xx_of y)); [exact Hroot|apply cong_sym; exact Hxx]).
  rewrite land_1.
  rewrite (root_with_parity q x (xrecover y) q_gt_2 q_odd q_prime Hx Hr Hev Hsq).
  apply new_point_ok; [| |exact Hon]; change (2 ^ 256) with (2 * 2 ^ 255); lia.
Qed.

Lemma C3_compress_roundtrip_witness :
  exists enc,
    compress_key base_point = Ok enc /\ len enc = 32 /\
    from_bytes_le enc = Z.lor (Z.shiftl (py base_point) 1) (Z.land (px base_point) 1) /\
    decompress_key enc = Ok base_point.
Proof. exact (C3_compress_roundtrip base_point base_point_generated). Defined.

End CompressionClaims.

(* ===================================================================== *)
(** * Part III. Further properties of the code                            *)
(* ===================================================================== *)

(** ** [bloom.py]: membership, set operations and counting *)

Section BloomMore.

Import Bloom.

(** [generate_hashes] reads only the parameters of the filter, never its
    bits. *)
Lemma generate_hashes_params (a b : BloomFilter) (k : Z) :
  digest_size a = digest_size b -> bit_size a = bit_size b ->
  hash_rounds a = hash_rounds b ->
  generate_hashes a k = generate_hashes b k.
Proof.
  intros Hd Hb Hh. unfold generate_hashes. rewrite Hh.
  apply map_ext. intros i. unfold hash_index. rewrite Hd, Hb. reflexivity.
Qed.

(** The loop of [add] keeps the parameters, never clears a bit and, when it
    runs to its end, has set the bit of every index it was given. *)
Lemma add_loop_bits (hs : list (res Z)) : forall b b' r,
  add_loop b hs = (b', r) ->
  (byte_size b' = byte_size b /\ bit_size b' = bit_size b /\
   digest_size b' = digest_size b /\ hash_rounds b' = hash_rounds b) /\
  (forall i, Z.testbit (filter b) i = true -> Z.testbit (filter b') i = true) /\
  (r = Ok tt ->
   exists idxs, hs = map Ok idxs /\
     Forall (fun i => 0 <= i /\ Z.testbit (filter b') i = true) idxs).
Proof.
  induction hs as [|h hs IH]; intros b b' r Hadd.
  - injection Hadd as <- <-. split; [tauto|]. split; [auto|].
    intros _. exists []. split; [reflexivity|constructor].
  - cbn [add_loop] in Hadd. destruct h as [index|e].
    + destruct (Z.ltb_spec index 0) as [Hneg|Hpos].
      * injection Hadd as <- <-. split; [tauto|]. split; [auto|]. discriminate.
      * apply IH in Hadd. destruct Hadd as (Hpar & Hmono & Hall). cbn in Hpar, Hmono.
        split; [exact Hpar|]. split.
        { intros i Hi. apply Hmono. rewrite Z.lor_spec, Hi. reflexivity. }
        intros Hr. destruct (Hall Hr) as (idxs & -> & Hf).
        exists (index :: idxs). split; [reflexivity|].
        constructor; [|exact Hf]. split; [assumption|].
        apply Hmono. rewrite Z.lor_spec, Z.shiftl_1_l, Z.pow2_bits_true by assumption.
        apply orb_true_r.
    + injection Hadd as <- <-. split; [tauto|]. split; [auto|]. discriminate.
Qed.

(** X1.  No false negatives: when [add(key)] returns normally, the filter
    contains [key]. *)
Theorem add_then_contains (b b' : BloomFilter) (key : Z) :
  add b key = (b', Ok tt) -> contains b' key = Ok true.
Proof.
  intros Hadd. unfold add in Hadd.
  apply add_loop_bits in Hadd. destruct Hadd as ((_ & Hb & Hd & Hh) & _ & Hall).
  destruct (Hall eq_refl) as (idxs & Hhs & Hf).
  apply contains_true_iff. exists idxs. split; [|exact Hf].
  rewrite <- Hhs. apply generate_hashes_params; assumption.
Qed.

(** X2.  [add] never removes a member: a key the filter contains is still
    contained after any [add], also one that was cut short by an
    exception. *)
Theorem add_keeps_members (b b' : BloomFilter) (key k : Z) (r : res unit) :
  contains b k = Ok true -> add b key = (b', r) -> contains b' k = Ok true.
Proof.
  intros Hc Hadd. unfold add in Hadd.
  apply add_loop_bits in Hadd. destruct Hadd as ((_ & Hb & Hd & Hh) & Hmono & _).
  apply contains_true_iff in Hc. destruct Hc as (idxs & Hhs & Hf).
  apply contains_true_iff. exists idxs. split.
  - rewrite <- Hhs. apply generate_hashes_params; assumption.
  - eapply List.Forall_impl; [|exact Hf]. cbn. intros i [Hi Hbit]. auto.
Qed.

(** X3.  The intersection of two filters contains a key exactly when both
    filters contain it. *)
Theorem intersection_contains (f g c : BloomFilter) (k : Z) :
  reachable f -> reachable g -> band f g = Ok c ->
  (contains c k = Ok true <-> contains f k = Ok true /\ contains g k = Ok true).
Proof.
  intros Hf Hg Hc. apply reachable_wf in Hf, Hg.
  assert (same_param f g = true) as Hsp.
  { unfold band in Hc. destruct (same_param f g); [reflexivity|discriminate]. }
  apply same_param_true in Hsp as [Hbs Hhr].
  apply band_inv in Hc. destruct Hc as (Cb & Ch & Cf & Cw).
  assert (generate_hashes f k = generate_hashes c k) as Hfc
    by (apply generate_hashes_same; congruence).
  assert (generate_hashes g k = generate_hashes c k) as Hgc
    by (apply generate_hashes_same; congruence).
  rewrite !contains_true_iff. rewrite Hfc, Hgc. split.
  - intros (idxs & Hhs & Hall). split; exists idxs; (split; [assumption|]);
      (eapply List.Forall_impl; [|exact Hall]); cbn; intros i [Hi Hbit];
      rewrite Cf, Z.land_spec, andb_true_iff in Hbit; tauto.
  - intros [(idxs & Hhs & Hall) (idxs' & Hhs' & Hall')].
    assert (idxs' = idxs) as ->.
    { rewrite Hhs in Hhs'. clear -Hhs'. revert idxs' Hhs'.
      induction idxs as [|i idxs IH]; intros [|i' idxs'] H; try discriminate; [reflexivity|].
      injection H as -> H. f_equal. apply IH. assumption. }
    exists idxs. split; [assumption|].
    rewrite List.Forall_forall in *. intros i Hi.
    destruct (Hall i Hi) as [Hn Hbf]. destruct (Hall' i Hi) as [_ Hbg].
    split; [assumption|]. rewrite Cf, Z.land_spec, Hbf, Hbg. reflexivity.
Qed.

Lemma same_param_sym (a b : BloomFilter) : same_param a b = same_param b a.
Proof. unfold same_param. rewrite (Z.eqb_sym (byte_size a)), (Z.eqb_sym (hash_rounds a)). reflexivity. Qed.

(** X4.  Union and intersection are commutative, raising included: both
    orders return the same filter or raise the same exception. *)
Theorem union_intersection_commute (a b : BloomFilter) :
  bor a b = bor b a /\ band a b = band b a.
Proof.
  unfold bor, band. rewrite (same_param_sym b a).
  destruct (same_param a b) eqn:Hsp; cbn [negb]; [|split; reflexivity].
  apply same_param_true in Hsp as [-> ->].
  rewrite (Z.lor_comm (filter b)), (Z.land_comm (filter b)). split; reflexivity.
Qed.

Lemma lor_abs_bound (a b n : Z) :
  0 <= n -> 0 <= a < 2 ^ n -> 0 <= b < 2 ^ n -> Z.abs (Z.lor a b) < 2 ^ n.
Proof.
  intros Hn Ha Hb.
  assert (0 <= Z.lor a b) as Hnn by (apply Z.lor_nonneg; lia).
  rewrite Z.abs_eq by assumption.
  destruct (Z.eq_dec (Z.lor a b) 0) as [H0|Hnz]; [rewrite H0; apply Z.pow_pos_nonneg; lia|].
  assert (0 < n) as Hpos.
  { destruct (Z.eq_dec n 0) as [Hz|]; [|lia]. subst n. change (2 ^ 0) with 1 in Ha, Hb.
    assert (a = 0) as Za by lia. assert (b = 0) as Zb by lia.
    rewrite Za, Zb in Hnz. contradiction Hnz. reflexivity. }
  apply Z.log2_lt_pow2; [lia|]. rewrite Z.log2_lor by lia.
  apply Z.max_lub_lt.
  - destruct (Z.eq_dec a 0) as [Za|];
      [rewrite Za; change (Z.log2 0) with 0; lia|apply Z.log2_lt_pow2; lia].
  - destruct (Z.eq_dec b 0) as [Zb|];
      [rewrite Zb; change (Z.log2 0) with 0; lia|apply Z.log2_lt_pow2; lia].
Qed.

(** X5.  On filters built from non-negative initial values, union and
    intersection raise exactly when the parameters differ
    ([NotImplementedError]); otherwise they return the filter with the
    bitwise or, respectively and, of the two integers. *)
Theorem union_intersection_defined (a b : BloomFilter) :
  reachable_nonneg a -> reachable_nonneg b ->
  (same_param a b = false ->
   bor a b = Raise NotImplementedError /\ band a b = Raise NotImplementedError) /\
  (same_param a b = true ->
   exists u i, bor a b = Ok u /\ band a b = Ok i /\
     filter u = Z.lor (filter a) (filter b) /\
     filter i = Z.land (filter a) (filter b) /\
     byte_size u = byte_size a /\ hash_rounds u = hash_rounds a /\
     byte_size i = byte_size a /\ hash_rounds i = hash_rounds a).
Proof.
  intros Ha Hb.
  pose proof (reachable_nonneg_filter a Ha) as Fa.
  pose proof (reachable_nonneg_filter b Hb) as Fb.
  apply reachable_nonneg_reachable, reachable_wf in Ha, Hb.
  destruct Ha as (A1 & A2 & A3 & A4). destruct Hb as (B1 & B2 & B3 & B4).
  split; intros Hsp; unfold bor, band; rewrite Hsp; cbn [negb]; [split; reflexivity|].
  apply same_param_true in Hsp as [Hbs Hhr].
  rewrite Z.abs_eq in A3, B3 by assumption. rewrite <- Hbs in B3.
  assert (0 <= byte_size a * 8) as Hn by lia.
  assert (Z.abs (Z.lor (filter a) (filter b)) < 2 ^ (byte_size a * 8)) as Hor
    by (apply lor_abs_bound; lia).
  assert (Z.abs (Z.land (filter a) (filter b)) < 2 ^ (byte_size a * 8)) as Hand
    by (apply land_abs_bound; assumption).
  rewrite !init_ok by assumption.
  do 2 eexists. repeat (split; [reflexivity|]). reflexivity.
Qed.

Lemma land_pred_neg (z : Z) : z < 0 -> Z.land z (z - 1) < 0.
Proof. intros Hz. apply Z.land_neg. lia. Qed.

(** X6.  On a negative filter [count] never returns: clearing the lowest
    set bit of a negative integer leaves a negative integer, so the loop
    condition stays true. *)
Theorem count_diverges_on_negative (b : BloomFilter) :
  filter b < 0 -> forall fuel, count fuel b = None.
Proof.
  intros Hneg fuel. unfold count. generalize 0 as c. revert Hneg.
  generalize (filter b) as z. induction fuel as [|fuel IH]; intros z Hz c.
  - cbn [count_loop]. destruct (Z.eqb_spec z 0); [lia|reflexivity].
  - cbn [count_loop]. destruct (Z.eqb_spec z 0); [lia|].
    apply IH. apply land_pred_neg. assumption.
Qed.

Lemma blake2b_defined (data key : bytes) (nn : Z) :
  1 <= nn <= 64 -> len key <= 64 -> exists dg, Blake2b.blake2b data nn key = Ok dg.
Proof.
  intros Hnn Hk. unfold Blake2b.blake2b.
  destruct (Z.ltb_spec nn 1); [lia|]. destruct (Z.ltb_spec 64 nn); [lia|].
  destruct (Z.ltb_spec 64 (len key)); [lia|]. cbn [orb]. eexists. reflexivity.
Qed.

(** With the default parameters every round of [generate_hashes] yields an
    index, for every key. *)
Lemma default_hashes (b : BloomFilter) (key : Z) :
  digest_size b = 3 -> bit_size b = FILTER_SIZE * 8 -> hash_rounds b = HASH_ROUNDS ->
  exists i0 i1 i2, generate_hashes b key = [Ok i0; Ok i1; Ok i2] /\
    0 <= i0 < FILTER_SIZE * 8 /\ 0 <= i1 < FILTER_SIZE * 8 /\ 0 <= i2 < FILTER_SIZE * 8.
Proof.
  intros Hd Hb Hh. unfold generate_hashes. rewrite Hh.
  change (range HASH_ROUNDS) with [0; 1; 2]. cbn [map].
  assert (forall i, len (str_encode i) <= 64 ->
            exists idx, hash_index b (str_encode key) i = Ok idx /\ 0 <= idx < FILTER_SIZE * 8)
    as Hone.
  { intros i Hi. unfold hash_index. rewrite Hd, Hb.
    destruct (blake2b_defined (str_encode key) (str_encode i) 3 ltac:(lia) Hi) as (dg & ->).
    cbn [bind]. change (FILTER_SIZE * 8 =? 0) with false. cbv iota.
    eexists. split; [reflexivity|]. apply Z.mod_pos_bound. reflexivity. }
  destruct (Hone 0) as (i0 & -> & H0); [vm_compute; discriminate|].
  destruct (Hone 1) as (i1 & -> & H1); [vm_compute; discriminate|].
  destruct (Hone 2) as (i2 & -> & H2); [vm_compute; discriminate|].
  exists i0, i1, i2. tauto.
Qed.

(** X7.  A filter with the default parameters takes every integer key:
    [add] never raises on it, and afterwards the key is contained. *)
Theorem default_add_total (b : BloomFilter) (key : Z) :
  digest_size b = 3 -> bit_size b = FILTER_SIZE * 8 -> hash_rounds b = HASH_ROUNDS ->
  exists b', add b key = (b', Ok tt) /\ contains b' key = Ok true.
Proof.
  intros Hd Hb Hh.
  destruct (default_hashes b key Hd Hb Hh) as (i0 & i1 & i2 & Hhs & H0 & H1 & H2).
  assert (exists b', add b key = (b', Ok tt)) as [b' Hadd].
  { unfold add. rewrite Hhs. cbn [add_loop].
    destruct (Z.ltb_spec i0 0); [lia|]. destruct (Z.ltb_spec i1 0); [lia|].
    destruct (Z.ltb_spec i2 0); [lia|]. eexists. reflexivity. }
  exists b'. split; [exact Hadd|]. unfold add in Hadd.
  apply add_loop_bits in Hadd. destruct Hadd as ((_ & Hb' & Hd' & Hh') & _ & Hall).
  destruct (Hall eq_refl) as (idxs & Hi & Hf).
  apply contains_true_iff. exists idxs. split; [|exact Hf].
  rewrite <- Hi. apply generate_hashes_params; assumption.
Qed.

(** X8.  A fresh filter [BloomFilter()] has no members: [contains] returns
    [False] for every key. *)
Theorem empty_contains_nothing (key : Z) : contains Bloom.empty key = Ok false.
Proof.
  destruct (default_hashes Bloom.empty key eq_refl eq_refl eq_refl)
    as (i0 & i1 & i2 & Hhs & H0 & H1 & H2).
  unfold contains. rewrite Hhs. cbn [checker_loop].
  destruct (Z.ltb_spec i0 0); [lia|]. destruct (Z.ltb_spec i1 0); [lia|].
  destruct (Z.ltb_spec i2 0); [lia|]. cbn [bind]. f_equal.
  change (filter Bloom.empty) with 0. rewrite Z.land_0_r.
  apply Z.eqb_neq. intros Heq. symmetry in Heq.
  apply Z.lor_eq_0_iff in Heq as [Heq _]. apply Z.lor_eq_0_iff in Heq as [Heq _].
  apply Z.lor_eq_0_iff in Heq as [_ Heq].
  rewrite Z.shiftl_1_l in Heq. pose proof (Z.pow_pos_nonneg 2 i0 ltac:(lia) ltac:(lia)). lia.
Qed.

Lemma add_then_contains_witness : contains three_bits key3 = Ok true.
Proof.
  apply (add_then_contains Bloom.empty three_bits key3). vm_compute. reflexivity.
Defined.

Lemma add_keeps_members_witness :
  contains (fst (add three_bits 0)) key3 = Ok true.
Proof.
  apply (add_keeps_members three_bits (fst (add three_bits 0)) 0 key3
           (snd (add three_bits 0))).
  - vm_compute. reflexivity.
  - apply surjective_pairing.
Defined.

Lemma intersection_contains_witness :
  contains Bloom.empty key3 = Ok true <->
  contains one_bit key3 = Ok true /\ contains two_bits key3 = Ok true.
Proof.
  apply (intersection_contains one_bit two_bits Bloom.empty key3
           one_bit_reachable two_bits_reachable).
  vm_compute. reflexivity.
Defined.

Lemma empty_reachable_nonneg : reachable_nonneg Bloom.empty.
Proof. apply (reachn_init FILTER_SIZE HASH_ROUNDS 0); [lia|reflexivity]. Defined.

Lemma union_intersection_defined_witness :
  (same_param Bloom.empty Bloom.empty = false ->
   bor Bloom.empty Bloom.empty = Raise NotImplementedError /\
   band Bloom.empty Bloom.empty = Raise NotImplementedError) /\
  (same_param Bloom.empty Bloom.empty = true ->
   exists u i, bor Bloom.empty Bloom.empty = Ok u /\ band Bloom.empty Bloom.empty = Ok i /\
     filter u = Z.lor (filter Bloom.empty) (filter Bloom.empty) /\
     filter i = Z.land (filter Bloom.empty) (filter Bloom.empty) /\
     byte_size u = byte_size Bloom.empty /\ hash_rounds u = hash_rounds Bloom.empty /\
     byte_size i = byte_size Bloom.empty /\ hash_rounds i = hash_rounds Bloom.empty).
Proof.
  exact (union_intersection_defined Bloom.empty Bloom.empty
           empty_reachable_nonneg empty_reachable_nonneg).
Defined.

Lemma count_diverges_on_negative_witness : count 1000 minus_one = None.
Proof. apply (count_diverges_on_negative minus_one). reflexivity. Defined.

Lemma default_add_total_witness :
  exists b', add Bloom.empty 0 = (b', Ok tt) /\ contains b' 0 = Ok true.
Proof. exact (default_add_total Bloom.empty 0 eq_refl eq_refl eq_refl). Defined.

End BloomMore.

(** ** [backend.py]: uploads, short reads and the standing filter *)

Section BackendMore.

Import Bloom Backend.

(** What [Backend.recv] leaves on the connection, besides what it returns. *)
Lemma recv_loop_rest (sock : conn) : forall fuel data so_far length,
  length - so_far <= len (concat sock) ->
  (List.length sock < fuel)%nat ->
  exists sock',
    recv_loop fuel sock data so_far length =
      Some (concat data ++ firstn (Z.to_nat (length - so_far)) (concat sock), sock') /\
    concat sock' = skipn (Z.to_nat (length - so_far)) (concat sock).
Proof.
  induction sock as [|chunk rest IH]; intros fuel data so_far length Hlen Hfuel.
  - destruct fuel as [|fuel]; [cbn in Hfuel; lia|].
    unfold len in Hlen. cbn in Hlen. cbn [recv_loop].
    destruct (Z.ltb_spec so_far length); [lia|].
    exists []. cbn [concat]. rewrite firstn_nil, skipn_nil, app_nil_r. split; reflexivity.
  - destruct fuel as [|fuel]; [cbn in Hfuel; lia|]. cbn in Hfuel.
    cbn [recv_loop]. destruct (Z.ltb_spec so_far length) as [Hlt|Hge].
    2:{ eexists. replace (Z.to_nat (length - so_far)) with 0%nat by lia.
        cbn [firstn skipn]. rewrite app_nil_r. split; reflexivity. }
    rewrite len_concat_cons in Hlen. cbn [sock_recv].
    destruct (Z.leb_spec (len chunk) (length - so_far)) as [Hfit|Hcut].
    + destruct (IH fuel (data ++ [chunk]) (so_far + len chunk) length) as (sock' & -> & Hrest);
        [lia|lia|].
      exists sock'. split.
      * do 2 f_equal. rewrite concat_app. cbn [concat].
        rewrite app_nil_r, <- app_assoc. f_equal.
        rewrite firstn_app. unfold len in *.
        rewrite (@firstn_all2 _ _ chunk) by lia. f_equal. f_equal. lia.
      * rewrite Hrest. cbn [concat]. rewrite skipn_app. unfold len in *.
        rewrite (@skipn_all2 _ _ chunk) by lia. cbn [app]. f_equal. lia.
    + assert (len (firstn (Z.to_nat (length - so_far)) chunk) = length - so_far) as Hl
        by (apply len_firstn_le; lia).
      exists (skipn (Z.to_nat (length - so_far)) chunk :: rest).
      split.
      * destruct fuel as [|fuel]; cbn [recv_loop]; rewrite Hl;
          (destruct (Z.ltb_spec (so_far + (length - so_far)) length); [lia|]);
          do 2 f_equal; rewrite concat_app; cbn [concat];
          rewrite app_nil_r; f_equal;
          rewrite firstn_app; unfold len in *;
          replace (Z.to_nat (length - so_far) - List.length chunk)%nat with 0%nat by lia;
          cbn [firstn]; rewrite app_nil_r; reflexivity.
      * cbn [concat]. rewrite skipn_app. unfold len in *.
        replace (Z.to_nat (length - so_far) - List.length chunk)%nat with 0%nat by lia.
        reflexivity.
Qed.

(** X9.  [Backend.recv] reassembles the stream: when the peer has sent
    [data] and then [extra], in whatever chunks, asking for [len data] bytes
    returns exactly [data] and leaves exactly [extra] on the connection. *)
Theorem recv_exact (sock : conn) (data extra : bytes) (fuel : nat) :
  concat sock = data ++ extra ->
  (List.length sock < fuel)%nat ->
  exists sock', recv fuel sock (len data) = Some (data, sock') /\ concat sock' = extra.
Proof.
  intros Hsock Hfuel. unfold recv.
  destruct (recv_loop_rest sock fuel [[]] 0 (len data)) as (sock' & -> & Hrest).
  - rewrite Hsock, len_app. pose proof (len_nonneg extra). lia.
  - assumption.
  - exists sock'. rewrite Hrest, Hsock, Z.sub_0_r. unfold len. rewrite Nat2Z.id.
    split.
    + do 2 f_equal. cbn [concat app].
      rewrite firstn_app, Nat.sub_diag, firstn_all. cbn [firstn]. apply app_nil_r.
    + rewrite skipn_app, Nat.sub_diag, skipn_all. reflexivity.
Qed.

Lemma recv_exact_witness :
  exists sock',
    recv 3 [[x01; x02]; [x03; x04]] (len [x01; x02; x03]) = Some ([x01; x02; x03], sock') /\
    concat sock' = [x04].
Proof.
  apply (recv_exact [[x01; x02]; [x03; x04]] [x01; x02; x03] [x04] 3).
  - reflexivity.
  - cbn. lia.
Defined.

Lemma sock_recv_total (n : Z) (sock : conn) :
  0 <= n -> len (fst (sock_recv n sock)) + len (concat (snd (sock_recv n sock)))
            = len (concat sock).
Proof.
  intros Hn. destruct sock as [|chunk rest]; [reflexivity|]. cbn [sock_recv].
  destruct (Z.leb_spec (len chunk) n); cbn [fst snd].
  - rewrite len_concat_cons. reflexivity.
  - rewrite !len_concat_cons. unfold len in *.
    rewrite length_firstn, length_skipn. lia.
Qed.

Lemma recv_loop_short (fuel : nat) : forall sock data so_far length,
  len (concat sock) < length - so_far ->
  recv_loop fuel sock data so_far length = None.
Proof.
  induction fuel as [|fuel IH]; intros sock data so_far length Hshort;
    pose proof (len_nonneg (concat sock)) as Hnn; cbn [recv_loop];
    (destruct (Z.ltb_spec so_far length); [|lia]); [reflexivity|].
  pose proof (sock_recv_total (length - so_far) sock ltac:(lia)) as Htot.
  destruct (sock_recv (length - so_far) sock) as [d sock']. cbn [fst snd] in Htot.
  apply IH. lia.
Qed.

(** X10.  A short read never ends: when the peer sends fewer bytes than
    asked for and then falls silent or closes, [recv] keeps appending empty
    reads and does not return, whatever the number of turns. *)
Theorem recv_short_never_returns (sock : conn) (length : Z) :
  len (concat sock) < length -> forall fuel, recv fuel sock length = None.
Proof.
  intros Hshort fuel. unfold recv. apply recv_loop_short. lia.
Qed.

Lemma recv_short_never_returns_witness : recv 1000 [[x01; x02]] 3 = None.
Proof. apply (recv_short_never_returns [[x01; x02]] 3). vm_compute. reflexivity. Defined.

(** X11.  Consequently a connection that sends a decodable tag and then
    fewer than 100000 bytes is neither answered nor closed: the turn of
    the accept loop does not end, and no later connection is accepted. *)
Theorem short_upload_hangs (self : Backend) (c rest : conn) (tag : bytes) (ty : str)
    (later : list conn) :
  sock_recv 3 c = (tag, rest) -> decode tag = Ok ty ->
  len (concat rest) < FILTER_SIZE ->
  forall fuel, serve fuel self c = None /\ start fuel self (c :: later) = None.
Proof.
  intros Hrecv Hdec Hshort fuel.
  assert (serve fuel self c = None) as Hs.
  { unfold serve, recv. rewrite Hrecv, Hdec, recv_loop_short by lia. reflexivity. }
  split; [exact Hs|]. cbn [start]. rewrite Hs. reflexivity.
Qed.

Lemma short_upload_hangs_witness :
  serve 1000 (Backend.init 5000) [list_byte_of_string "CBF"; [x01; x02]] = None /\
  start 1000 (Backend.init 5000)
    ([list_byte_of_string "CBF"; [x01; x02]] :: [[list_byte_of_string "QBF"]]) = None.
Proof.
  apply (short_upload_hangs (Backend.init 5000) [list_byte_of_string "CBF"; [x01; x02]]
           [[x01; x02]] (list_byte_of_string "CBF") (lit "CBF")).
  - reflexivity.
  - reflexivity.
  - vm_compute. reflexivity.
Defined.

(** A connection tagged "CBF" is merged into the standing filter. *)
Lemma serve_upload (self : Backend) (c rest : conn) (q extra : bytes) :
  standing self ->
  sock_recv 3 c = (list_byte_of_string "CBF", rest) ->
  len q = FILTER_SIZE ->
  concat rest = q ++ extra ->
  forall fuel, (List.length rest < fuel)%nat ->
  exists u,
    serve fuel self c =
      Some {| state := {| bf := u; port := port self |};
              sent := [MSG_CBF_RECEIVED]; closed := true; raised := None |} /\
    filter u = Z.lor (filter (bf self)) (from_bytes_le q) /\
    byte_size u = FILTER_SIZE /\ hash_rounds u = HASH_ROUNDS.
Proof.
  intros (S1 & S2 & S3 & S4) Hrecv Hlen Hsock fuel Hfuel.
  unfold serve. rewrite Hrecv.
  change (decode (list_byte_of_string "CBF")) with (Ok (lit "CBF")). cbv iota.
  destruct (recv_spec rest q extra fuel Hsock Hfuel) as (sock' & Hr).
  rewrite Hlen in Hr. rewrite Hr.
  destruct (client_filter_ok q Hlen) as (cb & Hcb & C1 & C2 & C3 & C4). rewrite Hcb.
  rewrite bool_decide_eq_true_2 by reflexivity.
  destruct (bor (bf self) cb) as [u|e] eqn:Hu.
  - exists u. split; [reflexivity|].
    apply bor_inv in Hu. destruct Hu as (Ub & Uh & Uf & _).
    rewrite Uf, C3, Ub, Uh. auto.
  - exfalso. unfold bor in Hu.
    rewrite (proj2 (same_param_true (bf self) cb)) in Hu by (split; congruence).
    cbn [negb] in Hu. rewrite init_ok in Hu; [discriminate|rewrite S1; unfold FILTER_SIZE; lia|].
    destruct S3 as (_ & _ & Habs & _).
    pose proof (from_bytes_le_range q) as Hq. rewrite Hlen in Hq.
    rewrite Z.abs_eq in Habs by assumption. rewrite S1 in *. rewrite C3.
    apply lor_abs_bound; [unfold FILTER_SIZE; lia|lia|].
    rewrite Z.mul_comm. exact Hq.
Qed.


(** X12.  A connection on which the first [recv(3)] returns the whole tag
    "CBF", and which then delivers a 100000-byte filter [q] in segments of
    any size, is merged into the standing filter, whose integer becomes the
    bitwise or with [q]; the acknowledgement is sent and the connection is
    closed. *)
Theorem cbf_upload_merged (self : Backend) (c rest : conn) (q extra : bytes) :
  running self ->
  sock_recv 3 c = (list_byte_of_string "CBF", rest) ->
  len q = FILTER_SIZE ->
  concat rest = q ++ extra ->
  forall fuel, (List.length rest < fuel)%nat ->
  exists u,
    serve fuel self c =
      Some {| state := {| bf := u; port := port self |};
              sent := [MSG_CBF_RECEIVED]; closed := true; raised := None |} /\
    filter u = Z.lor (filter (bf self)) (from_bytes_le q) /\
    byte_size u = FILTER_SIZE /\ hash_rounds u = HASH_ROUNDS.
Proof.
  intros Hrun Hrecv Hlen Hsock fuel Hfuel.
  apply (serve_upload self c rest q extra); try assumption.
  apply running_standing. assumption.
Qed.

Lemma cbf_upload_merged_witness :
  exists u,
    serve 2 (Backend.init 5000) conn_cbf =
      Some {| state := {| bf := u; port := port (Backend.init 5000) |};
              sent := [MSG_CBF_RECEIVED]; closed := true; raised := None |} /\
    filter u = Z.lor (filter (bf (Backend.init 5000))) (from_bytes_le low3_bytes) /\
    byte_size u = FILTER_SIZE /\ hash_rounds u = HASH_ROUNDS.
Proof.
  apply (cbf_upload_merged (Backend.init 5000) conn_cbf [low3_bytes] low3_bytes []
           (running_init 5000) eq_refl eq_refl eq_refl 2).
  cbn. lia.
Defined.

(** One turn of the accept loop never clears a bit of the standing filter
    and never changes the port. *)
Lemma serve_bits (fuel : nat) (self : Backend) (c : conn) (r : served) :
  serve fuel self c = Some r ->
  port (state r) = port self /\
  forall i, Z.testbit (filter (bf self)) i = true ->
            Z.testbit (filter (bf (state r))) i = true.
Proof.
  intros Hserve. unfold serve in Hserve.
  destruct (sock_recv 3 c) as [tag c1].
  destruct (decode tag) as [ty|e]; [|injection Hserve as <-; cbn; auto].
  destruct (recv fuel c1 FILTER_SIZE) as [[data c2]|]; [|discriminate].
  destruct (Bloom.init FILTER_SIZE HASH_ROUNDS (from_bytes_le data)) as [cb|e];
    [|injection Hserve as <-; cbn; auto].
  destruct (bool_decide (ty = lit "CBF")).
  - destruct (bor (bf self) cb) as [u|e] eqn:Hu; [|injection Hserve as <-; cbn; auto].
    injection Hserve as <-. cbn. split; [reflexivity|].
    apply bor_inv in Hu. destruct Hu as (_ & _ & Hf & _).
    intros i Hi. rewrite Hf, Z.lor_spec, Hi. reflexivity.
  - destruct (band (bf self) cb) as [i|e]; [|injection Hserve as <-; cbn; auto].
    destruct (count fuel i); [|discriminate].
    injection Hserve as <-. cbn. auto.
Qed.

(** X13.  The backend never forgets: over any run of the accept loop,
    every bit that is set in the standing filter stays set, whatever the
    connections send and also when the loop ends with an exception. *)
Theorem standing_filter_grows (fuel : nat) (conns : list conn) :
  forall (self s : Backend) (rs : list served),
  start fuel self conns = Some (s, rs) ->
  forall i, Z.testbit (filter (bf self)) i = true -> Z.testbit (filter (bf s)) i = true.
Proof.
  induction conns as [|c conns IH]; intros self s rs Hstart i Hi.
  - injection Hstart as <- _. assumption.
  - cbn [start] in Hstart. destruct (serve fuel self c) as [r|] eqn:Hs; [|discriminate].
    apply serve_bits in Hs. destruct Hs as [_ Hbits].
    destruct (raised r).
    + injection Hstart as <- _. auto.
    + destruct (start fuel (state r) conns) as [[s' rs']|] eqn:Hrest; [|discriminate].
      injection Hstart as <- _. eapply IH; [exact Hrest|]. auto.
Qed.

Lemma standing_filter_grows_witness :
  Z.testbit (filter (bf after_upload)) 0 = true.
Proof.
  apply (standing_filter_grows 5 [[list_byte_of_string "CBF"; zero_bytes]]
           after_upload after_upload
           [{| state := after_upload; sent := [MSG_CBF_RECEIVED];
               closed := true; raised := None |}]).
  - vm_compute. reflexivity.
  - reflexivity.
Defined.

Lemma land_lor_absorb (a b : Z) : Z.land (Z.lor a b) b = b.
Proof.
  apply Z.bits_inj'. intros i _. rewrite Z.land_spec, Z.lor_spec.
  destruct (Z.testbit a i), (Z.testbit b i); reflexivity.
Qed.

(** X14.  Detection of an uploaded contact: when a filter [q] with at
    least [HASH_ROUNDS] set bits has been uploaded as a CBF, a later query
    with the same filter is answered with the positive-contact string.
    On both connections the first [recv(3)] returns the whole tag; the
    filter may arrive in segments of any size. *)
Theorem uploaded_contact_detected (self : Backend) (up qu rest1 rest2 : conn)
    (q extra1 extra2 : bytes) (fuel : nat) :
  running self ->
  sock_recv 3 up = (list_byte_of_string "CBF", rest1) ->
  sock_recv 3 qu = (list_byte_of_string "QBF", rest2) ->
  len q = FILTER_SIZE ->
  concat rest1 = q ++ extra1 ->
  concat rest2 = q ++ extra2 ->
  HASH_ROUNDS <= popcount (from_bytes_le q) ->
  (S (List.length rest1) + S (List.length rest2)
     + Z.to_nat (popcount (from_bytes_le q)) <= fuel)%nat ->
  exists s r1 r2,
    start fuel self [up; qu] = Some (s, [r1; r2]) /\
    filter (bf s) = Z.lor (filter (bf self)) (from_bytes_le q) /\
    sent r1 = [MSG_CBF_RECEIVED] /\ sent r2 = [MSG_POSITIVE] /\
    closed r1 = true /\ closed r2 = true.
Proof.
  intros Hrun Hup Hqu Hlen Hc1 Hc2 Hpop Hfuel.
  destruct (serve_upload self up rest1 q extra1
              (running_standing self Hrun) Hup Hlen Hc1 fuel) as (u & Hs1 & Uf & Ub & Uh);
    [lia|].
  set (s1 := {| bf := u; port := port self |}) in *.
  assert (standing s1) as Hst.
  { apply (serve_inv fuel self up _ (running_standing self Hrun) Hs1). reflexivity. }
  assert (Z.land (filter (bf s1)) (from_bytes_le q) = from_bytes_le q) as Hland
    by (cbn [bf s1]; rewrite Uf; apply land_lor_absorb).
  pose proof (serve_query s1 qu (list_byte_of_string "QBF")
                rest2 (lit "QBF") q extra2 Hst Hqu eq_refl) as Hs2.
  specialize (Hs2 ltac:(vm_compute; discriminate) Hlen Hc2 fuel).
  rewrite Hland in Hs2. specialize (Hs2 ltac:(lia)).
  destruct (Z.leb_spec HASH_ROUNDS (popcount (from_bytes_le q))); [|lia].
  cbn [start]. rewrite Hs1. cbn [raised state]. rewrite Hs2. cbn [raised state].
  do 3 eexists. split; [reflexivity|]. cbn [bf s1 sent closed]. auto.
Qed.

(** The upload in one segment after its tag, the query in two. *)
Definition conn_qbf_halves : conn :=
  [list_byte_of_string "QBF"; firstn (Z.to_nat 50000) low3_bytes; skipn (Z.to_nat 50000) low3_bytes].

Lemma uploaded_contact_detected_witness :
  exists s r1 r2,
    start 8 (Backend.init 5000) [conn_cbf; conn_qbf_halves] = Some (s, [r1; r2]) /\
    filter (bf s) = Z.lor (filter (bf (Backend.init 5000))) (from_bytes_le low3_bytes) /\
    sent r1 = [MSG_CBF_RECEIVED] /\ sent r2 = [MSG_POSITIVE] /\
    closed r1 = true /\ closed r2 = true.
Proof.
  apply (uploaded_contact_detected (Backend.init 5000) conn_cbf conn_qbf_halves
           [low3_bytes] [firstn (Z.to_nat 50000) low3_bytes; skipn (Z.to_nat 50000) low3_bytes]
           low3_bytes [] [] 8 (running_init 5000)).
  - reflexivity.
  - reflexivity.
  - reflexivity.
  - reflexivity.
  - cbn [concat]. rewrite !app_nil_r. apply firstn_skipn.
  - vm_compute. discriminate.
  - vm_compute. lia.
Defined.

(** Decoding never yields more code points than there are bytes. *)
Lemma decode_vals_length (n : nat) : forall (b : list Z) (s : str),
  (length b <= n)%nat -> decode_vals b = Ok s -> (length s <= length b)%nat.
Proof.
  induction n as [|n IH]; intros b s Hn Hdec.
  - destruct b; [|cbn in Hn; lia]. injection Hdec as <-. cbn. lia.
  - destruct b as [|b0 r]; [injection Hdec as <-; cbn; lia|].
    cbn [decode_vals] in Hdec. cbn [length] in Hn |- *.
    destruct (b0 <? 128).
    { destruct (decode_vals r) as [s'|] eqn:Hr; [|discriminate].
      injection Hdec as <-. apply IH in Hr; [cbn; lia|lia]. }
    destruct ((194 <=? b0) && (b0 <=? 223)).
    { destruct r as [|b1 r1]; [discriminate|]. destruct (is_cont b1); [|discriminate].
      destruct (decode_vals r1) as [s'|] eqn:Hr; [|discriminate].
      injection Hdec as <-. cbn [length] in *. apply IH in Hr; [cbn; lia|lia]. }
    destruct ((224 <=? b0) && (b0 <=? 239)).
    { destruct r as [|b1 [|b2 r2]]; try discriminate.
      destruct (_ && _); [|discriminate].
      destruct (decode_vals r2) as [s'|] eqn:Hr; [|discriminate].
      injection Hdec as <-. cbn [length] in *. apply IH in Hr; [cbn; lia|lia]. }
    destruct ((240 <=? b0) && (b0 <=? 244)); [|discriminate].
    destruct r as [|b1 [|b2 [|b3 r3]]]; try discriminate.
    destruct (_ && _); [|discriminate].
    destruct (decode_vals r3) as [s'|] eqn:Hr; [|discriminate].
    injection Hdec as <-. cbn [length] in *. apply IH in Hr; [cbn; lia|lia].
Qed.

(** X15.  The tag is read with a single [recv(3)]: when the first segment
    of a connection carries fewer than three bytes, the upload is not
    recognised as a CBF, whatever follows.  The standing filter is left as
    it was and the acknowledgement is not sent. *)
Theorem short_tag_not_merged (fuel : nat) (self : Backend) (c rest : conn) (tag : bytes) :
  sock_recv 3 c = (tag, rest) -> len tag < 3 ->
  match serve fuel self c with
  | Some r => state r = self /\ sent r <> [MSG_CBF_RECEIVED]
  | None => True
  end.
Proof.
  intros Hrecv Hshort. unfold serve. rewrite Hrecv.
  destruct (decode tag) as [ty|e] eqn:Hdec; [|split; [reflexivity|discriminate]].
  assert (ty <> lit "CBF") as Hne.
  { intros ->. unfold decode in Hdec.
    apply (decode_vals_length _ _ _ (Nat.le_refl _)) in Hdec.
    rewrite length_map in Hdec. unfold len in Hshort. cbn in Hdec. lia. }
  destruct (recv fuel rest FILTER_SIZE) as [[data c2]|]; [|exact Logic.I].
  destruct (Bloom.init FILTER_SIZE HASH_ROUNDS (from_bytes_le data)) as [cb|e];
    [|split; [reflexivity|discriminate]].
  rewrite bool_decide_eq_false_2 by assumption.
  destruct (band (bf self) cb) as [i|e]; [|split; [reflexivity|discriminate]].
  destruct (count fuel i) as [n|]; [|exact Logic.I].
  split; [reflexivity|]. cbn [sent]. destruct (HASH_ROUNDS <=? n); discriminate.
Qed.

(** A CBF upload of the filter 7 that arrives as "CB", then "F" and the
    filter: the server answers it as a query. *)
Definition conn_split_tag : conn :=
  [list_byte_of_string "CB"; "F"%byte :: removelast low3_bytes; [x00]].

Lemma short_tag_not_merged_witness :
  match serve 5 (Backend.init 5000) conn_split_tag with
  | Some r => state r = Backend.init 5000 /\ sent r <> [MSG_CBF_RECEIVED]
  | None => True
  end.
Proof.
  apply (short_tag_not_merged 5 (Backend.init 5000) conn_split_tag
           ["F"%byte :: removelast low3_bytes; [x00]] (list_byte_of_string "CB")).
  - reflexivity.
  - vm_compute. reflexivity.
Defined.

End BackendMore.

(** ** [sss.py]: secrets of any number of blocks *)

Section SSSMore.

Import SSS.

Variable rand : Type.
Variable Shamir_split : Z -> Z -> bytes -> bool -> rand -> list Share.
Variable Shamir_combine : list Share -> bool -> res bytes.

Local Abbreviation split := (SSS.split rand Shamir_split).
Local Abbreviation combine := (SSS.combine Shamir_combine).

(** The checking loop of [combine] accepts exactly the lists whose shares
    all have the expected length, a multiple of the block size; every
    other list makes it raise [ValueError]. *)
Lemma check_shares_cases (share_len : Z) (shares : list Share) :
  (check_shares share_len shares = Ok tt /\
   Forall (fun sh => len (snd sh) mod SHAMIR_BLOCK_SIZE = 0 /\ len (snd sh) = share_len) shares)
  \/
  (check_shares share_len shares = Raise ValueError /\
   Exists (fun sh => len (snd sh) mod SHAMIR_BLOCK_SIZE <> 0 \/ len (snd sh) <> share_len) shares).
Proof.
  induction shares as [|sh shares IH]; [left; split; [reflexivity|constructor]|].
  cbn [check_shares].
  destruct (Z.eqb_spec (len (snd sh) mod SHAMIR_BLOCK_SIZE) 0) as [Hm|Hm]; cbn [negb].
  - destruct (Z.eqb_spec (len (snd sh)) share_len) as [Hl|Hl]; cbn [negb].
    + destruct IH as [[-> Hall]|[-> Hex]].
      * left. split; [reflexivity|]. constructor; [split; assumption|assumption].
      * right. split; [reflexivity|]. apply Exists_cons_tl. assumption.
    + right. split; [reflexivity|]. apply Exists_cons_hd. right. assumption.
  - right. split; [reflexivity|]. apply Exists_cons_hd. left. assumption.
Qed.

(** X16.  What [combine] refuses before it calls the primitive: an empty
    list of shares raises [IndexError]; a list in which some share has a
    length that is not a multiple of 16, or differs from the length of the
    first share, raises [ValueError]. *)
Theorem combine_rejects (ssss : bool) :
  combine [] ssss = Raise IndexError /\
  forall (first : Share) (rest : list Share),
    Exists (fun sh => len (snd sh) mod SHAMIR_BLOCK_SIZE <> 0 \/
                      len (snd sh) <> len (snd first)) (first :: rest) ->
    combine (first :: rest) ssss = Raise ValueError.
Proof.
  split; [reflexivity|]. intros first rest Hex. unfold SSS.combine.
  destruct (check_shares_cases (len (snd first)) (first :: rest)) as [[_ Hall]|[-> _]];
    [|reflexivity].
  exfalso. apply List.Exists_exists in Hex as (sh & Hin & Hbad).
  rewrite List.Forall_forall in Hall. destruct (Hall sh Hin). tauto.
Qed.

(** *** Blocks of a byte string *)

(** The [i]-th 16-byte block of [s], as [split] and [combine] cut it out. *)
Definition blk (s : bytes) (i : Z) : bytes :=
  slice s (i * SHAMIR_BLOCK_SIZE) ((i + 1) * SHAMIR_BLOCK_SIZE).

Lemma blk_nat (s : bytes) (i : nat) :
  blk s (Z.of_nat i) = firstn 16 (skipn (16 * i) s).
Proof.
  unfold blk, slice, SHAMIR_BLOCK_SIZE.
  replace (Z.to_nat ((Z.of_nat i + 1) * 16 - Z.of_nat i * 16)) with 16%nat by lia.
  replace (Z.to_nat (Z.of_nat i * 16)) with (16 * i)%nat by lia. reflexivity.
Qed.

Lemma concat_blocks (m : nat) : forall s : bytes,
  length s = (16 * m)%nat ->
  concat (map (fun i => firstn 16 (skipn (16 * i) s)) (seq 0 m)) = s.
Proof.
  induction m as [|m IH]; intros s Hs.
  - destruct s; [reflexivity|discriminate].
  - cbn [seq map concat]. rewrite <- seq_shift, map_map.
    change (skipn (16 * 0) s) with s.
    transitivity (firstn 16 s ++ skipn 16 s); [|apply firstn_skipn]. f_equal.
    assert (length (skipn 16 s) = (16 * m)%nat) as Hl by (rewrite length_skipn; lia).
    pose proof (IH (skipn 16 s) Hl) as IH'. rewrite <- IH'.
    f_equal. apply map_ext. intros i. rewrite skipn_skipn. do 2 f_equal. lia.
Qed.

Lemma nth_block (bl : list bytes) :
  Forall (fun b => length b = 16%nat) bl ->
  forall i, (i < length bl)%nat ->
    firstn 16 (skipn (16 * i) (concat bl)) = nth i bl [].
Proof.
  induction 1 as [|b bl Hb _ IH]; intros i Hi; [cbn in Hi; lia|].
  cbn [concat]. destruct i as [|i].
  - change (skipn (16 * 0) (b ++ concat bl)) with (b ++ concat bl).
    rewrite firstn_app, Hb, Nat.sub_diag, firstn_all2 by lia. apply app_nil_r.
  - cbn [nth length] in *. rewrite skipn_app, Hb, skipn_all2 by lia. cbn [app].
    replace (16 * S i - 16)%nat with (16 * i)%nat by lia. apply IH. lia.
Qed.

Lemma length_concat_blocks (bl : list bytes) :
  Forall (fun b => length b = 16%nat) bl -> length (concat bl) = (16 * length bl)%nat.
Proof.
  induction 1 as [|b bl Hb _ IH]; [reflexivity|].
  cbn [concat length]. rewrite length_app, Hb, IH. lia.
Qed.

Lemma len_blk (s : bytes) (m i : Z) :
  len s = 16 * m -> 0 <= i < m -> len (blk s i) = 16.
Proof.
  intros Hs Hi. rewrite <- (Z2Nat.id i) by lia. rewrite blk_nat.
  unfold len in *. rewrite length_firstn, length_skipn. lia.
Qed.

Lemma blocks_concat (s : bytes) (m : Z) :
  0 <= m -> len s = 16 * m -> concat (map (blk s) (range m)) = s.
Proof.
  intros Hm Hs. unfold range. rewrite map_map.
  rewrite (map_ext _ _ (blk_nat s)). apply concat_blocks. unfold len in Hs. lia.
Qed.

(** *** The wrapper around a threshold primitive *)

Hypothesis Shamir_split_shape : forall k n block r,
  2 <= k <= n -> n <= 16 -> len block = 16 ->
  map fst (Shamir_split k n block false r) = map (fun j => j + 1) (range n) /\
  Forall (fun sh => len (snd sh) = 16) (Shamir_split k n block false r).

Hypothesis Shamir_threshold : forall k n block r (S : list Share),
  2 <= k <= n -> n <= 16 -> len block = 16 ->
  NoDup S -> len S = k -> incl S (Shamir_split k n block false r) ->
  Shamir_combine S false = Ok block.

Section Run.

Variables (k n : Z) (s : bytes) (rnd : Z -> rand) (m : Z).
Hypothesis Hk : 2 <= k <= n.
Hypothesis Hn : n <= 16.
Hypothesis Hm : 0 <= m.
Hypothesis Hs : len s = 16 * m.

(** The shares of block [i], and the payload share [j] collects over the
    blocks [ixs]. *)
Definition block_shares (i : Z) : list Share := Shamir_split k n (blk s i) false (rnd i).
Definition column (ixs : list Z) (j : Z) : bytes :=
  concat (map (fun i => pay (block_shares i) j) ixs).

Lemma block_shares_lookup (i j : Z) :
  0 <= i < m -> 0 <= j < n ->
  block_shares i !! Z.to_nat j = Some (j + 1, pay (block_shares i) j) /\
  len (pay (block_shares i) j) = 16.
Proof.
  intros Hi Hj. apply (shape_lookup rand Shamir_split Shamir_split_shape); try assumption.
  apply (len_blk s m); assumption.
Qed.

Lemma block_shares_length (i : Z) : 0 <= i < m -> length (block_shares i) = Z.to_nat n.
Proof.
  intros Hi.
  destruct (Shamir_split_shape k n (blk s i) (rnd i) Hk Hn (len_blk s m i Hs Hi)) as [Hf _].
  fold (block_shares i) in Hf.
  rewrite <- (length_map fst), Hf, length_map, length_range. reflexivity.
Qed.

Lemma split_loop_column (ixs : list Z) : forall shares : list bytes,
  Forall (fun i => 0 <= i < m) ixs -> length shares = Z.to_nat n ->
  exists shares',
    split_loop rand Shamir_split k n s false rnd shares ixs = Ok shares' /\
    length shares' = Z.to_nat n /\
    forall j sj, 0 <= j < n -> shares !! Z.to_nat j = Some sj ->
      shares' !! Z.to_nat j = Some (sj ++ column ixs j).
Proof.
  induction ixs as [|i ixs IH]; intros shares His Hlen.
  - exists shares. split; [reflexivity|]. split; [assumption|].
    intros j sj _ H. unfold column. cbn. rewrite app_nil_r. assumption.
  - inversion His as [|? ? Hi His']; subst. cbn [split_loop].
    fold (blk s i). fold (block_shares i).
    destruct (extend_all (block_shares i) n shares Hlen (block_shares_length i Hi))
      as (sh1 & -> & Hlen1 & Hlook1).
    cbn [bind]. destruct (IH sh1 His' Hlen1) as (sh2 & -> & Hlen2 & Hlook2).
    exists sh2. split; [reflexivity|]. split; [assumption|].
    intros j sj Hj Hsj. rewrite (Hlook2 j _ Hj (Hlook1 j sj Hj Hsj)).
    unfold column. cbn [map concat]. rewrite app_assoc. reflexivity.
Qed.

Lemma range_bounds (x : Z) : Forall (fun i => 0 <= i < x) (range x).
Proof. apply List.Forall_forall. intros i Hi. apply In_range. assumption. Qed.

(** [split]: share [j + 1] carries, block after block, the payload of the
    [j]-th share of each block. *)
Lemma split_columns :
  split k n s false rnd = Ok (map (fun j => (j + 1, column (range m) j)) (range n)).
Proof.
  unfold SSS.split. rewrite Hs.
  replace (16 * m mod SHAMIR_BLOCK_SIZE) with 0
    by (unfold SHAMIR_BLOCK_SIZE; rewrite Z.mul_comm, Z.mod_mul; lia).
  replace (16 * m / SHAMIR_BLOCK_SIZE) with m
    by (unfold SHAMIR_BLOCK_SIZE; rewrite Z.mul_comm, Z.div_mul; lia).
  change (negb (0 =? 0)) with false. cbv iota.
  destruct (split_loop_column (range m) (map (fun _ => []) (range n)) (range_bounds m))
    as (sh & -> & Hlen & Hlook); [rewrite length_map; apply length_range|].
  cbn [bind]. f_equal. apply map_ext_in. intros j Hj. apply In_range in Hj. f_equal.
  assert (map (fun _ : Z => @nil byte) (range n) !! Z.to_nat j = Some []) as H0.
  { change (map (fun _ : Z => @nil byte) (range n))
      with ((fun _ : Z => @nil byte) <$> range n).
    rewrite list_lookup_fmap.
    destruct (lookup_lt_is_Some_2 (range n) (Z.to_nat j)) as [x ->];
      [rewrite length_range; lia|reflexivity]. }
  rewrite (nth_lookup_Some _ _ _ _ (Hlook j [] Hj H0)). reflexivity.
Qed.

Lemma column_blocks (j : Z) :
  0 <= j < n ->
  Forall (fun b : bytes => length b = 16%nat)
    (map (fun i => pay (block_shares i) j) (range m)).
Proof.
  intros Hj. apply List.Forall_forall. intros b Hb.
  apply in_map_iff in Hb as (i & <- & Hi). apply In_range in Hi.
  destruct (block_shares_lookup i j Hi Hj) as [_ Hl]. unfold len in Hl. lia.
Qed.

Lemma len_column (j : Z) : 0 <= j < n -> len (column (range m) j) = 16 * m.
Proof.
  intros Hj. unfold len, column.
  rewrite (length_concat_blocks _ (column_blocks j Hj)), length_map, length_range. lia.
Qed.

Lemma blk_column (i j : Z) :
  0 <= i < m -> 0 <= j < n -> blk (column (range m) j) i = pay (block_shares i) j.
Proof.
  intros Hi Hj. rewrite <- (Z2Nat.id i) at 1 by lia. rewrite blk_nat.
  unfold column. rewrite (nth_block _ (column_blocks j Hj))
    by (rewrite length_map, length_range; lia).
  apply nth_lookup_Some.
  change (map (fun i0 => pay (block_shares i0) j) (range m))
    with ((fun i0 => pay (block_shares i0) j) <$> range m).
  rewrite list_lookup_fmap. unfold range.
  change (map Z.of_nat (seq 0 (Z.to_nat m))) with (Z.of_nat <$> seq 0 (Z.to_nat m)).
  rewrite list_lookup_fmap, lookup_seq_lt by lia. cbn. rewrite Z2Nat.id by lia. reflexivity.
Qed.

Lemma combine_loop_blocks (S : list Share) (ixs : list Z) : forall result : bytes,
  (forall i, In i ixs ->
     Shamir_combine
       (map (fun '(idx, share) =>
               (idx, slice share (i * SHAMIR_BLOCK_SIZE) ((i + 1) * SHAMIR_BLOCK_SIZE))) S)
       false = Ok (blk s i)) ->
  combine_loop Shamir_combine S false result ixs = Ok (result ++ concat (map (blk s) ixs)).
Proof.
  induction ixs as [|i ixs IH]; intros result Hall.
  - cbn. rewrite app_nil_r. reflexivity.
  - cbn [combine_loop]. rewrite (Hall i (or_introl eq_refl)). cbn [bind].
    rewrite IH by (intros i' Hi'; apply Hall; right; assumption).
    cbn [map concat]. rewrite app_assoc. reflexivity.
Qed.

(** The round trip for a secret of [m] blocks. *)
Lemma roundtrip_blocks :
  exists shares,
    split k n s false rnd = Ok shares /\
    map fst shares = map (fun j => j + 1) (range n) /\
    Forall (fun sh => len (snd sh) = len s) shares /\
    forall S : list Share,
      NoDup S -> len S = k -> incl S shares -> combine S false = Ok s.
Proof.
  eexists. split; [exact split_columns|]. split; [rewrite map_map; reflexivity|]. split.
  { apply List.Forall_forall. intros sh Hin. apply in_map_iff in Hin as (j & <- & Hj).
    apply In_range in Hj. cbn [snd]. rewrite Hs. apply len_column. assumption. }
  intros S Hnd HlenS Hincl.
  assert (forall sh, In sh S -> len (snd sh) = 16 * m) as Hlen.
  { intros sh Hin. apply Hincl, in_map_iff in Hin as (j & <- & Hj). apply In_range in Hj.
    apply len_column. assumption. }
  destruct S as [|first rest] eqn:HS; [unfold len in HlenS; cbn in HlenS; lia|].
  rewrite <- HS in *. unfold SSS.combine. rewrite HS at 1.
  rewrite (Hlen first) by (rewrite HS; left; reflexivity).
  destruct (check_shares_cases (16 * m) S) as [[-> _]|[_ Hex]].
  2:{ exfalso. apply List.Exists_exists in Hex as (sh & Hin & Hbad).
      rewrite (Hlen sh Hin) in Hbad. unfold SHAMIR_BLOCK_SIZE in Hbad.
      rewrite Z.mul_comm, Z.mod_mul in Hbad by lia. destruct Hbad as [H|H]; apply H; lia. }
  cbn [bind].
  replace (16 * m / SHAMIR_BLOCK_SIZE) with m
    by (unfold SHAMIR_BLOCK_SIZE; rewrite Z.mul_comm, Z.div_mul; lia).
  rewrite combine_loop_blocks.
  - cbn [app]. f_equal. apply blocks_concat; assumption.
  - intros i Hi. apply In_range in Hi.
    destruct (block_shares_subset rand k n s rnd S
                (fun '(idx, share) =>
                   (idx, slice share (i * SHAMIR_BLOCK_SIZE) ((i + 1) * SHAMIR_BLOCK_SIZE)))
                (block_shares i) (column (range m)) (fun _ o => o)) as [Hnd' Hin'].
    + intros j Hj. apply block_shares_lookup; assumption.
    + intros j Hj. f_equal. apply blk_column; assumption.
    + exact Hnd.
    + exact Hincl.
    + apply (Shamir_threshold k n (blk s i) (rnd i)); try assumption.
      * apply (len_blk s m); assumption.
      * unfold len in *. rewrite length_map. exact HlenS.
Qed.

End Run.

(** X17.  Block-wise sharing of a secret of any number of blocks: for
    [2 <= k <= n <= 16] and a secret whose length is a multiple of 16,
    [split] returns [n] shares numbered 1..n, each as long as the secret,
    and [combine] of any [k] distinct ones of them returns the secret. *)
Theorem blockwise_roundtrip_any_length (k n : Z) (s : bytes) (rnd : Z -> rand) :
  2 <= k <= n -> n <= 16 -> len s mod 16 = 0 ->
  exists shares,
    split k n s false rnd = Ok shares /\
    map fst shares = map (fun j => j + 1) (range n) /\
    Forall (fun sh => len (snd sh) = len s) shares /\
    forall S : list Share,
      NoDup S -> len S = k -> incl S shares -> combine S false = Ok s.
Proof.
  intros Hk Hn Hmod.
  apply (roundtrip_blocks k n s rnd (len s / 16)); try assumption.
  - apply Z.div_pos; [apply len_nonneg|lia].
  - apply Z.div_exact in Hmod; lia.
Qed.

Lemma compress_key_32 (P : Ed25519.EccPoint) :
  Ed25519.generated P -> exists public, Ed25519.compress_key P = Ok public /\ len public = 32.
Proof.
  destruct P as [x y]. unfold Ed25519.generated. cbn [Ed25519.px Ed25519.py].
  intros (Hx & Hy & _). pose proof q_below_2_255 as Hq.
  pose proof (Z.mod_pos_bound x 2 ltac:(lia)) as Hb.
  destruct (to_from_bytes (Ed25519.compress x y) 32 ltac:(lia)) as (enc & Henc & Hlen & _).
  { rewrite compress_value. change (2 ^ (8 * 32)) with (2 * 2 ^ 255). lia. }
  exists enc. split; assumption.
Qed.

(** X18.  What [generate] hands out can be verified: for a key pair whose
    public point is a generated point, [generate] returns [n] packets, one
    per share 1..n, all carrying the private scalar and the BLAKE2b-32
    hash of the compressed public point; and [verify] of any [k] distinct
    shares among them against that hash returns the compressed public
    point. *)
Theorem generate_then_verify (k n : Z) (key : EccKey) (rnd : Z -> rand) :
  2 <= k <= n -> n <= 16 -> Ed25519.generated (pointQ key) ->
  exists public h packets,
    Ed25519.compress_key (pointQ key) = Ok public /\
    blake2b32 public = Ok h /\
    generate rand Shamir_split k n key rnd = Ok packets /\
    map (fun p : Packet => fst (fst (fst p))) packets = map (fun j => j + 1) (range n) /\
    Forall (fun p : Packet => snd (fst p) = key_d key /\ snd p = h) packets /\
    forall S : list Share,
      NoDup S -> len S = k -> incl S (map (fun p : Packet => fst (fst p)) packets) ->
      verify Shamir_combine S h = Ok (Some public).
Proof.
  intros Hk Hn Hgen. destruct (compress_key_32 _ Hgen) as (public & Hpub & Hlen).
  destruct (blake2b_defined public [] 32 ltac:(lia) ltac:(unfold len; cbn; lia)) as (h & Hh).
  destruct (roundtrip_blocks k n public rnd 2 Hk Hn ltac:(lia) Hlen)
    as (shares & Hsplit & Hidx & _ & Hback).
  exists public, h, (map (fun sh => (sh, key_d key, h)) shares).
  split; [exact Hpub|]. split; [exact Hh|]. split.
  { unfold generate. rewrite Hpub. cbn [bind]. unfold blake2b32 in Hh |- *. rewrite Hh.
    cbn [bind]. rewrite Hsplit. reflexivity. }
  split; [rewrite map_map; exact Hidx|]. split.
  { apply List.Forall_forall. intros p Hp. apply in_map_iff in Hp as (sh & <- & _).
    split; reflexivity. }
  intros S Hnd HlenS Hincl. rewrite map_map in Hincl. cbn [fst] in Hincl.
  rewrite map_id in Hincl.
  unfold verify. rewrite (Hback S Hnd HlenS Hincl). cbn [bind].
  unfold blake2b32 in Hh |- *. rewrite Hh. cbn [bind].
  rewrite bool_decide_eq_true_2 by reflexivity. reflexivity.
Qed.

End SSSMore.

Section SSSMoreRuns.

Import SSS.

(** The 48-byte secret 00 01 .. 2f: three blocks. *)
Definition secret48 : bytes := map byte_of_Z (range 48).

Lemma blockwise_roundtrip_any_length_witness :
  exists shares,
    SSS.split unit copy_split 3 5 secret48 false (fun _ => tt) = Ok shares /\
    map fst shares = map (fun j => j + 1) (range 5) /\
    Forall (fun sh => len (snd sh) = len secret48) shares /\
    forall S : list Share,
      NoDup S -> len S = 3 -> incl S shares -> SSS.combine copy_combine S false = Ok secret48.
Proof.
  apply (blockwise_roundtrip_any_length unit copy_split copy_combine
           copy_split_shape copy_threshold 3 5 secret48 (fun _ => tt)).
  - lia.
  - lia.
  - reflexivity.
Defined.

(** The key pair with private scalar 1, whose public point is the base
    point. *)
Definition unit_key : EccKey := {| key_d := 1; pointQ := base_point |}.

Lemma generate_then_verify_witness :
  exists public h packets,
    Ed25519.compress_key (pointQ unit_key) = Ok public /\
    blake2b32 public = Ok h /\
    generate unit copy_split 3 5 unit_key (fun _ => tt) = Ok packets /\
    map (fun p : Packet => fst (fst (fst p))) packets = map (fun j => j + 1) (range 5) /\
    Forall (fun p : Packet => snd (fst p) = key_d unit_key /\ snd p = h) packets /\
    forall S : list Share,
      NoDup S -> len S = 3 -> incl S (map (fun p : Packet => fst (fst p)) packets) ->
      verify copy_combine S h = Ok (Some public).
Proof.
  apply (generate_then_verify unit copy_split copy_combine
           copy_split_shape copy_threshold 3 5 unit_key (fun _ => tt)).
  - lia.
  - lia.
  - exact base_point_generated.
Defined.

End SSSMoreRuns.

(** ** [Ed25519.py]: inverses, square roots and canonical encodings *)

Section EdMore.

Import Ed25519.

(** X19.  [inv] is the inverse modulo [q]: its value lies in [0, q), it
    multiplies with [x] to 1 whenever [x] is not a multiple of [q], and it
    is 0 on the multiples of [q]. *)
Theorem inv_correct (x : Z) :
  0 <= inv x < q /\
  (x mod q <> 0 -> (x * inv x) mod q = 1) /\
  (x mod q = 0 -> inv x = 0).
Proof.
  split; [apply pow3_range|]. split.
  - intros Hx. assert (~ cong x 0) as Hnz.
    { intros H. apply cong_mod in H. rewrite Zmod_0_l in H. contradiction. }
    apply inv_spec, cong_mod in Hnz. rewrite Hnz. reflexivity.
  - intros Hx. unfold inv. pose proof (pow3_range x (q - 2)) as Hr.
    apply cong_small; [|lia].
    apply (cong_trans _ (x ^ (q - 2))); [apply cong_pow3|].
    apply (cong_trans _ (0 ^ (q - 2))).
    + apply cong_pow; [pose proof q_gt_2; lia|]. apply cong_mod. rewrite Hx. reflexivity.
    + rewrite Z.pow_0_l by (pose proof q_gt_2; lia). apply cong_refl.
Qed.

(** X20.  [xrecover y] is an even residue modulo [q], and it is a square
    root of [xx = (y^2 - 1) (d y^2 + 1)^-1] exactly when [xx] has a square
    root at all. *)
Theorem xrecover_is_root (y : Z) :
  0 <= xrecover y < q /\ xrecover y mod 2 = 0 /\
  (has_sqrt (xx_of y) <-> (xrecover y * xrecover y - xx_of y) mod q = 0).
Proof.
  destruct (xrecover_spec y) as (Hr & Hev & Hroot).
  split; [exact Hr|]. split; [exact Hev|]. split.
  - intros Hs. apply Hroot in Hs. apply Z.mod_divide in Hs; [exact Hs|].
    pose proof q_gt_2. lia.
  - intros H0. apply has_sqrt_cong. exists (xrecover y).
    apply Z.mod_divide; [pose proof q_gt_2; lia|exact H0].
Qed.

Lemma byte_of_val (x : byte) : byte_of_Z (byte_val x) = x.
Proof.
  unfold byte_of_Z, byte_val. pose proof (Byte.to_N_bounded x) as Hb.
  rewrite Z.mod_small by lia. rewrite N2Z.id, Byte.of_to_N. reflexivity.
Qed.

(** Writing out what was read gives the bytes back. *)
Lemma le_digits_from_bytes (b : bytes) : le_digits (length b) (from_bytes_le b) = b.
Proof.
  induction b as [|x b IH]; [reflexivity|]. cbn [length le_digits from_bytes_le].
  pose proof (byte_val_range x) as Hx. f_equal.
  - rewrite <- (byte_of_val x) at 2. unfold byte_of_Z.
    replace ((byte_val x + 256 * from_bytes_le b) mod 256) with (byte_val x mod 256);
      [reflexivity|].
    rewrite (Z.mul_comm 256), Z.mod_add by lia. reflexivity.
  - replace ((byte_val x + 256 * from_bytes_le b) / 256) with (from_bytes_le b); [exact IH|].
    rewrite (Z.mul_comm 256), Z.div_add by lia. rewrite Z.div_small by lia. reflexivity.
Qed.

Lemma shiftr_land_1 (key : Z) : 2 * Z.shiftr key 1 + key mod 2 = key.
Proof.
  rewrite Z.shiftr_div_pow2 by lia. change (2 ^ 1) with 2.
  pose proof (Z.div_mod key 2 ltac:(lia)). lia.
Qed.

Lemma sign_parity (m xr b : Z) :
  m mod 2 = 1 -> xr mod 2 = 0 -> 0 <= b < 2 ->
  (if negb (Z.land xr 1 =? b) then m - xr else xr) mod 2 = b.
Proof.
  intros Hm Hev Hb. rewrite land_1, Hev.
  destruct (Z.eqb_spec 0 b) as [H0|H1]; cbn [negb]; [rewrite Hev; exact H0|].
  assert (b = 1) as -> by lia.
  replace (m - xr) with (m + (-1) * xr) by ring.
  rewrite Zplus_mod, Zmult_mod, Hev, Hm. reflexivity.
Qed.

Lemma recompress (key xr x y : Z) (enc : bytes) (P : EccPoint) :
  len enc = 32 -> key = from_bytes_le enc -> y = Z.shiftr key 1 ->
  y < q -> 0 <= xr < q -> xr mod 2 = 0 ->
  xr <> 0 \/ Z.land key 1 = 0 ->
  x = (if negb (Z.land xr 1 =? Z.land key 1) then q - xr else xr) ->
  new_point x y = Ok P ->
  0 <= px P < q /\ 0 <= py P < q /\ compress_key P = Ok enc.
Proof.
  intros Hlen Ekey Ey Hy Hxr Hev Hsign Ex Hdec.
  pose proof (from_bytes_le_range enc) as Hkey. rewrite Hlen, <- Ekey in Hkey.
  assert (0 <= Z.land key 1 < 2) as Hb
    by (rewrite land_1; apply Z.mod_pos_bound; lia).
  assert (x mod 2 = Z.land key 1) as Hpar
    by (rewrite Ex; apply sign_parity; [exact q_odd|exact Hev|exact Hb]).
  assert (0 <= x < q) as Hx.
  { rewrite Ex. rewrite land_1, Hev.
    destruct (Z.eqb_spec 0 (Z.land key 1)) as [H0|H1]; cbn [negb]; [exact Hxr|].
    destruct Hsign as [Hnz|Hz]; [lia|congruence]. }
  assert (0 <= y) as Hy0 by (rewrite Ey; apply Z.shiftr_nonneg; lia).
  destruct (new_point_cases x y) as [Hraise|[Hok _]];
    [rewrite Hraise in Hdec; discriminate|].
  rewrite Hok in Hdec. injection Hdec as <-. cbn [px py].
  split; [exact Hx|]. split; [lia|].
  unfold compress_key. cbn [px py]. rewrite compress_value.
  rewrite Hpar, land_1, Ey, shiftr_land_1. unfold to_bytes_le.
  destruct (Z.ltb_spec key 0); [lia|]. destruct (Z.leb_spec (2 ^ (8 * 32)) key); [lia|].
  f_equal. rewrite Ekey. replace (Z.to_nat 32) with (length enc) by (unfold len in Hlen; lia).
  apply le_digits_from_bytes.
Qed.

(** X21.  Canonical encodings are fixed by the round trip.  A 32-byte
    string is canonical when the [y] it holds is below [q] and it does not
    set the sign bit on [x = 0].  When such a string decompresses to a
    point, the point has the coordinates [decompress_key] computed, both
    below [q], and compressing it gives the same 32 bytes back. *)
Theorem decompress_then_compress (enc : bytes) (P : EccPoint) :
  len enc = 32 ->
  Z.shiftr (from_bytes_le enc) 1 < q ->
  xrecover (Z.shiftr (from_bytes_le enc) 1) <> 0 \/ Z.land (from_bytes_le enc) 1 = 0 ->
  decompress_key enc = Ok P ->
  0 <= px P < q /\ 0 <= py P < q /\ compress_key P = Ok enc.
Proof.
  intros Hlen Hy Hsign Hdec. revert Hdec. unfold decompress_key. cbv zeta. intros Hdec.
  destruct (xrecover_spec (Z.shiftr (from_bytes_le enc) 1)) as (Hr & Hev & _).
  exact (recompress (from_bytes_le enc) (xrecover (Z.shiftr (from_bytes_le enc) 1))
           _ (Z.shiftr (from_bytes_le enc) 1) enc P
           Hlen eq_refl eq_refl Hy Hr Hev Hsign eq_refl Hdec).
Qed.

(** Decompression undoes compression on generated points. *)
Lemma decompress_compress (P : EccPoint) :
  generated P -> exists enc, compress_key P = Ok enc /\ len enc = 32 /\ decompress_key enc = Ok P.
Proof.
  destruct P as [x y]. unfold generated. cbn [px py]. intros (Hx & Hy & Hon).
  pose proof q_below_2_255 as Hq.
  pose proof (Z.mod_pos_bound x 2 ltac:(lia)) as Hb.
  destruct (to_from_bytes (compress x y) 32 ltac:(lia)) as (enc & Henc & Hlen & Hback).
  { rewrite compress_value. change (2 ^ (8 * 32)) with (2 * 2 ^ 255). lia. }
  exists enc. unfold compress_key. cbn [px py].
  split; [exact Henc|]. split; [exact Hlen|].
  unfold decompress_key. cbv zeta. rewrite Hback, compress_value.
  destruct (split_key y (x mod 2) Hb) as [-> ->].
  assert (cong (x * x) (xx_of y)) as Hxx by (apply on_curve_square; exact Hon).
  destruct (xrecover_spec y) as (Hr & Hev & Hroot).
  assert (has_sqrt (xx_of y)) as Hs by (apply has_sqrt_cong; exists x; exact Hxx).
  specialize (Hroot Hs).
  assert (q | xrecover y * xrecover y - x * x) as Hsq
    by (apply (cong_trans _ (xx_of y)); [exact Hroot|apply cong_sym; exact Hxx]).
  rewrite land_1.
  rewrite (root_with_parity q x (xrecover y) q_gt_2 q_odd q_prime Hx Hr Hev Hsq).
  apply new_point_ok; [| |exact Hon]; change (2 ^ 256) with (2 * 2 ^ 255); lia.
Qed.

(** The canonical encoding of the base point. *)
Definition base_enc : bytes :=
  Eval vm_compute in le_digits 32 (compress (px base_point) (py base_point)).

Lemma base_enc_decompress : decompress_key base_enc = Ok base_point.
Proof.
  destruct (decompress_compress base_point base_point_generated) as (enc & Hc & _ & Hd).
  assert (compress_key base_point = Ok base_enc) as Hb by (vm_compute; reflexivity).
  rewrite Hb in Hc. injection Hc as <-. exact Hd.
Qed.

Lemma decompress_then_compress_witness :
  0 <= px base_point < q /\ 0 <= py base_point < q /\
  compress_key base_point = Ok base_enc.
Proof.
  apply (decompress_then_compress base_enc base_point eq_refl).
  - vm_compute. reflexivity.
  - right. vm_compute. reflexivity.
  - exact base_enc_decompress.
Defined.

End EdMore.

(** ** [client.py]: frames, the DBF deque and uploads *)

Section FrameMore.

Import Client.

Lemma length_fit32 (b : bytes) : length (fit32 b) = 32%nat.
Proof.
  unfold fit32. rewrite length_firstn, length_app, repeat_length. lia.
Qed.

Lemma fit32_exact (b : bytes) : len b = 32 -> fit32 b = b.
Proof.
  intros Hb. unfold fit32, len in *. rewrite firstn_app.
  replace (32 - length b)%nat with 0%nat by lia. cbn [firstn].
  rewrite app_nil_r. apply firstn_all2. lia.
Qed.

Lemma byte_val_of_small (z : Z) : 0 <= z <= 255 -> byte_val (byte_of_Z z) = z.
Proof. intros Hz. rewrite byte_val_of_Z. apply Z.mod_small. lia. Qed.

Lemma pack_then_unpack (idx : Z) (share hash : bytes) :
  0 <= idx <= 255 ->
  exists raw, pack idx share hash = Ok raw /\ len raw = STRUCT_SIZE /\
    unpack raw = Ok (idx, fit32 share, fit32 hash).
Proof.
  intros Hidx. unfold pack.
  destruct (Z.ltb_spec idx 0); [lia|]. destruct (Z.ltb_spec 255 idx); [lia|]. cbn [orb].
  eexists. split; [reflexivity|].
  assert (len (byte_of_Z idx :: fit32 share ++ fit32 hash) = STRUCT_SIZE) as Hlen.
  { unfold len. cbn [length]. rewrite length_app, !length_fit32. reflexivity. }
  split; [exact Hlen|]. unfold unpack. rewrite Hlen.
  change (STRUCT_SIZE =? STRUCT_SIZE) with true. cbv iota.
  rewrite byte_val_of_small by assumption.
  rewrite firstn_app, skipn_app, length_fit32, Nat.sub_diag.
  cbn [firstn skipn]. rewrite app_nil_r.
  rewrite firstn_all2, skipn_all2 by (rewrite length_fit32; lia). reflexivity.
Qed.

(** X22.  The frame round trip: for an index that fits a byte,
    [struct.pack] gives 65 bytes which [struct.unpack] reads back as the
    index and the two fields cut or zero-padded to 32 bytes; fields of
    exactly 32 bytes come back unchanged. *)
Theorem pack_unpack (idx : Z) (share hash : bytes) :
  0 <= idx <= 255 ->
  exists raw, pack idx share hash = Ok raw /\ len raw = STRUCT_SIZE /\
    unpack raw = Ok (idx, fit32 share, fit32 hash) /\
    (len share = 32 -> fit32 share = share) /\
    (len hash = 32 -> fit32 hash = hash).
Proof.
  intros Hidx. destruct (pack_then_unpack idx share hash Hidx) as (raw & Hp & Hl & Hu).
  exists raw. repeat (split; [assumption|]). split; apply fit32_exact.
Qed.

Lemma pack_unpack_witness :
  exists raw, pack 4 (payload 4) peer_hash = Ok raw /\ len raw = STRUCT_SIZE /\
    unpack raw = Ok (4, fit32 (payload 4), fit32 peer_hash) /\
    (len (payload 4) = 32 -> fit32 (payload 4) = payload 4) /\
    (len peer_hash = 32 -> fit32 peer_hash = peer_hash).
Proof. apply (pack_unpack 4 (payload 4) peer_hash). lia. Defined.

End FrameMore.

Section DBFMore.

Import Bloom Backend SSS Timekeeper Client.

Variable rand : Type.
Variable Shamir_split : Z -> Z -> bytes -> bool -> rand -> list Share.
Variable Shamir_combine : list Share -> bool -> res bytes.
Variable point_mul : Ed25519.EccPoint -> Z -> Ed25519.EccPoint.

Local Abbreviation listen := (Client.listen Shamir_combine point_mul).
Local Abbreviation conclude := (Client.conclude point_mul).
Local Abbreviation eph_gen := (Client.eph_gen rand Shamir_split).
Local Abbreviation step := (Client.step rand Shamir_split Shamir_combine point_mul).

(** X23.  A datagram shorter than the 65-byte frame makes [listen] raise
    [struct.error] after it has rescheduled itself; nothing else of the
    node changes.  A longer datagram is cut to its first 65 bytes by
    [recvfrom]. *)
Theorem listen_short_datagram (now : Q) (raw : bytes) (self : Client) :
  (len raw < STRUCT_SIZE ->
   listen now (Some raw) self =
     finish self [enter now (1 # 10) 1 TListen] (Raised StructError)) /\
  listen now (Some raw) self = listen now (Some (firstn (Z.to_nat STRUCT_SIZE) raw)) self.
Proof.
  split.
  - intros Hshort. unfold Client.listen, received.
    rewrite firstn_all2 by (unfold len in Hshort; lia).
    unfold unpack. destruct raw as [|idx rest]; [reflexivity|].
    destruct (Z.eqb_spec (len (idx :: rest)) STRUCT_SIZE); [lia|]. reflexivity.
  - unfold Client.listen, received. rewrite firstn_firstn, Nat.min_id. reflexivity.
Qed.

(** *** The deque of daily filters *)

(** A filter with the default parameters and a non-negative integer that
    fits [FILTER_SIZE] bytes. *)
Definition default_filter (b : BloomFilter) : Prop :=
  byte_size b = FILTER_SIZE /\ bit_size b = FILTER_SIZE * 8 /\ digest_size b = 3 /\
  hash_rounds b = HASH_ROUNDS /\ 0 <= filter b < 2 ^ (8 * FILTER_SIZE).

(** The deque holds between one and [dbf_count] filters, all of them
    default filters. *)
Definition dbf_ok (d : DBFContainer) : Prop :=
  1 <= len (dbfs d) <= dbf_count /\ Forall default_filter (dbfs d).

Lemma default_empty : default_filter Bloom.empty.
Proof.
  unfold default_filter. change (filter Bloom.empty) with 0.
  refine (conj eq_refl (conj eq_refl (conj eq_refl (conj eq_refl (conj _ _))))).
  - apply Z.le_refl.
  - apply Z.pow_pos_nonneg; [reflexivity|]. unfold FILTER_SIZE. lia.
Qed.

Lemma default_wf (b : BloomFilter) : default_filter b -> wf b.
Proof.
  intros (H1 & H2 & H3 & H4 & H5). unfold wf. rewrite H1, H2, H3.
  split; [reflexivity|]. split; [reflexivity|].
  split; [rewrite Z.abs_eq by lia; rewrite Z.mul_comm; lia|unfold FILTER_SIZE; lia].
Qed.

Lemma default_add (b b' : BloomFilter) (key : Z) (r : res unit) :
  default_filter b -> add b key = (b', r) -> default_filter b'.
Proof.
  intros Hb Hadd. pose proof (default_wf b Hb) as Hwf.
  destruct Hb as (H1 & H2 & H3 & H4 & H5).
  destruct (add_inv b key b' r Hwf Hadd) as ((_ & _ & Habs & _) & _ & _ & Hnn).
  unfold add in Hadd. apply add_loop_bits in Hadd.
  destruct Hadd as ((P1 & P2 & P3 & P4) & _ & _).
  unfold default_filter. rewrite P1, P2, P3, P4.
  repeat (split; [assumption|]).
  specialize (Hnn ltac:(lia)). rewrite Z.abs_eq in Habs by assumption.
  rewrite P1, H1, Z.mul_comm in Habs. lia.
Qed.



Lemma dbf_count_value : dbf_count = 7.
Proof. reflexivity. Qed.

Lemma deque_append_ok (d : list BloomFilter) :
  1 <= len d <= dbf_count -> Forall default_filter d ->
  1 <= len (deque_append dbf_count d Bloom.empty) <= dbf_count /\
  Forall default_filter (deque_append dbf_count d Bloom.empty).
Proof.
  rewrite dbf_count_value. intros Hlen Hall. unfold deque_append.
  destruct (Z.leb_spec 7 (len d)) as [Hfull|Hroom].
  - destruct d as [|x d]; [unfold len in Hlen; cbn in Hlen; lia|].
    cbn [tl]. inversion Hall; subst. split.
    + rewrite len_app. unfold len in *. cbn [length] in *. lia.
    + apply Forall_app. split; [assumption|]. constructor; [apply default_empty|constructor].
  - split.
    + rewrite len_app. unfold len in *. cbn [length] in *. lia.
    + apply Forall_app. split; [assumption|]. constructor; [apply default_empty|constructor].
Qed.

Lemma dbf_add_ok (d : DBFContainer) (EncID : Z) :
  dbf_ok d -> dbf_ok (fst (dbf_add d EncID)).
Proof.
  intros [Hlen Hall]. unfold dbf_add.
  destruct (last (dbfs d)) as [cur|] eqn:Hlast; [|split; assumption].
  destruct (add cur EncID) as [cur' r] eqn:Hadd. cbn [fst].
  assert (dbfs d = removelast (dbfs d) ++ [cur]) as Hsplit.
  { destruct (dbfs d) as [|x l] eqn:Hd using rev_ind; [discriminate|].
    rewrite last_snoc in Hlast. injection Hlast as ->.
    rewrite removelast_last. reflexivity. }
  rewrite Hsplit in Hlen, Hall. apply Forall_app in Hall as [Hinit Hcur].
  inversion Hcur; subst. split; cbn [dbfs].
  - rewrite len_app in *. exact Hlen.
  - apply Forall_app. split; [assumption|].
    constructor; [eapply default_add; eassumption|constructor].
Qed.

Lemma conclude_dbf_ok now self hash evs v :
  dbf_ok (dbf self) -> dbf_ok (dbf (node (conclude now self hash evs v))).
Proof.
  intros Hok. unfold Client.conclude. destruct v as [[[|b public]|]|e]; cbn; auto.
  destruct (calc_shared point_mul (b :: public) (last_secret self)) as [EncID|e]; cbn; auto.
  pose proof (dbf_add_ok (dbf self) EncID Hok) as Hadd.
  destruct (dbf_add (dbf self) EncID) as [dbf' [u|e]]; cbn in *; auto.
  destruct (entry now _ hash). cbn. assumption.
Qed.

Lemma store_dbf now hash sh self : dbf (store now hash sh self) = dbf self.
Proof. unfold store. destruct (entry now self hash). reflexivity. Qed.

Lemma listen_dbf_ok now raw self :
  dbf_ok (dbf self) -> dbf_ok (dbf (node (listen now raw self))).
Proof.
  intros Hok. unfold Client.listen.
  destruct (received raw self) as [[[[idx share] hash]|]|e]; cbn; auto.
  destruct (SHARE_K <=? len (snd (entry now (store now hash (idx, share) self) hash))).
  - apply conclude_dbf_ok. rewrite store_dbf. assumption.
  - cbn. rewrite store_dbf. assumption.
Qed.

Lemma cmd_positive_dbfs now period evs self :
  dbfs (dbf (node (cmd_positive now period evs self))) = dbfs (dbf self).
Proof.
  unfold cmd_positive.
  match goal with |- context [dbf_combine ?d] => destruct (dbf_combine d) as [cbf|e] end;
    [|reflexivity].
  match goal with |- context [contact_backend ?t ?c] => destruct (contact_backend t c) end;
    reflexivity.
Qed.

Lemma command_dbfs now self :
  dbfs (dbf (node (command now self))) = dbfs (dbf self).
Proof.
  unfold command. destruct (commands self) as [|c0 cs]; [reflexivity|].
  destruct (nth (pc self) (c0 :: cs) c0); try reflexivity.
  - cbn. destruct (Qeq_bool _ 0); reflexivity.
  - rewrite cmd_positive_dbfs. reflexivity.
Qed.

Lemma dbf_ok_same (d d' : DBFContainer) : dbfs d' = dbfs d -> dbf_ok d -> dbf_ok d'.
Proof. unfold dbf_ok. intros ->. auto. Qed.

Lemma step_dbf_ok (s s' : timed) : step s s' -> dbf_ok (dbf (obj s)) -> dbf_ok (dbf (obj s')).
Proof.
  intros Hstep Hok.
  destruct Hstep as [s t Hlo|s e He _|s raw e He _|s key rnd e He _
                    |s r e He _|s e He _|s e He _|s e He _|s e He _]; try subst e;
    cbn [obj].
  - assumption.
  - assumption.
  - apply listen_dbf_ok. assumption.
  - unfold Client.eph_gen.
    destruct (generate rand Shamir_split SHARE_K SHARE_N key rnd) as [shs|e]; [|assumption].
    destruct shs as [|[[sh d] h] shs]; assumption.
  - unfold eph_share. destruct (ephs (obj s)) as [|[[[idx payload] secret] hash] rest];
      [assumption|].
    destruct (Qlt_le_dec r SHARE_DROP); [assumption|].
    destruct (pack idx payload hash); assumption.
  - eapply dbf_ok_same; [apply command_dbfs|assumption].
  - unfold qbf_create. destruct (dbf_combine (dbf (obj s))) as [cbf|e]; [|assumption].
    destruct (contact_backend _ cbf); assumption.
  - destruct Hok as [Hlen Hall]. destruct (deque_append_ok _ Hlen Hall). split; assumption.
  - assumption.
Qed.

(** X24.  The deque of DBFs: from [DBFContainer.__init__] on and through
    every task of the node, it holds at least one and at most
    [DBF_LIFE / DBF_TIME + 1 = 7] filters, each with the default
    parameters and a non-negative integer of at most 100000 bytes. *)
Theorem dbf_deque_invariant :
  (forall now, dbf_ok (fst (dbf_init now))) /\
  (forall s s', step s s' -> dbf_ok (dbf (obj s)) -> dbf_ok (dbf (obj s'))).
Proof.
  split; [|exact step_dbf_ok].
  intros now. unfold dbf_ok.
  replace (dbfs (fst (dbf_init now))) with [Bloom.empty] by reflexivity.
  rewrite dbf_count_value. split; [unfold len; cbn [length]; lia|].
  constructor; [apply default_empty|constructor].
Qed.

(** *** Uploads *)





(** *** Reconstruction *)

Lemma attempt_inv (now : Q) (raw : option bytes) (self : Client) (l : list Share) (hash : bytes) :
  attempt now raw self = Some (l, hash) ->
  exists idx share,
    received raw self = Ok (Some (idx, share, hash)) /\
    l = snd (entry now self hash) ++ [(idx, share)] /\
    entry now (store now hash (idx, share) self) hash = (fst (entry now self hash), l) /\
    (SHARE_K <=? len (snd (entry now (store now hash (idx, share) self) hash))) = true.
Proof.
  unfold attempt.
  destruct (received raw self) as [[[[idx share] hash']|]|e]; try discriminate.
  destruct (SHARE_K <=? len (snd (entry now (store now hash' (idx, share) self) hash')))
    eqn:Hk; [|discriminate].
  intros [= <- <-]. exists idx, share.
  assert (entry now (store now hash' (idx, share) self) hash'
          = (fst (entry now self hash'), snd (entry now self hash') ++ [(idx, share)])) as He.
  { unfold store. destruct (entry now self hash') as [t0 l0] eqn:He0.
    unfold entry. cbn. rewrite lookup_insert_eq. reflexivity. }
  split; [reflexivity|]. split; [rewrite He; reflexivity|].
  split; [rewrite He; reflexivity|exact Hk].
Qed.

(** X26.  A failed reconstruction costs nothing: when [sss.verify] answers
    [False], [listen] returns with every share collected for the hash,
    the new one included, still in the table under the time it was first
    seen, and with the DBFs untouched. *)
Theorem listen_mismatch_keeps_shares (now : Q) (raw : option bytes) (self : Client)
    (l : list Share) (hash : bytes) :
  attempt now raw self = Some (l, hash) ->
  verify Shamir_combine l hash = Ok None ->
  result (listen now raw self) = Returned /\
  shares (node (listen now raw self)) !! hash = Some (fst (entry now self hash), l) /\
  dbf (node (listen now raw self)) = dbf self.
Proof.
  intros Hatt Hver. destruct (attempt_inv now raw self l hash Hatt)
    as (idx & share & Hrecv & Hl & He & Hk).
  unfold Client.listen. rewrite Hrecv, Hk, He. cbn [snd]. rewrite Hver. cbn.
  split; [reflexivity|]. split; [|apply store_dbf].
  unfold store. destruct (entry now self hash) as [t0 l0]. cbn in *.
  rewrite lookup_insert_eq. congruence.
Qed.

Lemma last_secret_store now hash sh self : last_secret (store now hash sh self) = last_secret self.
Proof. unfold store. destruct (entry now self hash). reflexivity. Qed.

Lemma dbf_ok_last (d : DBFContainer) :
  dbf_ok d -> exists cur, last (dbfs d) = Some cur /\ default_filter cur /\
    dbfs d = removelast (dbfs d) ++ [cur].
Proof.
  intros [Hlen Hall]. destruct (dbfs d) as [|x l] using rev_ind;
    [unfold len in Hlen; cbn in Hlen; lia|].
  exists x. rewrite last_snoc, removelast_last. apply Forall_app in Hall as [_ Hx].
  inversion Hx; subst. auto.
Qed.

(** X27.  A successful reconstruction: when [sss.verify] returns the
    public key of a peer and that key decompresses to the point [P],
    [listen] adds the encounter identifier [x(P * last_secret)] to the
    newest DBF and to no other, and empties the share list of the hash
    while keeping its entry and the time it was first seen. *)
Theorem listen_reconstructs (now : Q) (raw : option bytes) (self : Client)
    (l : list Share) (hash public : bytes) (P : Ed25519.EccPoint) :
  attempt now raw self = Some (l, hash) ->
  verify Shamir_combine l hash = Ok (Some public) -> public <> [] ->
  Ed25519.decompress_key public = Ok P ->
  dbf_ok (dbf self) ->
  exists newest,
    result (listen now raw self) = Returned /\
    shares (node (listen now raw self)) !! hash = Some (fst (entry now self hash), []) /\
    last (dbfs (dbf (node (listen now raw self)))) = Some newest /\
    contains newest (Ed25519.px (point_mul P (last_secret self))) = Ok true /\
    removelast (dbfs (dbf (node (listen now raw self)))) = removelast (dbfs (dbf self)).
Proof.
  intros Hatt Hver Hne Hdec Hok. destruct (attempt_inv now raw self l hash Hatt)
    as (idx & share & Hrecv & Hl & He & Hk).
  destruct (dbf_ok_last _ Hok) as (cur & Hlast & (_ & D2 & D3 & D4 & _) & Hsplit).
  destruct (default_add_total cur (Ed25519.px (point_mul P (last_secret self))) D3 D2 D4)
    as (cur' & Hadd & Hin).
  exists cur'. unfold Client.listen. rewrite Hrecv, Hk, He. cbn [snd]. rewrite Hver.
  unfold Client.conclude. destruct public as [|b public]; [contradiction|].
  unfold calc_shared. rewrite Hdec. cbn [bind].
  rewrite last_secret_store, store_dbf. unfold dbf_add. rewrite Hlast, Hadd.
  set (self1 := store now hash (idx, share) self) in *.
  assert (entry now (set_dbf self1
            {| dbfs := removelast (dbfs (dbf self)) ++ [cur']; is_cbf := is_cbf (dbf self) |})
            hash = (fst (entry now self hash), l)) as He' by exact He.
  rewrite He'. cbn.
  rewrite lookup_insert_eq, last_snoc, removelast_last. auto.
Qed.

End DBFMore.

Section NodeMoreRuns.

Import Bloom SSS Client.

(** A primitive that answers every block with 16 zero bytes: what it
    reconstructs never matches the hash of [frame]. *)
Definition zero_combine (shares : list Share) (ssss : bool) : res bytes :=
  Ok (repeat x00 16).

Lemma listen_mismatch_keeps_shares_witness :
  result (Client.listen zero_combine no_mul 10 (Some (frame 4)) three_collected) = Returned /\
  shares (node (Client.listen zero_combine no_mul 10 (Some (frame 4)) three_collected))
    !! peer_hash
    = Some (fst (entry 10 three_collected peer_hash),
            [(1, payload 1); (2, payload 2); (3, payload 3); (4, payload 4)]) /\
  dbf (node (Client.listen zero_combine no_mul 10 (Some (frame 4)) three_collected))
    = dbf three_collected.
Proof.
  apply (listen_mismatch_keeps_shares zero_combine no_mul 10 (Some (frame 4)) three_collected).
  - vm_compute. reflexivity.
  - vm_compute. reflexivity.
Defined.

(** The hash a node broadcasts with the shares of the base point. *)
Definition base_hash : bytes :=
  Eval vm_compute in match blake2b32 base_enc with Ok h => h | Raise _ => [] end.

(** A node that holds two shares of the base point's encoding, and the
    frame that brings the third. *)
Definition two_collected : Client :=
  set_shares fresh_node {[ base_hash := (1%Q, [(1, base_enc); (2, base_enc)]) ]}.
Definition third_frame : bytes := byte_of_Z 3 :: base_enc ++ base_hash.

Lemma listen_reconstructs_witness :
  exists newest,
    result (Client.listen copy_combine no_mul 10 (Some third_frame) two_collected)
      = Returned /\
    shares (node (Client.listen copy_combine no_mul 10 (Some third_frame) two_collected))
      !! base_hash = Some (fst (entry 10 two_collected base_hash), []) /\
    last (dbfs (dbf (node (Client.listen copy_combine no_mul 10 (Some third_frame)
                             two_collected)))) = Some newest /\
    contains newest (Ed25519.px (no_mul base_point (last_secret two_collected))) = Ok true /\
    removelast (dbfs (dbf (node (Client.listen copy_combine no_mul 10 (Some third_frame)
                                   two_collected))))
      = removelast (dbfs (dbf two_collected)).
Proof.
  apply (listen_reconstructs copy_combine no_mul 10 (Some third_frame) two_collected
           [(1, base_enc); (2, base_enc); (3, base_enc)] base_hash base_enc base_point).
  - vm_compute. reflexivity.
  - vm_compute. reflexivity.
  - discriminate.
  - exact base_enc_decompress.
  - split; [vm_compute; split; discriminate|].
    constructor; [apply default_empty|constructor].
Defined.

End NodeMoreRuns.

(** *** A node does not pair with itself *)

Section OwnMore.

Import Bloom SSS Client.

Variable rand : Type.
Variable Shamir_split : Z -> Z -> bytes -> bool -> rand -> list Share.
Variable Shamir_combine : list Share -> bool -> res bytes.
Variable point_mul : Ed25519.EccPoint -> Z -> Ed25519.EccPoint.

Local Abbreviation listen := (Client.listen Shamir_combine point_mul).
Local Abbreviation eph_gen := (Client.eph_gen rand Shamir_split).
Local Abbreviation step := (Client.step rand Shamir_split Shamir_combine point_mul).

Lemma absorb_length (fuel : nat) : forall (h : list Z) (t : Z) (d : bytes),
  length h = 8%nat -> length (Blake2b.absorb fuel h t d) = 8%nat.
Proof.
  induction fuel as [|fuel IH]; intros h t d Hh; cbn [Blake2b.absorb]; [assumption|].
  destruct (length d <=? 128)%nat.
  - unfold Blake2b.F. cbv zeta. rewrite length_map. reflexivity.
  - apply IH. unfold Blake2b.F. cbv zeta. rewrite length_map. reflexivity.
Qed.

Lemma length_flat_digits (h : list Z) :
  length (flat_map (le_digits 8) h) = (8 * length h)%nat.
Proof.
  induction h as [|z h IH]; [reflexivity|].
  cbn [flat_map]. rewrite length_app, IH.
  pose proof (len_le_digits 8 z) as Hl. unfold len in Hl. cbn [length]. lia.
Qed.

(** A BLAKE2b digest has the length that was asked for. *)
Lemma blake2b_length (data key dg : bytes) (nn : Z) :
  Blake2b.blake2b data nn key = Ok dg -> len dg = nn.
Proof.
  unfold Blake2b.blake2b. cbv zeta.
  match goal with |- context [Blake2b.absorb ?f ?h ?t ?d] =>
    assert (length (Blake2b.absorb f h t d) = 8%nat) as Hw
      by (apply absorb_length; reflexivity);
    generalize dependent (Blake2b.absorb f h t d)
  end.
  intros hw Hw.
  destruct (Z.ltb_spec nn 1); [discriminate|]. destruct (Z.ltb_spec 64 nn); [discriminate|].
  cbn [orb]. destruct (64 <? len key); [discriminate|]. intros [= <-].
  unfold Blake2b.digest_bytes, len.
  rewrite length_firstn, length_flat_digits, Hw. lia.
Qed.

(** Every packet of one [generate] carries the same 32-byte hash. *)
Lemma generate_hash (k n : Z) (key : EccKey) (rnd : Z -> rand) (shs : list Packet) :
  generate rand Shamir_split k n key rnd = Ok shs ->
  exists h, len h = 32 /\ Forall (fun p : Packet => snd p = h) shs.
Proof.
  unfold generate.
  destruct (Ed25519.compress_key (pointQ key)) as [public|]; [|discriminate]. cbn [bind].
  destruct (blake2b32 public) as [h|] eqn:Hh; [|discriminate]. cbn [bind].
  destruct (SSS.split rand Shamir_split k n public false rnd) as [shares|]; [|discriminate].
  cbn [bind]. intros [= <-]. exists h. split; [exact (blake2b_length _ _ _ _ Hh)|].
  apply List.Forall_forall. intros p Hp. apply in_map_iff in Hp as (sh & <- & _). reflexivity.
Qed.

(** Every queued packet carries a 32-byte hash that the node knows as one
    of its own. *)
Definition own_inv (self : Client) : Prop :=
  Forall (fun p : Packet => snd p ∈ own_shares self /\ len (snd p) = 32) (ephs self).

Lemma own_inv_same (self self' : Client) :
  ephs self' = ephs self -> own_shares self' = own_shares self ->
  own_inv self -> own_inv self'.
Proof. unfold own_inv. intros -> ->. auto. Qed.

Lemma store_queue now hash sh self :
  ephs (store now hash sh self) = ephs self /\
  own_shares (store now hash sh self) = own_shares self.
Proof. unfold store. destruct (entry now self hash). split; reflexivity. Qed.

Lemma conclude_queue now self hash evs v :
  ephs (node (Client.conclude point_mul now self hash evs v)) = ephs self /\
  own_shares (node (Client.conclude point_mul now self hash evs v)) = own_shares self.
Proof.
  unfold Client.conclude. destruct v as [[[|b public]|]|e]; cbn; auto.
  destruct (calc_shared point_mul (b :: public) (last_secret self)) as [EncID|e]; cbn; auto.
  destruct (dbf_add (dbf self) EncID) as [dbf' [u|e]]; cbn; auto.
  destruct (entry now _ hash). cbn. auto.
Qed.

Lemma listen_queue now raw self :
  ephs (node (listen now raw self)) = ephs self /\
  own_shares (node (listen now raw self)) = own_shares self.
Proof.
  unfold Client.listen.
  destruct (received raw self) as [[[[idx share] hash]|]|e]; cbn; auto.
  destruct (SHARE_K <=? len (snd (entry now (store now hash (idx, share) self) hash))).
  - destruct (conclude_queue now (store now hash (idx, share) self) hash
                [enter now (1 # 10) 1 TListen]
                (verify Shamir_combine
                   (snd (entry now (store now hash (idx, share) self) hash)) hash))
      as [-> ->].
    apply store_queue.
  - cbn. apply store_queue.
Qed.

Lemma command_queue now self :
  ephs (node (command now self)) = ephs self /\
  own_shares (node (command now self)) = own_shares self.
Proof.
  unfold command. destruct (commands self) as [|c0 cs]; [auto|].
  destruct (nth (pc self) (c0 :: cs) c0); cbn; auto.
  - destruct (Qeq_bool _ 0); cbn; auto.
  - unfold cmd_positive.
    match goal with |- context [dbf_combine ?d] => destruct (dbf_combine d) as [cbf|e] end;
      [|cbn; auto].
    match goal with |- context [contact_backend ?t ?c] => destruct (contact_backend t c) end;
      cbn; auto.
Qed.

Lemma step_own_inv (s s' : timed) : step s s' -> own_inv (obj s) -> own_inv (obj s').
Proof.
  intros Hstep Hok.
  destruct Hstep as [s t Hlo|s e He _|s raw e He _|s key rnd e He Hret
                    |s r e He _|s e He _|s e He _|s e He _|s e He _]; try subst e;
    cbn [obj].
  - assumption.
  - assumption.
  - destruct (listen_queue (clock s) raw (obj s)). eapply own_inv_same; eassumption.
  - unfold Client.eph_gen in *.
    destruct (generate rand Shamir_split SHARE_K SHARE_N key rnd) as [shs|e] eqn:Hgen;
      [|assumption].
    destruct (generate_hash _ _ _ _ _ Hgen) as (h & Hlen & Hall).
    destruct shs as [|[[sh d] h'] shs]; [discriminate|].
    assert (h' = h) as -> by (inversion Hall; assumption).
    unfold own_inv in *. cbn. apply Forall_app. split.
    + eapply List.Forall_impl; [|exact Hok]. cbn. intros p [Hin Hl].
      split; [set_solver|assumption].
    + eapply List.Forall_impl; [|exact Hall]. cbn. intros p ->.
      split; [set_solver|assumption].
  - unfold eph_share. destruct (ephs (obj s)) as [|[[[idx payload] secret] hash] rest] eqn:Hq;
      [assumption|].
    assert (own_inv (set_ephs (obj s) rest)) as Hrest.
    { unfold own_inv in *. rewrite Hq in Hok. inversion Hok; subst. assumption. }
    destruct (Qlt_le_dec r SHARE_DROP); [assumption|].
    destruct (pack idx payload hash); assumption.
  - destruct (command_queue (clock s) (obj s)). eapply own_inv_same; eassumption.
  - unfold qbf_create. destruct (dbf_combine (dbf (obj s))) as [cbf|e]; [|assumption].
    destruct (contact_backend _ cbf); assumption.
  - assumption.
  - assumption.
Qed.

Lemma own_datagram_ignored (now : Q) (r : Q) (self : Client) (raw : bytes) (dest : Z)
    (now' : Q) :
  own_inv self ->
  datagrams (eph_share now r self) = [(raw, dest)] ->
  dest = location self /\
  listen now' (Some raw) (node (eph_share now r self)) =
    finish (node (eph_share now r self)) [enter now' (1 # 10) 1 TListen] Returned.
Proof.
  intros Hown. unfold eph_share.
  destruct (ephs self) as [|[[[idx payload] secret] hash] rest] eqn:Hq; [discriminate|].
  destruct (Qlt_le_dec r SHARE_DROP); [discriminate|].
  destruct (pack idx payload hash) as [packet|] eqn:Hpack; [|discriminate].
  cbn [datagrams node]. intros [= <- <-]. split; [reflexivity|].
  unfold own_inv in Hown. rewrite Hq in Hown. inversion Hown as [|? ? [Hin Hlen] _]; subst.
  cbn [snd] in Hin, Hlen.
  assert (0 <= idx <= 255) as Hidx.
  { unfold pack in Hpack. destruct (Z.ltb_spec idx 0); [discriminate|].
    destruct (Z.ltb_spec 255 idx); [discriminate|lia]. }
  destruct (pack_then_unpack idx payload hash Hidx) as (raw' & Hp & Hl & Hu).
  rewrite Hpack in Hp. injection Hp as <-.
  unfold Client.listen, received.
  rewrite firstn_all2 by (unfold len in Hl; lia). rewrite Hu. cbn [bind].
  rewrite (fit32_exact hash Hlen).
  rewrite bool_decide_eq_true_2 by exact Hin. reflexivity.
Qed.

(** X28.  A node never collects its own shares.  The hashes of all queued
    packets are 32 bytes long and known to the node as its own, from the
    empty queue on and through every task; and a datagram that
    [eph_share] broadcasts goes to the port of the node's location and,
    when the node's own [listen] picks it up, is dropped without touching
    the share table or anything else. *)
Theorem own_broadcast_ignored :
  (forall self, ephs self = [] -> own_inv self) /\
  (forall s s', step s s' -> own_inv (obj s) -> own_inv (obj s')) /\
  (forall now r self raw dest now',
     own_inv self -> datagrams (eph_share now r self) = [(raw, dest)] ->
     dest = location self /\
     listen now' (Some raw) (node (eph_share now r self)) =
       finish (node (eph_share now r self)) [enter now' (1 # 10) 1 TListen] Returned).
Proof.
  split; [|split].
  - intros self Hq. unfold own_inv. rewrite Hq. constructor.
  - exact step_own_inv.
  - exact own_datagram_ignored.
Qed.

End OwnMore.

(** ** [Attacker.py]: the tracker *)

Section AttackerMore.

Import Backend Attacker.

Lemma to_int_pos (p : positive) : Z.to_int (Zpos p) = Decimal.Pos (Pos.to_uint p).
Proof. reflexivity. Qed.

Lemma str_encode_inj (n n' : Z) : 0 < n -> 0 < n' -> str_encode n = str_encode n' -> n = n'.
Proof.
  intros Hn Hn' Heq. unfold str_encode in Heq.
  apply (f_equal string_of_list_byte) in Heq.
  rewrite !string_of_list_byte_of_string in Heq.
  apply (f_equal NilZero.int_of_string) in Heq.
  destruct n as [|p|p]; try lia. destruct n' as [|p'|p']; try lia.
  rewrite !to_int_pos in Heq.
  rewrite !NilZero.isi in Heq;
    try discriminate;
    try (intros [= H]; exact (DecimalPos.Unsigned.to_uint_nonnil _ H)).
  injection Heq as Heq. apply DecimalPos.Unsigned.to_uint_inj in Heq.
  rewrite Heq. reflexivity.
Qed.

Lemma byte_val_inj (x y : byte) : byte_val x = byte_val y -> x = y.
Proof.
  unfold byte_val. intros H. apply N2Z.inj in H.
  rewrite <- (byte_of_to_N_default x), <- (byte_of_to_N_default y), H. reflexivity.
Qed.

Lemma node_name_inj (n n' : Z) : 0 < n -> 0 < n' -> node_name n = node_name n' -> n = n'.
Proof.
  intros Hn Hn' Heq. unfold node_name in Heq. apply app_inv_head in Heq.
  apply str_encode_inj; try assumption.
  revert Heq. generalize (str_encode n) (str_encode n'). clear.
  induction l as [|x l IH]; intros [|y l'] H; try discriminate; [reflexivity|].
  injection H as Hx Hl. f_equal; [apply byte_val_inj; assumption|apply IH; assumption].
Qed.

(** The loop keeps the names, in their order. *)
Lemma find_loop_names (hash : bytes) (a : addr) (nodes : list entry) :
  forall nodes' id, find_loop hash a nodes = Some (nodes', id) ->
    map name nodes' = map name nodes /\ In id (map name nodes).
Proof.
  induction nodes as [|node rest IH]; intros nodes' id H; [discriminate|].
  cbn [find_loop] in H. destruct (bool_decide (a ∈ addrs node)).
  { injection H as <- <-. cbn. auto. }
  destruct (bool_decide (hash ∈ hashes node)).
  { injection H as <- <-. cbn. auto. }
  destruct (find_loop hash a rest) as [[rest' id']|]; [|discriminate].
  injection H as <- <-. destruct (IH rest' id' eq_refl) as [Hn Hin].
  cbn. rewrite Hn. auto.
Qed.

(** The names in the tracker are "Node 1", "Node 2", ... in this order,
    as many as the counter says. *)
Definition numbered (st : state) : Prop :=
  0 <= node_id st /\
  map name (tracker st) = map (fun i => node_name (i + 1)) (range (node_id st)).

Lemma range_succ (n : Z) : 0 <= n -> range (n + 1) = range n ++ [n].
Proof.
  intros Hn. unfold range. replace (Z.to_nat (n + 1)) with (S (Z.to_nat n)) by lia.
  rewrite seq_S, map_app. cbn. rewrite Z2Nat.id by lia. reflexivity.
Qed.

Lemma find_node_numbered (hash : bytes) (a : addr) (st : state) :
  numbered st -> numbered (fst (find_node hash a st)).
Proof.
  intros [Hnn Hnames]. unfold find_node.
  destruct (find_loop hash a (tracker st)) as [[nodes id]|] eqn:Hloop.
  - apply find_loop_names in Hloop as [Hn _].
    split; cbn [fst tracker node_id]; [assumption|rewrite Hn; exact Hnames].
  - unfold new_id, numbered. cbn [fst snd tracker node_id]. split; [lia|].
    rewrite map_app, Hnames, range_succ, map_app by assumption. reflexivity.
Qed.

Lemma reachable_numbered (st : state) : reachable st -> numbered st.
Proof.
  induction 1 as [|st hash a _ IH].
  - split; [cbn; lia|reflexivity].
  - apply find_node_numbered. assumption.
Qed.

Lemma numbered_NoDup (st : state) : numbered st -> NoDup (map name (tracker st)).
Proof.
  intros [Hnn ->]. unfold range. rewrite map_map.
  apply (NoDup_fmap_2_strong (fun x : nat => node_name (Z.of_nat x + 1))).
  - intros x y _ _ H. apply node_name_inj in H; lia.
  - apply NoDup_seq.
Qed.

(** X29.  The tracker numbers its nodes: in every state the attacker can
    reach by calls of [find_node] taken one at a time, the counter equals the number of entries, the entries are named
    "Node 1", "Node 2", ... in the order of their creation, no two entries
    share a name, and [find_node] returns the name of an entry. *)
Theorem tracker_names_distinct (st : state) :
  reachable st ->
  node_id st = len (tracker st) /\
  map name (tracker st) = map (fun i => node_name (i + 1)) (range (node_id st)) /\
  NoDup (map name (tracker st)) /\
  forall hash a, In (snd (find_node hash a st)) (map name (tracker (fst (find_node hash a st)))).
Proof.
  intros Hr. pose proof (reachable_numbered st Hr) as Hnum.
  pose proof Hnum as [Hnn Hnames].
  split; [|split; [exact Hnames|split; [apply numbered_NoDup; assumption|]]].
  - apply (f_equal (@length _)) in Hnames. rewrite !length_map, length_range in Hnames.
    unfold len. lia.
  - intros hash a. unfold find_node.
    destruct (find_loop hash a (tracker st)) as [[nodes id]|] eqn:Hloop; cbn.
    + apply find_loop_names in Hloop as [-> Hin]. exact Hin.
    + rewrite map_app. apply in_or_app. right. left. reflexivity.
Qed.

(** The tracker after a first datagram, seen from 10.0.0.1 port 50050. *)
Definition first_seen : state := fst (find_node peer_hash (lit "10.0.0.1", 50050) init).

Lemma tracker_names_distinct_witness :
  node_id first_seen = len (tracker first_seen) /\
  map name (tracker first_seen)
    = map (fun i => node_name (i + 1)) (range (node_id first_seen)) /\
  NoDup (map name (tracker first_seen)) /\
  forall hash a,
    In (snd (find_node hash a first_seen))
       (map name (tracker (fst (find_node hash a first_seen)))).
Proof.
  apply (tracker_names_distinct first_seen). apply reach_find. apply reach_init.
Defined.

(** What the loop does at the entry it stops at. *)
Lemma find_loop_again (hash : bytes) (a : addr) (nodes : list entry) :
  forall nodes' id, find_loop hash a nodes = Some (nodes', id) ->
    find_loop hash a nodes' = Some (nodes', id) /\
    exists node, In node nodes' /\ name node = id /\ a ∈ addrs node /\ hash ∈ hashes node.
Proof.
  induction nodes as [|node rest IH]; intros nodes' id H; [discriminate|].
  cbn [find_loop] in H. destruct (bool_decide (a ∈ addrs node)) eqn:Ha.
  { injection H as <- <-. apply bool_decide_eq_true in Ha. split.
    - cbn [find_loop addrs hashes name]. rewrite bool_decide_eq_true_2 by assumption.
      do 3 f_equal. f_equal. set_solver.
    - eexists. split; [left; reflexivity|]. cbn. split; [reflexivity|]. split; set_solver. }
  destruct (bool_decide (hash ∈ hashes node)) eqn:Hh.
  { injection H as <- <-. apply bool_decide_eq_true in Hh. split.
    - cbn [find_loop addrs hashes name].
      rewrite bool_decide_eq_true_2 by set_solver.
      do 3 f_equal. f_equal. set_solver.
    - eexists. split; [left; reflexivity|]. cbn. split; [reflexivity|]. split; set_solver. }
  destruct (find_loop hash a rest) as [[rest' id']|] eqn:Hrest; [|discriminate].
  injection H as <- <-. destruct (IH rest' id' eq_refl) as [Hagain (n & Hin & Hn)].
  split.
  - cbn [find_loop]. rewrite Ha, Hh, Hagain. reflexivity.
  - exists n. split; [right; assumption|assumption].
Qed.

Lemma find_loop_none_app (hash : bytes) (a : addr) (nodes : list entry) (node : entry) :
  find_loop hash a nodes = None -> a ∈ addrs node ->
  find_loop hash a (nodes ++ [node]) =
    Some (nodes ++ [{| name := name node; addrs := addrs node;
                       hashes := {[ hash ]} ∪ hashes node |}], name node).
Proof.
  intros Hnone Ha. induction nodes as [|n rest IH].
  - cbn. rewrite bool_decide_eq_true_2 by assumption. reflexivity.
  - cbn [find_loop app] in *. destruct (bool_decide (a ∈ addrs n)); [discriminate|].
    destruct (bool_decide (hash ∈ hashes n)); [discriminate|].
    destruct (find_loop hash a rest) as [[? ?]|]; [discriminate|].
    rewrite IH by reflexivity. reflexivity.
Qed.

(** X30.  An association is stable: after [find_node(hash, addr)] the
    tracker holds an entry with the returned name that knows both the
    address and the hash, and asking again with the same hash and address
    returns the same name and changes nothing. *)
Theorem find_node_stable (hash : bytes) (a : addr) (st : state) :
  (exists node, In node (tracker (fst (find_node hash a st))) /\
     name node = snd (find_node hash a st) /\ a ∈ addrs node /\ hash ∈ hashes node) /\
  find_node hash a (fst (find_node hash a st)) = find_node hash a st.
Proof.
  destruct (find_node hash a st) as [st' id] eqn:E. cbn [fst snd].
  unfold find_node in E.
  destruct (find_loop hash a (tracker st)) as [[nodes id0]|] eqn:Hloop.
  - injection E as <- <-. destruct (find_loop_again _ _ _ _ _ Hloop) as [Hagain Hnode].
    split; [exact Hnode|]. unfold find_node. cbn [tracker node_id]. rewrite Hagain.
    reflexivity.
  - unfold new_id in E. injection E as <- <-. cbn [tracker node_id]. split.
    + eexists. split; [apply in_or_app; right; left; reflexivity|].
      cbn [name addrs hashes]. split; [reflexivity|]. split; set_solver.
    + unfold find_node. cbn [tracker node_id].
      rewrite (find_loop_none_app hash a (tracker st) _ Hloop) by (cbn; set_solver).
      cbn [name addrs hashes]. do 3 f_equal. f_equal. f_equal. set_solver.
Qed.

End AttackerMore.
